(** * simplexml/dom: element tree, tree builder and namespace-aware encoder

    A shallow embedding of package [dom] (element.go and the parser file),
    together with the properties of its specification.

    Two views of the Go data are used.

    - [Ptr]: elements as cells of a store addressed by pointers, with the
      [parent] back-reference and the [children] slice of pointers.  This is
      the view needed for [AddChild], [RemoveChild] and [Children], whose
      behaviour depends on sharing.
    - The value view: an element together with its whole subtree as an
      inductive value.  The parser only ever attaches freshly created
      elements and the encoder only reads, so there the subtree is all
      that matters. *)

From stdpp Require Import gmap strings list stringmap.
From Stdlib Require Import ZArith Lia Ascii.

Local Open Scope string_scope.
Local Open Scope list_scope.

(** ** encoding/xml value types *)

Module xml.

(** [xml.Name]: namespace URI (or the empty string) and local name. *)
Record Name := mkName { Space : string; Local : string }.

(** [xml.Attr]: the Go field [Name] is called [AName] here. *)
Record Attr := mkAttr { AName : Name; Value : string }.

(** The zero values of the two struct types. *)
#[global] Instance Name_inhabited : Inhabited Name := populate (mkName "" "").
#[global] Instance Attr_inhabited : Inhabited Attr :=
  populate (mkAttr (mkName "" "") "").

#[global] Instance Name_eq_dec : EqDecision Name.
Proof. solve_decision. Defined.

#[global] Instance Attr_eq_dec : EqDecision Attr.
Proof. solve_decision. Defined.

End xml.

(** ** Go slices, as far as the package uses them

    A slice is its sequence of elements; the capacity given to [make] is not
    observable through [len], [copy], [range] or indexing. *)

Definition make {A} `{Inhabited A} (len cap : nat) : list A :=
  replicate len inhabitant.

(** [copy(dst, src)] copies [min(len(dst), len(src))] elements and returns
    that number; the first component is [dst] after the call. *)
Definition copy {A} (dst src : list A) : list A * nat :=
  let n := min (length dst) (length src) in
  (take n src ++ drop n dst, n).

(** ** Pointer view: element.go, lines 13-92 *)

Module Ptr.

(** A non-nil [*Element]; [option ptr] is a pointer that may be nil. *)
Definition ptr := nat.

Record Element := mkElement {
  Name : xml.Name;
  children : list ptr;
  parent : option ptr;
  Content : string;
  Attributes : list xml.Attr
}.

(** The store: what every pointer points to. *)
Definition Heap := ptr -> Element.

Definition upd (h : Heap) (p : ptr) (f : Element -> Element) : Heap :=
  fun q => if decide (q = p) then f (h p) else h q.

Definition set_children (l : list ptr) (e : Element) : Element :=
  mkElement (Name e) l (parent e) (Content e) (Attributes e).

Definition set_parent (q : option ptr) (e : Element) : Element :=
  mkElement (Name e) (children e) q (Content e) (Attributes e).

Definition add_attr (a : xml.Attr) (e : Element) : Element :=
  mkElement (Name e) (children e) (parent e) (Content e) (Attributes e ++ [a]).

(** [CreateElement] fills the cell it allocates with this value. *)
Definition CreateElement (n : xml.Name) : Element :=
  mkElement n (make 0 5) None "" (make 0 10).

(** The [for i, v := range node.children] loop of [RemoveChild]: the index
    of the first occurrence of [child], counted from [i], or [-1]. *)
Fixpoint search (child : ptr) (l : list ptr) (i : Z) : Z :=
  match l with
  | [] => (-1)%Z
  | v :: l' => if decide (v = child) then i else search child l' (i + 1)%Z
  end.

(** [node.RemoveChild(child)]: the store afterwards and the pointer returned. *)
Definition RemoveChild (h : Heap) (node child : ptr) : Heap * ptr :=
  let p := search child (children (h node)) 0 in
  if decide (p = (-1)%Z) then (h, node)
  else
    let l := children (h node) in
    let moved := fst (copy (drop (Z.to_nat p) l) (drop (Z.to_nat (p + 1)) l)) in
    let l1 := take (Z.to_nat p) l ++ moved in
    let l2 := take (length l1 - 1) l1 in
    let h1 := upd h node (set_children l2) in
    let h2 := upd h1 child (set_parent None) in
    (h2, child).

(** [node.AddChild(child)]. *)
Definition AddChild (h : Heap) (node child : ptr) : Heap :=
  let h1 := match parent (h child) with
            | Some q => fst (RemoveChild h q child)
            | None => h
            end in
  let h2 := upd h1 child (set_parent (Some node)) in
  upd h2 node (fun e => set_children (children e ++ [child]) e).

(** [node.Children()]. *)
Definition Children (h : Heap) (node : ptr) : list ptr :=
  let res : list ptr := make 0 (length (children (h node))) in
  fst (copy res (children (h node))).

Definition Parent (h : Heap) (node : ptr) : option ptr := parent (h node).

Definition AddAttr (h : Heap) (node : ptr) (attr : xml.Attr) : Heap :=
  upd h node (add_attr attr).

Definition SetParent (h : Heap) (node parent : ptr) : Heap * ptr :=
  (AddChild h parent node, node).

(** The parent/children invariant of the data model: [c] is in the children
    of [p] exactly when the parent of [c] is [p], and no children sequence
    lists an element twice. *)
Definition Inv (h : Heap) : Prop :=
  forall p, NoDup (children (h p)) /\
            forall c, c ∈ children (h p) <-> parent (h c) = Some p.

(** A store in which every element is detached and childless. *)
Definition empty_heap : Heap :=
  fun _ => CreateElement (xml.mkName "" "e").

End Ptr.

(** ** Bytes and strings

    A Go [string] or [[]byte] is a sequence of bytes: Rocq's [string]. *)

Definition dquote : string := String "034"%char EmptyString.
Definition nl : string := String "010"%char EmptyString.

(** ** unicode/utf8, unicode and bytes, as far as the package and
    encoding/xml use them

    Bytes are [ascii] values, runes are numbers. *)

Module utf8.


Definition RuneError : N := 65533.
Definition RuneSelf : N := 128.
Definition UTFMax : nat := 4.

(** The byte at index [i], as a number. *)
Definition at_ (p : list ascii) (i : nat) : N :=
  match p !! i with
  | Some c => N_of_ascii c
  | None => 0
  end.

(** The table [first] with [acceptRanges]: for a leading byte, the length of
    the sequence and the range of its second byte; [None] is an invalid
    leading byte. *)
Definition first (p0 : N) : option (nat * N * N) :=
  if (p0 <? 194)%N then None
  else if (p0 <? 224)%N then Some (2, 128%N, 191%N)
  else if (p0 =? 224)%N then Some (3, 160%N, 191%N)
  else if (p0 =? 237)%N then Some (3, 128%N, 159%N)
  else if (p0 <? 240)%N then Some (3, 128%N, 191%N)
  else if (p0 =? 240)%N then Some (4, 144%N, 191%N)
  else if (p0 <? 244)%N then Some (4, 128%N, 191%N)
  else if (p0 =? 244)%N then Some (4, 128%N, 143%N)
  else None.

Definition outside (lo hi b : N) : bool := (b <? lo)%N || (hi <? b)%N.

(** [utf8.DecodeRune(p)]: the rune and its width in bytes. *)
Definition DecodeRune (p : list ascii) : N * nat :=
  match p with
  | [] => (RuneError, 0)
  | c0 :: rest =>
      let p0 := N_of_ascii c0 in
      if (p0 <? RuneSelf)%N then (p0, 1)
      else
        match first p0 with
        | None => (RuneError, 1)
        | Some (sz, lo, hi) =>
            if (length p <? sz)%nat then (RuneError, 1)
            else
              match rest with
              | [] => (RuneError, 1)
              | c1 :: rest1 =>
                  let b1 := N_of_ascii c1 in
                  if outside lo hi b1 then (RuneError, 1)
                  else if (sz <=? 2)%nat
                  then (N.lor (N.shiftl (N.land p0 31) 6) (N.land b1 63), 2)
                  else
                    match rest1 with
                    | [] => (RuneError, 1)
                    | c2 :: rest2 =>
                        let b2 := N_of_ascii c2 in
                        if outside 128 191 b2 then (RuneError, 1)
                        else if (sz <=? 3)%nat
                        then (N.lor (N.lor (N.shiftl (N.land p0 15) 12)
                                           (N.shiftl (N.land b1 63) 6))
                                    (N.land b2 63), 3)
                        else
                          match rest2 with
                          | [] => (RuneError, 1)
                          | c3 :: _ =>
                              let b3 := N_of_ascii c3 in
                              if outside 128 191 b3 then (RuneError, 1)
                              else (N.lor (N.lor (N.lor (N.shiftl (N.land p0 7) 18)
                                                        (N.shiftl (N.land b1 63) 12))
                                                 (N.shiftl (N.land b2 63) 6))
                                          (N.land b3 63), 4)
                          end
                    end
              end
        end
  end.

(** [utf8.RuneStart(b)]: [b] is not a continuation byte. *)
Definition RuneStart (b : N) : bool := negb (N.land b 192 =? 128)%N.

(** The loop of [DecodeLastRune] that looks for the first byte of the last
    rune: [for start--; start >= lim; start--], at most [n] iterations. *)
Fixpoint last_start (p : list ascii) (n : nat) (start lim : Z) : Z :=
  match n with
  | 0 => start
  | S n' =>
      if (start <? lim)%Z then start
      else if RuneStart (at_ p (Z.to_nat start)) then start
      else last_start p n' (start - 1)%Z lim
  end.

(** [utf8.DecodeLastRune(p)]. *)
Definition DecodeLastRune (p : list ascii) : N * nat :=
  let end_ := length p in
  if (end_ =? 0)%nat then (RuneError, 0)
  else
    let start := (Z.of_nat end_ - 1)%Z in
    let r := at_ p (Z.to_nat start) in
    if (r <? RuneSelf)%N then (r, 1)
    else
      let lim := (Z.of_nat end_ - Z.of_nat UTFMax)%Z in
      let lim := if (lim <? 0)%Z then 0%Z else lim in
      let start := last_start p UTFMax (start - 1)%Z lim in
      let start := if (start <? 0)%Z then 0%Z else start in
      let '(r, size) := DecodeRune (drop (Z.to_nat start) p) in
      if bool_decide ((start + Z.of_nat size)%Z = Z.of_nat end_) then (r, size)
      else (RuneError, 1).

End utf8.

Module unicode.

(** [unicode.IsSpace(r)]: the Latin-1 white space and the other characters
    of the property White_Space. *)
Definition IsSpace (r : N) : bool :=
  if (r <=? 255)%N
  then (r =? 9)%N || (r =? 10)%N || (r =? 11)%N || (r =? 12)%N || (r =? 13)%N ||
       (r =? 32)%N || (r =? 133)%N || (r =? 160)%N
  else (r =? 5760)%N || ((8192 <=? r)%N && (r <=? 8202)%N) ||
       (r =? 8232)%N || (r =? 8233)%N || (r =? 8239)%N || (r =? 8287)%N ||
       (r =? 12288)%N.

End unicode.

Module bytes.

(** The loop of [indexFunc(s, f, truth)] from index [start]; [fuel] bounds
    the number of iterations, each of which moves [start] forward. *)
Fixpoint indexFunc_from (s : list ascii) (f : N -> bool) (truth : bool)
    (fuel start : nat) : Z :=
  match fuel with
  | 0 => (-1)%Z
  | S fuel' =>
      if (length s <=? start)%nat then (-1)%Z
      else
        let '(r, wid) :=
          let r := utf8.at_ s start in
          if (r <? utf8.RuneSelf)%N then (r, 1)
          else utf8.DecodeRune (drop start s) in
        if Bool.eqb (f r) truth then Z.of_nat start
        else indexFunc_from s f truth fuel' (start + wid)
  end.

Definition indexFunc (s : list ascii) (f : N -> bool) (truth : bool) : Z :=
  indexFunc_from s f truth (length s) 0.

(** The loop of [lastIndexFunc(s, f, truth)] from index [i]. *)
Fixpoint lastIndexFunc_from (s : list ascii) (f : N -> bool) (truth : bool)
    (fuel i : nat) : Z :=
  match fuel with
  | 0 => (-1)%Z
  | S fuel' =>
      if (i =? 0)%nat then (-1)%Z
      else
        let '(r, size) :=
          let r := utf8.at_ s (i - 1) in
          if (r <? utf8.RuneSelf)%N then (r, 1)
          else utf8.DecodeLastRune (take i s) in
        let i := i - size in
        if Bool.eqb (f r) truth then Z.of_nat i
        else lastIndexFunc_from s f truth fuel' i
  end.

Definition lastIndexFunc (s : list ascii) (f : N -> bool) (truth : bool) : Z :=
  lastIndexFunc_from s f truth (length s) (length s).

Definition TrimLeftFunc (s : list ascii) (f : N -> bool) : list ascii :=
  let i := indexFunc s f false in
  if (i =? -1)%Z then [] else drop (Z.to_nat i) s.

Definition TrimRightFunc (s : list ascii) (f : N -> bool) : list ascii :=
  let i := lastIndexFunc s f false in
  let i := if (0 <=? i)%Z && (utf8.RuneSelf <=? utf8.at_ s (Z.to_nat i))%N
           then (i + Z.of_nat (snd (utf8.DecodeRune (drop (Z.to_nat i) s))))%Z
           else (i + 1)%Z in
  take (Z.to_nat i) s.

Definition TrimFunc (s : list ascii) (f : N -> bool) : list ascii :=
  TrimRightFunc (TrimLeftFunc s f) f.

End bytes.

(** The rune and the width that the loop of [indexFunc] reads at index
    [start], and the loop of [lastIndexFunc] before index [i]. *)
Definition rune_at (s : list ascii) (start : nat) : N * nat :=
  let r := utf8.at_ s start in
  if (r <? utf8.RuneSelf)%N then (r, 1) else utf8.DecodeRune (drop start s).

Definition rune_before (s : list ascii) (i : nat) : N * nat :=
  let r := utf8.at_ s (i - 1) in
  if (r <? utf8.RuneSelf)%N then (r, 1) else utf8.DecodeLastRune (take i s).

(** The index [i] is the end of [s] or holds no continuation byte. *)
Definition boundary (s : list ascii) (i : nat) : Prop :=
  length s <= i \/ utf8.outside 128 191 (utf8.at_ s i) = true.

(** A byte below 128 that is white space. *)
Definition ascii_space (c : ascii) : Prop :=
  (N_of_ascii c < 128)%N /\ unicode.IsSpace (N_of_ascii c) = true.

(** [bytes.TrimSpace]: the white space, as defined by Unicode, is cut off
    at both ends.  Recent releases scan the ASCII white space at both ends
    first and call [TrimFunc] on what is left when they meet a byte above
    127; the slice returned is the same. *)
Definition TrimSpace (s : string) : string :=
  String.string_of_list_ascii
    (bytes.TrimFunc (String.list_ascii_of_string s) unicode.IsSpace).

(** [isInCharacterRange] of encoding/xml: the characters of XML. *)
Definition isInCharacterRange (r : N) : bool :=
  (r =? 9)%N || (r =? 10)%N || (r =? 13)%N ||
  ((32 <=? r)%N && (r <=? 55295)%N) ||
  ((57344 <=? r)%N && (r <=? 65533)%N) ||
  ((65536 <=? r)%N && (r <=? 1114111)%N).

(** U+FFFD in UTF-8. *)
Definition escFFFD : string :=
  String "239"%char (String "191"%char (String "189"%char EmptyString)).

(** What [xml.EscapeText] writes for the rune [r] read from the [width]
    bytes [raw]: one of the eight references, U+FFFD for a character that
    XML forbids and for a byte that is not UTF-8, and the bytes themselves
    otherwise. *)
Definition escapeRune (r : N) (width : nat) (raw : list ascii) : string :=
  if (r =? 34)%N then "&#34;"
  else if (r =? 39)%N then "&#39;"
  else if (r =? 38)%N then "&amp;"
  else if (r =? 60)%N then "&lt;"
  else if (r =? 62)%N then "&gt;"
  else if (r =? 9)%N then "&#x9;"
  else if (r =? 10)%N then "&#xA;"
  else if (r =? 13)%N then "&#xD;"
  else if negb (isInCharacterRange r) || ((r =? utf8.RuneError)%N && (width =? 1)%nat)
       then escFFFD
  else String.string_of_list_ascii raw.

(** The loop of [xml.EscapeText], one rune at a time; [fuel] bounds the
    number of runes by the number of bytes. *)
Fixpoint EscapeText_from (fuel : nat) (s : list ascii) : string :=
  match fuel with
  | 0 => EmptyString
  | S fuel' =>
      match s with
      | [] => EmptyString
      | _ :: _ =>
          let '(r, width) := utf8.DecodeRune s in
          escapeRune r width (take width s) +:+ EscapeText_from fuel' (drop width s)
      end
  end.

Definition EscapeText (s : string) : string :=
  EscapeText_from (String.length s) (String.list_ascii_of_string s).

(** The escaping of a text of one byte. *)
Definition escapeByte (c : ascii) : string := EscapeText (String c EmptyString).

(** A byte below 128. *)
Definition isASCII (c : ascii) : bool := (N_of_ascii c <? 128)%N.

(** The ASCII white space: tab, line feed, vertical tab, form feed,
    carriage return and blank (the table [asciiSpace] of package bytes). *)
Definition isSpace (c : ascii) : bool :=
  bool_decide (c = "009"%char \/ c = "010"%char \/ c = "011"%char \/
               c = "012"%char \/ c = "013"%char \/ c = " "%char).

Fixpoint trimLeft (s : string) : string :=
  match s with
  | EmptyString => EmptyString
  | String c s' => if isSpace c then trimLeft s' else s
  end.

Fixpoint trimRight (s : string) : string :=
  match s with
  | EmptyString => EmptyString
  | String c s' =>
      match trimRight s' with
      | EmptyString => if isSpace c then EmptyString else String c EmptyString
      | t => String c t
      end
  end.

(** The text without the ASCII white space at its ends: what [TrimSpace]
    returns for ASCII text ([TrimSpace_ascii]). *)
Definition trimBlanks (s : string) : string := trimRight (trimLeft s).

Definition starts_with_space (s : string) : bool :=
  match s with
  | EmptyString => false
  | String c _ => isSpace c
  end.

Fixpoint ends_with_space (s : string) : bool :=
  match s with
  | EmptyString => false
  | String c EmptyString => isSpace c
  | String _ s' => ends_with_space s'
  end.

(** Neither the first nor the last byte of [s] is white space. *)
Definition is_trimmed (s : string) : bool :=
  negb (starts_with_space s) && negb (ends_with_space s).

(** Every byte of [s] satisfies [p]. *)
Fixpoint all_bytes (p : ascii -> bool) (s : string) : bool :=
  match s with
  | EmptyString => true
  | String c s' => p c && all_bytes p s'
  end.

(** ** Value view: an element with its subtree *)

Local Unset Elimination Schemes.
Inductive Element := mkElement {
  Name : xml.Name;
  children : list Element;
  Content : string;
  Attributes : list xml.Attr
}.
Local Set Elimination Schemes.

#[global] Instance Element_inhabited : Inhabited Element :=
  populate (mkElement inhabitant [] EmptyString []).

Definition CreateElement (n : xml.Name) : Element :=
  mkElement n (make 0 5) EmptyString (make 0 10).

Definition ElementN (n : string) : Element :=
  CreateElement (xml.mkName EmptyString n).

Definition AddAttr (node : Element) (attr : xml.Attr) : Element :=
  mkElement (Name node) (children node) (Content node) (Attributes node ++ [attr]).

(** [node.AddChild(child)] for a [child] that has no parent yet, which is how
    the parser calls it, on the element [parseElement] has just returned: the
    reparenting branch of [Ptr.AddChild] is not taken and the child is
    appended ([AddChild_detached]). *)
Definition AddChild (node child : Element) : Element :=
  mkElement (Name node) (children node ++ [child]) (Content node) (Attributes node).

Definition setContent (content : string) (node : Element) : Element :=
  mkElement (Name node) (children node) content (Attributes node).

(** ** The encoder *)

(** Modelled from the spec: the [Encoder] struct and its methods
    ([NewEncoder], [Pretty], [spaces], [prettyEnd], [addNamespace],
    [WriteString], [Flush]) are declared in a file of the package whose
    source is not available; element.go only uses them.  The fields are
    those element.go reads and writes: the two maps, [depth], [started] and
    [pretty]; [out] is what has been written to the byte sink, which is an
    in-memory buffer that accepts every write.  [depth] is the number of
    open elements, a natural number: the Go [int] does not overflow on a
    tree that fits in memory. *)
Record Encoder := mkEncoder {
  out : string;
  nsPrefixMap : gmap string string;
  nsURLMap : gmap string string;
  depth : nat;
  started : bool;
  pretty : bool
}.

(** Modelled from the spec: [NewEncoder] gives the encoder of a fresh
    serialization call, with nothing discovered, nothing declared, depth 0
    and compact mode. *)
Definition NewEncoder : Encoder :=
  mkEncoder EmptyString ∅ ∅ 0 false false.

(** Modelled from the spec: [Pretty] selects pretty mode. *)
Definition Pretty (e : Encoder) : Encoder :=
  mkEncoder (out e) (nsPrefixMap e) (nsURLMap e) (depth e) (started e) true.

(** Modelled from the spec: a write to the byte sink, [e.WriteString(s)] or
    [fmt.Fprintf(e, ...)] with the formatted text [s]. *)
Definition WriteString (s : string) (e : Encoder) : Encoder :=
  mkEncoder (out e +:+ s) (nsPrefixMap e) (nsURLMap e) (depth e) (started e) (pretty e).

(** The assignments [e.started = b] and [e.depth = d], and the insertion of
    a binding in the two maps. *)
Definition set_started (b : bool) (e : Encoder) : Encoder :=
  mkEncoder (out e) (nsPrefixMap e) (nsURLMap e) (depth e) b (pretty e).

Definition set_depth (d : nat) (e : Encoder) : Encoder :=
  mkEncoder (out e) (nsPrefixMap e) (nsURLMap e) d (started e) (pretty e).

Definition bind_prefix (ns prefix : string) (e : Encoder) : Encoder :=
  mkEncoder (out e) (<[prefix := ns]> (nsPrefixMap e)) (<[ns := prefix]> (nsURLMap e))
            (depth e) (started e) (pretty e).

(** Modelled from the spec: indentation for the current depth, written in
    pretty mode only.  The width of one level is not fixed by the
    specification; one blank is used. *)
Fixpoint indent (d : nat) : string :=
  match d with
  | 0 => EmptyString
  | S d' => " " +:+ indent d'
  end.

Definition spaces (e : Encoder) : Encoder :=
  if pretty e then WriteString (indent (depth e)) e else e.

(** Modelled from the spec: a newline in pretty mode. *)
Definition prettyEnd (e : Encoder) : Encoder :=
  if pretty e then WriteString nl e else e.

(** Modelled from the spec: [addNamespace(ns, prefix)] registers the URI [ns].
    An unqualified name has no URI, so the empty string registers nothing;
    a URI that already has a prefix keeps it (first registration wins); a new
    URI is bound to the requested prefix, or to a fabricated unused one
    ([ns], [ns0], [ns1], ...) when none is requested. *)
Definition addNamespace (ns prefix : string) (e : Encoder) : Encoder :=
  if decide (ns = EmptyString) then e
  else match nsURLMap e !! ns with
       | Some _ => e
       | None =>
           if decide (prefix = EmptyString)
           then bind_prefix ns (fresh_string "ns" (nsPrefixMap e)) e
           else bind_prefix ns prefix e
       end.

(** [node.addNamespaces(encoder)], element.go lines 94-110. *)
Fixpoint addNamespaces (node : Element) (encoder : Encoder) : Encoder :=
  let encoder :=
    fold_left (fun e a =>
                 if decide (xml.Space (xml.AName a) = "xmlns")
                 then addNamespace (xml.Value a) (xml.Local (xml.AName a)) e
                 else e)
              (Attributes node) encoder in
  let encoder := addNamespace (xml.Space (Name node)) EmptyString encoder in
  let encoder :=
    fold_left (fun e a => addNamespace (xml.Space (xml.AName a)) EmptyString e)
              (Attributes node) encoder in
  fold_left (fun e c => addNamespaces c e) (children node) encoder.

(** [namespacedName(e, name)], element.go lines 112-124; [None] is the
    [log.Panicf] of the missing-prefix branch. *)
Definition namespacedName (e : Encoder) (name : xml.Name) : option string :=
  if decide (xml.Space name = EmptyString) then Some (xml.Local name)
  else if decide (xml.Space name = "xmlns")
       then Some (xml.Space name +:+ ":" +:+ xml.Local name)
       else match nsURLMap e !! xml.Space name with
            | Some prefix => Some (prefix +:+ ":" +:+ xml.Local name)
            | None => None
            end.

(** The body of the attribute loop of [Encode], lines 142-150. *)
Definition encodeAttr (e : Encoder) (a : xml.Attr) : option Encoder :=
  if decide (xml.Space (xml.AName a) = "xmlns") then Some e
  else n ← namespacedName e (xml.AName a);
       Some (WriteString (" " +:+ n +:+ "=" +:+ dquote +:+ xml.Value a +:+ dquote) e).

Fixpoint encodeAttrs (e : Encoder) (l : list xml.Attr) : option Encoder :=
  match l with
  | [] => Some e
  | a :: l' => e' ← encodeAttr e a; encodeAttrs e' l'
  end.

(** The body of the declaration loop, lines 152-157. *)
Definition encodeDecl (e : Encoder) (d : string * string) : Encoder :=
  WriteString (" xmlns:" +:+ d.1 +:+ "=" +:+ dquote +:+ d.2 +:+ dquote) e.

(** An iteration order for [range] over a map: Go leaves the order of the
    entries unspecified and may change it from one loop to the next.  A
    serialization call runs one such loop; its order is the parameter
    [ord] of [Encode]. *)
Definition MapOrder := gmap string string -> list (string * string).

Definition valid_order (ord : MapOrder) : Prop :=
  forall m, ord m ≡ₚ map_to_list m.

(** A [for _, c := range l] loop whose body [f c] may panic. *)
Fixpoint each {A} (f : A -> Encoder -> option Encoder) (l : list A) (e : Encoder)
  : option Encoder :=
  match l with
  | [] => Some e
  | c :: l' => e' ← f c e; each f l' e'
  end.

(** [node.Encode(e)], element.go lines 127-194.  [None] is a panic; the
    [error] result is always nil, the sink being a buffer. *)
Fixpoint Encode (ord : MapOrder) (node : Element) (e : Encoder) : option Encoder :=
  let writeNamespaces := negb (started e) in
  let e := if writeNamespaces then set_started true (addNamespaces node e) else e in
  let e := spaces e in
  n ← namespacedName e (Name node);
  let e := WriteString ("<" +:+ n) e in
  e ← encodeAttrs e (Attributes node);
  let e := if writeNamespaces
           then fold_left encodeDecl (ord (nsPrefixMap e)) e
           else e in
  if bool_decide (length (children node) = 0 /\ String.length (Content node) = 0)
  then Some (WriteString (if pretty e then "/>" +:+ nl else "/>") e)
  else
    let e := WriteString ">" e in
    let e := if bool_decide (0 < String.length (Content node))
             then WriteString (EscapeText (Content node)) e
             else e in
    e ← (if bool_decide (0 < length (children node))
         then
           let e := set_depth (S (depth e)) e in
           let e := prettyEnd e in
           e ← each (Encode ord) (children node) e;
           let e := set_depth (pred (depth e)) e in
           Some (spaces e)
         else Some e);
    n ← namespacedName e (Name node);
    Some (prettyEnd (WriteString ("</" +:+ n +:+ ">") e)).

(** [node.Bytes()] and [node.String()]: a fresh encoder in pretty mode. *)
Definition Bytes (ord : MapOrder) (node : Element) : option string :=
  let encoder := Pretty NewEncoder in
  e ← Encode ord node encoder;
  Some (out e).

(** [String] is a constructor of strings in Rocq, hence the name. *)
Definition String_ (ord : MapOrder) (node : Element) : option string :=
  Bytes ord node.

(** *** The text of an element

    What [Encode] writes, as a function of the URI-to-prefix map [um], the
    pretty flag [pr], the depth [d] and the text [decls] of the namespace
    declarations of the opening tag. *)

Definition qname (um : gmap string string) (name : xml.Name) : string :=
  if decide (xml.Space name = EmptyString) then xml.Local name
  else if decide (xml.Space name = "xmlns") then "xmlns:" +:+ xml.Local name
  else default EmptyString (um !! xml.Space name) +:+ ":" +:+ xml.Local name.

(** The names [namespacedName] can render with the map [um]. *)
Definition covered (um : gmap string string) (name : xml.Name) : Prop :=
  xml.Space name = EmptyString \/ xml.Space name = "xmlns" \/
  is_Some (um !! xml.Space name).

Definition attrText (um : gmap string string) (a : xml.Attr) : string :=
  if decide (xml.Space (xml.AName a) = "xmlns") then EmptyString
  else " " +:+ qname um (xml.AName a) +:+ "=" +:+ dquote +:+ xml.Value a +:+ dquote.

Fixpoint concat_strings (l : list string) : string :=
  match l with
  | [] => EmptyString
  | s :: l' => s +:+ concat_strings l'
  end.

Definition attrsText (um : gmap string string) (l : list xml.Attr) : string :=
  concat_strings (map (attrText um) l).

Definition declText (d : string * string) : string :=
  " xmlns:" +:+ d.1 +:+ "=" +:+ dquote +:+ d.2 +:+ dquote.

Definition declsText (l : list (string * string)) : string :=
  concat_strings (map declText l).

Definition ind (pr : bool) (d : nat) : string :=
  if pr then indent d else EmptyString.

Definition eol (pr : bool) : string := if pr then nl else EmptyString.

(** The opening tag up to and including the element's own attributes. *)
Definition opening (um : gmap string string) (pr : bool) (d : nat) (node : Element)
  : string :=
  ind pr d +:+ "<" +:+ qname um (Name node) +:+ attrsText um (Attributes node).

(** The rest of the element after the declarations; nested elements are
    written without declarations. *)
Fixpoint closing (um : gmap string string) (pr : bool) (d : nat) (node : Element)
  : string :=
  if bool_decide (length (children node) = 0 /\ String.length (Content node) = 0)
  then "/>" +:+ eol pr
  else
    ">" +:+
    (if bool_decide (0 < String.length (Content node))
     then EscapeText (Content node) else EmptyString) +:+
    (if bool_decide (0 < length (children node))
     then eol pr +:+
          concat_strings
            (map (fun c => opening um pr (S d) c +:+ closing um pr (S d) c)
                 (children node)) +:+
          ind pr d
     else EmptyString) +:+
    "</" +:+ qname um (Name node) +:+ ">" +:+ eol pr.

Definition markup (um : gmap string string) (pr : bool) (d : nat)
    (decls : string) (node : Element) : string :=
  opening um pr d node +:+ decls +:+ closing um pr d node.

(** The names [Encode] renders in the subtree of [node]: element names and
    the names of the attributes that are not in the ["xmlns"] space. *)
Fixpoint rendered_names (node : Element) : list xml.Name :=
  Name node ::
  map xml.AName
      (filter (fun a => xml.Space (xml.AName a) <> "xmlns") (Attributes node)) ++
  concat (map rendered_names (children node)).

(** The encoder after namespace discovery on [node], as [Encode] computes
    it when [e] has not started. *)
Definition discovered (node : Element) (e : Encoder) : Encoder :=
  set_started true (addNamespaces node e).

(** [Encode] after its first four lines ([Encode_eq_rest]): [e] is the
    encoder on which discovery has run if it had to, and [writeNamespaces]
    the flag. *)
Definition Encode_rest (ord : MapOrder) (node : Element) (writeNamespaces : bool)
    (e : Encoder) : option Encoder :=
  let e := spaces e in
  n ← namespacedName e (Name node);
  let e := WriteString ("<" +:+ n) e in
  e ← encodeAttrs e (Attributes node);
  let e := if writeNamespaces
           then fold_left encodeDecl (ord (nsPrefixMap e)) e
           else e in
  if bool_decide (length (children node) = 0 /\ String.length (Content node) = 0)
  then Some (WriteString (if pretty e then "/>" +:+ nl else "/>") e)
  else
    let e := WriteString ">" e in
    let e := if bool_decide (0 < String.length (Content node))
             then WriteString (EscapeText (Content node)) e
             else e in
    e ← (if bool_decide (0 < length (children node))
         then
           let e := set_depth (S (depth e)) e in
           let e := prettyEnd e in
           e ← each (Encode ord) (children node) e;
           let e := set_depth (pred (depth e)) e in
           Some (spaces e)
         else Some e);
    n ← namespacedName e (Name node);
    Some (prettyEnd (WriteString ("</" +:+ n +:+ ">") e)).

(** What [Encode] does on an encoder that has started. *)
Definition Encode_spec (ord : MapOrder) (node : Element) : Prop :=
  forall e, started e = true ->
    Forall (covered (nsURLMap e)) (rendered_names node) ->
    Encode ord node e =
    Some (WriteString (markup (nsURLMap e) (pretty e) (depth e) EmptyString node) e).

(** Properties of the encoder that every registration keeps. *)
Definition kept (e e' : Encoder) : Prop :=
  out e' = out e /\ depth e' = depth e /\ started e' = started e /\
  pretty e' = pretty e /\
  forall u, is_Some (nsURLMap e !! u) -> is_Some (nsURLMap e' !! u).

(** The attribute [a] is a namespace declaration [xmlns:prefix]. *)
Definition in_xmlns (a : xml.Attr) : Prop := xml.Space (xml.AName a) = "xmlns".

(** No attribute of the subtree is in the ["xmlns"] space. *)
Fixpoint no_xmlns_attrs (node : Element) : bool :=
  forallb (fun a => bool_decide (xml.Space (xml.AName a) <> "xmlns")) (Attributes node) &&
  forallb no_xmlns_attrs (children node).

(** The only attribute of the tree in the ["xmlns"] space is
    [xmlns:p="u"], on the root. *)
Definition declares_only (node : Element) (p u : string) : Prop :=
  filter in_xmlns (Attributes node) = [xml.mkAttr (xml.mkName "xmlns" p) u] /\
  forallb no_xmlns_attrs (children node) = true.

(** The prefix [p] and the URI [u] are bound to each other. *)
Definition bound (p u : string) (e : Encoder) : Prop :=
  nsURLMap e !! u = Some p /\ nsPrefixMap e !! p = Some u.

(** The registrations that discovery asks for in the subtree of [node], in
    the order of [addNamespaces]: the URI and the prefix requested, the
    empty string where none is. *)
Fixpoint requests (node : Element) : list (string * string) :=
  map (fun a => (xml.Value a, xml.Local (xml.AName a)))
      (filter in_xmlns (Attributes node)) ++
  (xml.Space (Name node), EmptyString) ::
  map (fun a => (xml.Space (xml.AName a), EmptyString)) (Attributes node) ++
  flat_map requests (children node).

Definition register (e : Encoder) (r : string * string) : Encoder :=
  addNamespace r.1 r.2 e.

(** The two maps of the encoder hold the same bindings. *)
Definition in_step (e : Encoder) : Prop :=
  forall u p, nsURLMap e !! u = Some p <-> nsPrefixMap e !! p = Some u.

(** The request binds a new URI to a prefix that is bound already. *)
Definition rebinds (e : Encoder) (r : string * string) : bool :=
  bool_decide (r.1 <> EmptyString /\ nsURLMap e !! r.1 = None /\
               r.2 <> EmptyString /\ is_Some (nsPrefixMap e !! r.2)).

(** No request of the list, made in order from [e], rebinds a prefix. *)
Fixpoint clash_free (rs : list (string * string)) (e : Encoder) : bool :=
  match rs with
  | [] => true
  | r :: rs' => negb (rebinds e r) && clash_free rs' (register e r)
  end.

(** The request binds a new URI to the prefix [p]. *)
Definition takes (p : string) (e : Encoder) (r : string * string) : bool :=
  bool_decide (r.1 <> EmptyString /\ nsURLMap e !! r.1 = None /\ r.2 = p).

(** No request of the list, made in order from [e], binds [p]. *)
Fixpoint keeps_prefix (p : string) (rs : list (string * string)) (e : Encoder) : bool :=
  match rs with
  | [] => true
  | r :: rs' => negb (takes p e r) && keeps_prefix p rs' (register e r)
  end.

(** The attributes of the subtree, and the names of the elements below
    [node]. *)
Fixpoint all_attributes (node : Element) : list xml.Attr :=
  Attributes node ++ flat_map all_attributes (children node).

Fixpoint element_names (node : Element) : list xml.Name :=
  Name node :: flat_map element_names (children node).

Definition descendant_names (node : Element) : list xml.Name :=
  flat_map element_names (children node).

(** ** The token stream *)

(** [xml.Token]: the values [Decoder.Token] yields. *)
Inductive Token :=
| StartElement (name : xml.Name) (attr : list xml.Attr)
| EndElement (name : xml.Name)
| CharData (data : string)
| Comment (data : string)
| ProcInst (target inst : string)
| Directive (data : string).

(** Go [error] values met by the parser: [io.EOF], an error of the token
    source, and a value made by [errors.New]. *)
Inductive error :=
| io_EOF
| SyntaxError (msg : string)
| errors_New (msg : string).

#[global] Instance error_eq_dec : EqDecision error.
Proof. solve_decision. Defined.

(** An [*xml.Decoder] as the parser sees it: the tokens it still has to
    deliver, and the error it returns from then on. *)
Record Decoder := mkDecoder { pending : list Token; final : error }.

(** [decoder.Token()]: a token and the advanced decoder, or the error. *)
Definition Token_ (decoder : Decoder) : (Token * Decoder) + error :=
  match pending decoder with
  | tok :: rest => inl (tok, mkDecoder rest (final decoder))
  | [] => inr (final decoder)
  end.

Definition TooManyRootElements : string :=
  "More than one root Element not allowed!".

(** *** The decoder on bytes

    [xml.NewDecoder(r)] with [Strict = true], of encoding/xml, on a fragment
    of XML that contains what the encoder writes: start-tags with quoted
    attribute values, empty-element tags, end-tags, and character data with
    the predefined and numeric character references, all in ASCII and
    without namespace prefixes.  The decoder is a scanner over the bytes;
    here it is the automaton [step], run over the whole input, and the
    tokens it has emitted when the input ends.

    Input outside the fragment puts the automaton in mode [Unsupported], and
    [NewDecoder] then gives [None]: nothing is claimed about such input.
    That covers prefixed names and [xmlns] attributes, comments, processing
    instructions, directives and CDATA, bytes above 127, a raw carriage
    return, a raw [>] in character data, characters that XML forbids, and
    character references that are malformed, unknown or to a character that
    is forbidden or above 127 (the decoder reports these with the offending
    text, at the end of the character data).  The syntax errors of the
    fragment carry the message of encoding/xml. *)

Definition in_range (lo hi : nat) (c : ascii) : bool :=
  bool_decide (lo <= nat_of_ascii c <= hi).

Definition isLetter (c : ascii) : bool := in_range 65 90 c || in_range 97 122 c.
Definition isDigit (c : ascii) : bool := in_range 48 57 c.

(** The ASCII bytes of [isNameByte] other than the colon, and those that
    may start a name. *)
Definition isNameStart (c : ascii) : bool :=
  isLetter c || bool_decide (c = "_"%char).

Definition isNameByte (c : ascii) : bool :=
  isNameStart c || isDigit c || bool_decide (c = "."%char) || bool_decide (c = "-"%char).

(** The blanks [Decoder.space] skips inside tags. *)
Definition isTagSpace (c : ascii) : bool :=
  bool_decide (c = " "%char \/ c = "013"%char \/ c = "010"%char \/ c = "009"%char).

Definition isHigh (c : ascii) : bool := bool_decide (128 <= nat_of_ascii c).

(** ASCII characters of the XML character range. *)
Definition isXMLChar (c : ascii) : bool :=
  bool_decide (c = "009"%char \/ c = "010"%char \/ c = "013"%char) || in_range 32 127 c.

Inductive LexMode :=
| InText (acc : string)
| InEntity (acc ent : string)
| TagOpen
| InStartName (n : string)
| InEndName (n : string)
| AfterEndName (n : string)
| InTag (n : string) (attrs : list xml.Attr)
| InAttrName (n : string) (attrs : list xml.Attr) (an : string)
| AfterAttrName (n : string) (attrs : list xml.Attr) (an : string)
| AfterEq (n : string) (attrs : list xml.Attr) (an : string)
| InAttrValue (n : string) (attrs : list xml.Attr) (an : string) (q : ascii) (v : string)
| InAttrEntity (n : string) (attrs : list xml.Attr) (an : string) (q : ascii) (v ent : string)
| SelfClose (n : string) (attrs : list xml.Attr)
| InBadName (n : string)
| Failed (msg : string)
| Unsupported.

(** The scanner: the tokens emitted so far, the names of the open elements
    (innermost first), and where in the input syntax it is. *)
Record Lexer := mkLexer {
  emitted : list Token;
  open_tags : list string;
  mode : LexMode
}.

Definition snoc (s : string) (c : ascii) : string := s +:+ String c EmptyString.

Definition plain (n : string) : xml.Name := xml.mkName EmptyString n.

Definition emit_text (acc : string) (toks : list Token) : list Token :=
  if decide (acc = EmptyString) then toks else toks ++ [CharData acc].

(** The number written by the digits [s] in base [base]. *)
Fixpoint digits_value (base : N) (s : string) (acc : N) : option N :=
  match s with
  | EmptyString => Some acc
  | String c s' =>
      let n := N_of_ascii c in
      let v := if isDigit c then Some (n - 48)%N
               else if in_range 97 102 c then Some (n - 87)%N
               else if in_range 65 70 c then Some (n - 55)%N
               else None in
      match v with
      | Some d =>
          if bool_decide (d < base)%N
          then digits_value base s' (acc * base + d)%N
          else None
      | None => None
      end
  end.

(** The ASCII character of XML that the reference [&ent;] stands for.
    [None] is every other reference: a malformed or unknown one, one to a
    character that XML forbids, and one to a character above 127; these are
    outside the fragment. *)
Definition decodeEntity (ent : string) : option ascii :=
  let of_code (o : option N) : option ascii :=
    match o with
    | Some n =>
        if bool_decide (128 <= n)%N then None
        else if isXMLChar (ascii_of_N n) then Some (ascii_of_N n)
        else None
    | None => None
    end in
  match ent with
  | "lt" => Some "<"%char
  | "gt" => Some ">"%char
  | "amp" => Some "&"%char
  | "apos" => Some "039"%char
  | "quot" => Some "034"%char
  | String "#" (String "x" (String c s')) => of_code (digits_value 16 (String c s') 0)
  | String "#" (String c s') => of_code (digits_value 10 (String c s') 0)
  | _ => None
  end.

(** A byte of character data or of an attribute value that is neither a
    delimiter nor the start of a reference. *)
Definition text_byte (c : ascii) (k : LexMode) : LexMode :=
  if bool_decide (c = "013"%char) || isHigh c then Unsupported
  else if isXMLChar c then k
  else Unsupported.

(** A byte inside a start-tag, after the name or after an attribute. *)
Definition in_tag (toks : list Token) (stk : list string)
    (n : string) (attrs : list xml.Attr) (c : ascii) : Lexer :=
  if isTagSpace c then mkLexer toks stk (InTag n attrs)
  else if bool_decide (c = "/"%char) then mkLexer toks stk (SelfClose n attrs)
  else if bool_decide (c = ">"%char)
  then mkLexer (toks ++ [StartElement (plain n) attrs]) (n :: stk) (InText EmptyString)
  else if isNameStart c then mkLexer toks stk (InAttrName n attrs (String c EmptyString))
  else if isNameByte c then mkLexer toks stk (InBadName (String c EmptyString))
  else if bool_decide (c = ":"%char) || isHigh c then mkLexer toks stk Unsupported
  else mkLexer toks stk (Failed "expected attribute name in element").

(** The [>] of an end-tag: the name must be that of the innermost open
    element. *)
Definition close_tag (toks : list Token) (stk : list string) (n : string) : Lexer :=
  match stk with
  | top :: rest =>
      if decide (top = n)
      then mkLexer (toks ++ [EndElement (plain n)]) rest (InText EmptyString)
      else mkLexer toks stk
             (Failed ("element <" +:+ top +:+ "> closed by </" +:+ n +:+ ">"))
  | [] => mkLexer toks stk (Failed ("unexpected end element </" +:+ n +:+ ">"))
  end.

Definition after_end_name (toks : list Token) (stk : list string)
    (n : string) (c : ascii) : Lexer :=
  if isTagSpace c then mkLexer toks stk (AfterEndName n)
  else if bool_decide (c = ">"%char) then close_tag toks stk n
  else mkLexer toks stk (Failed ("invalid characters between </" +:+ n +:+ " and >")).

Definition after_attr_name (toks : list Token) (stk : list string)
    (n : string) (attrs : list xml.Attr) (an : string) (c : ascii) : Lexer :=
  if isTagSpace c then mkLexer toks stk (AfterAttrName n attrs an)
  else if bool_decide (c = "="%char)
  then if decide (an = "xmlns") then mkLexer toks stk Unsupported
       else mkLexer toks stk (AfterEq n attrs an)
  else mkLexer toks stk (Failed "attribute name without = in element").

Definition entity_byte (ent : string) (c : ascii)
    (more : string -> LexMode) (done : ascii -> LexMode) : LexMode :=
  if bool_decide (c = ";"%char)
  then match decodeEntity ent with
       | Some x => done x
       | None => Unsupported
       end
  else if isNameByte c || bool_decide (c = "#"%char) then more (snoc ent c)
  else Unsupported.

Definition step (lx : Lexer) (c : ascii) : Lexer :=
  let toks := emitted lx in
  let stk := open_tags lx in
  match mode lx with
  | Unsupported | Failed _ => lx
  | InText acc =>
      if bool_decide (c = "<"%char) then mkLexer (emit_text acc toks) stk TagOpen
      else if bool_decide (c = "&"%char) then mkLexer toks stk (InEntity acc EmptyString)
      else if bool_decide (c = ">"%char) then mkLexer toks stk Unsupported
      else mkLexer toks stk (text_byte c (InText (snoc acc c)))
  | InEntity acc ent =>
      mkLexer toks stk
        (entity_byte ent c (InEntity acc) (fun x => InText (snoc acc x)))
  | TagOpen =>
      if bool_decide (c = "/"%char) then mkLexer toks stk (InEndName EmptyString)
      else if bool_decide (c = "?"%char) || bool_decide (c = "!"%char)
              || bool_decide (c = ":"%char) || isHigh c
      then mkLexer toks stk Unsupported
      else if isNameStart c then mkLexer toks stk (InStartName (String c EmptyString))
      else if isNameByte c then mkLexer toks stk (InBadName (String c EmptyString))
      else mkLexer toks stk (Failed "expected element name after <")
  | InStartName n =>
      if isNameByte c then mkLexer toks stk (InStartName (snoc n c))
      else in_tag toks stk n [] c
  | InTag n attrs => in_tag toks stk n attrs c
  | InEndName n =>
      if bool_decide (c = ":"%char) || isHigh c then mkLexer toks stk Unsupported
      else if decide (n = EmptyString)
      then if isNameStart c then mkLexer toks stk (InEndName (String c EmptyString))
           else if isNameByte c then mkLexer toks stk (InBadName (String c EmptyString))
           else mkLexer toks stk (Failed "expected element name after </")
      else if isNameByte c then mkLexer toks stk (InEndName (snoc n c))
      else after_end_name toks stk n c
  | AfterEndName n => after_end_name toks stk n c
  | InAttrName n attrs an =>
      if isNameByte c then mkLexer toks stk (InAttrName n attrs (snoc an c))
      else if bool_decide (c = ":"%char) || isHigh c then mkLexer toks stk Unsupported
      else after_attr_name toks stk n attrs an c
  | AfterAttrName n attrs an => after_attr_name toks stk n attrs an c
  | AfterEq n attrs an =>
      if isTagSpace c then lx
      else if bool_decide (c = "034"%char) || bool_decide (c = "039"%char)
      then mkLexer toks stk (InAttrValue n attrs an c EmptyString)
      else mkLexer toks stk (Failed "unquoted or missing attribute value in element")
  | InAttrValue n attrs an q v =>
      if decide (c = q)
      then mkLexer toks stk (InTag n (attrs ++ [xml.mkAttr (plain an) v]))
      else if bool_decide (c = "<"%char)
      then mkLexer toks stk (Failed "unescaped < inside quoted string")
      else if bool_decide (c = "&"%char)
      then mkLexer toks stk (InAttrEntity n attrs an q v EmptyString)
      else mkLexer toks stk (text_byte c (InAttrValue n attrs an q (snoc v c)))
  | InAttrEntity n attrs an q v ent =>
      mkLexer toks stk
        (entity_byte ent c (InAttrEntity n attrs an q v)
                     (fun x => InAttrValue n attrs an q (snoc v x)))
  | SelfClose n attrs =>
      if bool_decide (c = ">"%char)
      then mkLexer (toks ++ [StartElement (plain n) attrs; EndElement (plain n)])
                   stk (InText EmptyString)
      else mkLexer toks stk (Failed "expected /> in element")
  | InBadName n =>
      if isNameByte c then mkLexer toks stk (InBadName (snoc n c))
      else if bool_decide (c = ":"%char) || isHigh c then mkLexer toks stk Unsupported
      else mkLexer toks stk (Failed ("invalid XML name: " +:+ n))
  end.

Fixpoint run (lx : Lexer) (s : string) : Lexer :=
  match s with
  | EmptyString => lx
  | String c s' => run (step lx c) s'
  end.

(** What the decoder delivers once the input has ended in state [lx]. *)
Definition finish (lx : Lexer) : option Decoder :=
  match mode lx with
  | Unsupported => None
  | Failed msg => Some (mkDecoder (emitted lx) (SyntaxError msg))
  | InText acc =>
      Some (mkDecoder (emit_text acc (emitted lx))
              (match open_tags lx with
               | [] => io_EOF
               | _ => SyntaxError "unexpected EOF"
               end))
  | _ => Some (mkDecoder (emitted lx) (SyntaxError "unexpected EOF"))
  end.

Definition NewDecoder (r : string) : option Decoder :=
  finish (run (mkLexer [] [] (InText EmptyString)) r).

(** What [parseElement] returns: [(res, nil)] together with the decoder
    as the call leaves it, or [(nil, err)]. *)
Inductive Result :=
| Ok (res : Element) (decoder : Decoder)
| Err (err : error).

(** The [for] loop of [parseElement], lines 18-38, on the element [res]
    built so far.  A nested start-tag calls [parseElement], that is, the same
    loop on the element created for that tag.  [fuel] bounds the number of
    tokens read; the result is [None] when it runs out, which does not
    happen when [fuel] exceeds the number of pending tokens
    ([parse_loop_fuel]). *)
Fixpoint parse_loop (fuel : nat) (decoder : Decoder) (res : Element)
  : option Result :=
  match fuel with
  | 0 => None
  | S fuel' =>
      match Token_ decoder with
      | inr err => Some (Err err)
      | inl (newtok, decoder) =>
          match newtok with
          | EndElement _ => Some (Ok res decoder)
          | CharData rt =>
              let content := TrimSpace rt in
              if bool_decide (0 < String.length content)
              then parse_loop fuel' decoder (setContent content res)
              else parse_loop fuel' decoder res
          | StartElement name attr =>
              r ← parse_loop fuel' decoder
                    (fold_left AddAttr attr (CreateElement name));
              match r with
              | Err err => Some (Err err)
              | Ok child decoder => parse_loop fuel' decoder (AddChild res child)
              end
          | _ => parse_loop fuel' decoder res
          end
      end
  end.

(** [parseElement(decoder, tok)], lines 12-39. *)
Definition parseElement (fuel : nat) (decoder : Decoder)
    (name : xml.Name) (attr : list xml.Attr) : option Result :=
  parse_loop fuel decoder (fold_left AddAttr attr (CreateElement name)).

(** The loop of [ParseElementsWithOptions], lines 73-89. *)
Fixpoint elements_loop (fuel : nat) (decoder : Decoder) (elements : list Element)
  : option (list Element * option error) :=
  match fuel with
  | 0 => None
  | S fuel' =>
      match Token_ decoder with
      | inr err =>
          if decide (err = io_EOF) then Some (elements, None)
          else Some (elements, Some err)
      | inl (tok, decoder) =>
          match tok with
          | StartElement name attr =>
              r ← parseElement fuel' decoder name attr;
              match r with
              | Err err => Some (elements, Some err)
              | Ok element decoder =>
                  elements_loop fuel' decoder (elements ++ [element])
              end
          | _ => elements_loop fuel' decoder elements
          end
      end
  end.

(** [ParseElementsWithOptions(r, opts)] and [ParseElements(r)], lines 59-91.
    The reader [r], decoded with the charset hook of [opts], is represented
    by the decoder built on it.  The result is [(elements, err)]. *)
Definition ParseElementsWithOptions (decoder : Decoder)
  : option (list Element * option error) :=
  elements_loop (S (length (pending decoder))) decoder [].

Definition ParseElements (decoder : Decoder) : option (list Element * option error) :=
  ParseElementsWithOptions decoder.

(** Modelled from the spec: [Document], [CreateDocument] and [SetRoot] are
    declared in a file of the package whose source is not available.  A
    document holds zero or one root element. *)
Record Document := mkDocument { root : option Element }.

Definition CreateDocument : Document := mkDocument None.

Definition SetRoot (doc : Document) (node : Element) : Document :=
  mkDocument (Some node).

(** [ParseWithOptions(r, opts)] and [Parse(r)], lines 96-114: [(doc, err)]. *)
Definition ParseWithOptions (decoder : Decoder)
  : option (option Document * option error) :=
  r ← ParseElementsWithOptions decoder;
  let '(elements, err) := r in
  match err with
  | Some err => Some (None, Some err)
  | None =>
      if bool_decide (1 < length elements)
      then Some (None, Some (errors_New TooManyRootElements))
      else
        let doc := CreateDocument in
        let doc := match elements with
                   | [e] => SetRoot doc e
                   | _ => doc
                   end in
        Some (Some doc, None)
  end.

Definition Parse (decoder : Decoder) : option (option Document * option error) :=
  ParseWithOptions decoder.

(** How many elements are still open after the tokens [ts], starting with
    [d] open ones.  At the top level ([d = 0]) an end-tag closes nothing. *)
Fixpoint open_after (d : nat) (ts : list Token) : nat :=
  match ts with
  | [] => d
  | StartElement _ _ :: ts' => open_after (S d) ts'
  | EndElement _ :: ts' => open_after (pred d) ts'
  | _ :: ts' => open_after d ts'
  end.

(** Whether the tokens [ts] contain the end-tag that closes the element being
    read, [d] nested elements being open inside it. *)
Fixpoint closes (d : nat) (ts : list Token) : bool :=
  match ts with
  | [] => false
  | StartElement _ _ :: ts' => closes (S d) ts'
  | EndElement _ :: ts' =>
      match d with
      | 0 => true
      | S d' => closes d' ts'
      end
  | _ :: ts' => closes d ts'
  end.

(** [Body ts r r']: reading the tokens [ts], none of which is the end-tag of
    the element being built, turns the element [r] built so far into [r'].
    A text token sets the content to its trimmed bytes unless they are
    empty; a start-tag, the tokens of that element and its end-tag append
    the element they describe; other tokens change nothing. *)
Inductive Body : list Token -> Element -> Element -> Prop :=
| Body_nil r : Body [] r r
| Body_text w ts r r' :
    Body ts (if bool_decide (0 < String.length (TrimSpace w))
             then setContent (TrimSpace w) r else r) r' ->
    Body (CharData w :: ts) r r'
| Body_child name attr tsc n child ts r r' :
    Body tsc (fold_left AddAttr attr (CreateElement name)) child ->
    Body ts (AddChild r child) r' ->
    Body (StartElement name attr :: tsc ++ EndElement n :: ts) r r'
| Body_comment c ts r r' : Body ts r r' -> Body (Comment c :: ts) r r'
| Body_procinst t i ts r r' : Body ts r r' -> Body (ProcInst t i :: ts) r r'
| Body_directive c ts r r' : Body ts r r' -> Body (Directive c :: ts) r r'.

(** The tokens of one complete element [e]: its start-tag, a body and
    an end-tag. *)
Definition ElementTokens (ts : list Token) (e : Element) : Prop :=
  exists name attr body n,
    ts = StartElement name attr :: body ++ [EndElement n] /\
    Body body (fold_left AddAttr attr (CreateElement name)) e.

(** [ParseElements] and [Parse] applied to the bytes [r]; [None] when the
    bytes are outside the fragment of [NewDecoder]. *)
Definition ParseElementsBytes (r : string) : option (list Element * option error) :=
  d ← NewDecoder r; ParseElements d.

Definition ParseBytes (r : string) : option (option Document * option error) :=
  d ← NewDecoder r; Parse d.

(** ** Round trip: the elements that survive serialization and parsing *)

(** A byte that character data and attribute values carry unchanged: an
    ASCII character of XML other than carriage return, [<] and [&]. *)
Definition isPlainByte (c : ascii) : bool :=
  isXMLChar c && negb (bool_decide (c = "013"%char)) &&
  negb (bool_decide (c = "<"%char)) && negb (bool_decide (c = "&"%char)).

Definition isTextByte (c : ascii) : bool :=
  isPlainByte c && negb (bool_decide (c = ">"%char)).

(** [Encode] writes attribute values as they are, between double quotes. *)
Definition isValueByte (c : ascii) : bool :=
  isPlainByte c && negb (bool_decide (c = "034"%char)).

(** An ASCII XML name without colon. *)
Definition isXMLName (n : string) : bool :=
  match n with
  | EmptyString => false
  | String c n' => isNameStart c && all_bytes isNameByte n'
  end.

Definition attr_ok (a : xml.Attr) : bool :=
  bool_decide (xml.Space (xml.AName a) = EmptyString) &&
  isXMLName (xml.Local (xml.AName a)) &&
  negb (bool_decide (xml.Local (xml.AName a) = "xmlns")) &&
  all_bytes isValueByte (xml.Value a).

(** The elements whose text is in the fragment of the decoder: no
    namespaces; element and attribute names that are ASCII XML names, no
    attribute called [xmlns]; attribute values of ASCII characters of XML
    that [Encode] can write as they are; contents of ASCII characters of
    XML. *)
Fixpoint plain_ascii (node : Element) : bool :=
  bool_decide (xml.Space (Name node) = EmptyString) &&
  isXMLName (xml.Local (Name node)) &&
  forallb attr_ok (Attributes node) &&
  all_bytes isXMLChar (Content node) &&
  forallb plain_ascii (children node).

(** No element name and no attribute name of the subtree is in a namespace. *)
Fixpoint plain_names (node : Element) : bool :=
  bool_decide (xml.Space (Name node) = EmptyString) &&
  forallb (fun a => bool_decide (xml.Space (xml.AName a) = EmptyString)) (Attributes node) &&
  forallb plain_names (children node).

(** [TrimSpace] leaves every content of the subtree as it is: no content
    starts or ends with white space. *)
Fixpoint trimmed_contents (node : Element) : bool :=
  bool_decide (TrimSpace (Content node) = Content node) &&
  forallb trimmed_contents (children node).

(** The tokens the decoder delivers for the pretty-printed text of [node] at
    depth [d], when the character data [w] precedes it: the text before the
    start-tag is [w] and the indentation; the first child is preceded by
    the content and a newline, the others by a newline. *)
Fixpoint toks_each (f : string -> Element -> list Token) (w : string)
    (cs : list Element) : list Token :=
  match cs with
  | [] => []
  | c :: cs' => f w c ++ toks_each f nl cs'
  end.

Fixpoint toks (d : nat) (w : string) (node : Element) : list Token :=
  emit_text (w +:+ indent d) [] ++
  StartElement (Name node) (Attributes node) ::
  (if bool_decide (length (children node) = 0 /\ String.length (Content node) = 0)
   then []
   else if bool_decide (0 < length (children node))
        then toks_each (toks (S d)) (Content node +:+ nl) (children node) ++
             [CharData (nl +:+ indent d)]
        else emit_text (Content node) []) ++
  [EndElement (Name node)].


(** The tokens between the start-tag and the end-tag of [node]. *)
Definition body_toks (d : nat) (node : Element) : list Token :=
  if bool_decide (length (children node) = 0 /\ String.length (Content node) = 0)
  then []
  else if bool_decide (0 < length (children node))
       then toks_each (toks (S d)) (Content node +:+ nl) (children node) ++
            [CharData (nl +:+ indent d)]
       else emit_text (Content node) [].

(** What follows an element name inside a start-tag begins with a blank,
    [/] or [>]. *)
Definition tag_tail (s : string) : bool :=
  match s with
  | String c _ => bool_decide (c = " "%char \/ c = "/"%char \/ c = ">"%char)
  | EmptyString => false
  end.

(** The decoder reads the text of [node] at depth [d] as [toks d w node]. *)
Definition lexes (d : nat) (node : Element) : Prop :=
  forall w toks0 stk,
    run (mkLexer toks0 stk (InText w))
        (opening ∅ true d node +:+ closing ∅ true d node)
    = mkLexer (toks0 ++ toks d w node) stk (InText nl).

(** What the text token [w] does to the element [r] being built. *)
Definition text_effect (w : string) (r : Element) : Element :=
  if bool_decide (0 < String.length (TrimSpace w)) then setContent (TrimSpace w) r else r.


(** ** Elements used as examples *)

(** An element in one namespace with a child in another. *)
Definition two_namespaces : Element :=
  mkElement (xml.mkName "urn:x" "a")
            [mkElement (xml.mkName "urn:y" "b") [] EmptyString []]
            EmptyString [].

(** A root that declares the prefix [p] for [urn:x] and has a child named in
    that namespace. *)
Definition declared_child : Element :=
  mkElement (plain "root")
            [mkElement (xml.mkName "urn:x" "childname") [] EmptyString []]
            EmptyString
            [xml.mkAttr (xml.mkName "xmlns" "p") "urn:x"].

(** A root without declaration; its first child is named in [urn:x], its
    second child carries the declaration [xmlns:p="urn:x"]. *)
Definition late_declaration : Element :=
  mkElement (plain "root")
            [mkElement (xml.mkName "urn:x" "childname") [] EmptyString [];
             mkElement (plain "s") [] EmptyString
                       [xml.mkAttr (xml.mkName "xmlns" "p") "urn:x"]]
            EmptyString [].

(** A root that declares [p] for [urn:x]; a child declares [p] for [urn:y]. *)
Definition rebind : Element :=
  mkElement (plain "root")
            [mkElement (xml.mkName "urn:x" "a") [] EmptyString [];
             mkElement (xml.mkName "urn:y" "b") [] EmptyString
                       [xml.mkAttr (xml.mkName "xmlns" "p") "urn:y"]]
            EmptyString
            [xml.mkAttr (xml.mkName "xmlns" "p") "urn:x"].

(** An element whose content is surrounded by blanks. *)
Definition blank_content : Element := mkElement (plain "a") [] " x " [].


(** A no-break space, U+00A0, in UTF-8. *)
Definition nbsp : string := String "194"%char (String "160"%char EmptyString).

(** Two iteration orders for maps. *)
Definition forwards : MapOrder := map_to_list.
Definition backwards : MapOrder := fun m => reverse (map_to_list m).

(** ** Notions used by the further properties *)

(** Two cells of the pointer view hold the same name, content and
    attributes. *)
Definition same_data (e1 e2 : Ptr.Element) : Prop :=
  Ptr.Name e1 = Ptr.Name e2 /\ Ptr.Content e1 = Ptr.Content e2 /\
  Ptr.Attributes e1 = Ptr.Attributes e2.

(** Every content of the subtree has no white space at either end. *)
Fixpoint all_trimmed (node : Element) : bool :=
  is_trimmed (Content node) && forallb all_trimmed (children node).

(** The tokens the tree builder acts on: tags, and text that is not only
    white space. *)
Definition significant (tok : Token) : bool :=
  match tok with
  | StartElement _ _ | EndElement _ => true
  | CharData w => bool_decide (0 < String.length (TrimSpace w))
  | _ => false
  end.

Definition is_start (tok : Token) : bool :=
  match tok with
  | StartElement _ _ => true
  | _ => false
  end.

(** The token [tok] with the name of an end-tag replaced. *)
Definition rename_end (f : xml.Name -> xml.Name) (tok : Token) : Token :=
  match tok with
  | EndElement n => EndElement (f n)
  | _ => tok
  end.

Definition rename_ends (f : xml.Name -> xml.Name) (decoder : Decoder) : Decoder :=
  mkDecoder (map (rename_end f) (pending decoder)) (final decoder).

Definition rename_result (f : xml.Name -> xml.Name) (r : Result) : Result :=
  match r with
  | Ok res decoder => Ok res (rename_ends f decoder)
  | Err err => Err err
  end.

(** The decoder without the tokens the tree builder ignores. *)
Definition drop_ignored (decoder : Decoder) : Decoder :=
  mkDecoder (filter (fun t => significant t = true) (pending decoder)) (final decoder).

(** The element with every content of its subtree trimmed. *)
Fixpoint trim_contents (node : Element) : Element :=
  mkElement (Name node) (map trim_contents (children node))
            (TrimSpace (Content node)) (Attributes node).

(** The tokens of the body of [node] build [node] with trimmed contents. *)
Definition parses_back_trimmed (node : Element) : Prop :=
  forall d, Body (body_toks d node)
                 (fold_left AddAttr (Attributes node) (CreateElement (Name node)))
                 (trim_contents node).

(** * Properties *)

(** ** Strings *)

Lemma sapp_nil_l (s : string) : EmptyString +:+ s = s.
Proof. reflexivity. Qed.

Lemma sapp_cons (c : ascii) (s t : string) : String c s +:+ t = String c (s +:+ t).
Proof. reflexivity. Qed.

Lemma sapp_nil_r (s : string) : s +:+ EmptyString = s.
Proof. induction s as [|c s IH]; [done|]. by rewrite sapp_cons, IH. Qed.

Lemma sapp_assoc (s t u : string) : (s +:+ t) +:+ u = s +:+ t +:+ u.
Proof. induction s as [|c s IH]; [done|]. by rewrite !sapp_cons, IH. Qed.

Lemma all_bytes_app p (s t : string) :
  all_bytes p (s +:+ t) = all_bytes p s && all_bytes p t.
Proof.
  induction s as [|c s IH]; [done|].
  rewrite sapp_cons. simpl. rewrite IH. by rewrite andb_assoc.
Qed.

Lemma trimLeft_blank (a s : string) :
  all_bytes isSpace a = true -> trimLeft (a +:+ s) = trimLeft s.
Proof.
  induction a as [|c a IH]; [done|].
  rewrite sapp_cons. simpl. intros [Hc Ha]%andb_true_iff. rewrite Hc. auto.
Qed.

Lemma trimLeft_split (s : string) :
  exists a, s = a +:+ trimLeft s /\ all_bytes isSpace a = true /\
            starts_with_space (trimLeft s) = false.
Proof.
  induction s as [|c s (a & Hs & Ha & Ht)]; [by exists EmptyString|].
  simpl. destruct (isSpace c) eqn:Hc.
  - exists (String c a). rewrite sapp_cons, <- Hs. simpl. by rewrite Hc.
  - exists EmptyString. simpl. by rewrite Hc.
Qed.

Lemma trimRight_blank (b : string) :
  all_bytes isSpace b = true -> trimRight b = EmptyString.
Proof.
  induction b as [|c b IH]; [done|].
  simpl. intros [Hc Hb]%andb_true_iff. by rewrite (IH Hb), Hc.
Qed.

Lemma trimRight_app_blank (s b : string) :
  all_bytes isSpace b = true -> trimRight (s +:+ b) = trimRight s.
Proof.
  intros Hb. induction s as [|c s IH].
  - rewrite sapp_nil_l. by apply trimRight_blank.
  - rewrite sapp_cons. simpl. by rewrite IH.
Qed.

Lemma trimRight_split (s : string) :
  exists b, s = trimRight s +:+ b /\ all_bytes isSpace b = true /\
            ends_with_space (trimRight s) = false.
Proof.
  induction s as [|c s (b & Hs & Hb & Ht)]; [by exists EmptyString|].
  simpl. destruct (trimRight s) as [|c' t] eqn:Htr.
  - destruct (isSpace c) eqn:Hc.
    + exists (String c b). rewrite sapp_nil_l in *. subst s. simpl. by rewrite Hc.
    + exists b. rewrite sapp_nil_l in Hs. subst s. simpl. by rewrite Hc.
  - exists b. rewrite !sapp_cons. rewrite sapp_cons in Hs. by rewrite <- Hs.
Qed.

Lemma trimRight_keeps_start (s : string) :
  starts_with_space s = false -> starts_with_space (trimRight s) = false.
Proof.
  destruct s as [|c s]; [done|]. simpl. intros Hc.
  destruct (trimRight s); [by rewrite Hc|done].
Qed.

Lemma trimRight_id (s : string) :
  ends_with_space s = false -> trimRight s = s.
Proof.
  induction s as [|c s IH]; [done|]. simpl.
  destruct s as [|c' s']; [by intros ->|].
  intros H. by rewrite (IH H).
Qed.

Lemma trimLeft_id (s : string) :
  starts_with_space s = false -> trimLeft s = s.
Proof. destruct s as [|c s]; [done|]. simpl. by intros ->. Qed.

(** Surrounding blanks are removed and nothing else is. *)
Lemma trimBlanks_split (s : string) :
  exists a b, s = a +:+ trimBlanks s +:+ b /\
              all_bytes isSpace a = true /\ all_bytes isSpace b = true /\
              is_trimmed (trimBlanks s) = true.
Proof.
  destruct (trimLeft_split s) as (a & Hs & Ha & Hl).
  destruct (trimRight_split (trimLeft s)) as (b & Ht & Hb & Hr).
  exists a, b. unfold trimBlanks, is_trimmed.
  rewrite <- Ht. repeat split; [done..|].
  by rewrite (trimRight_keeps_start _ Hl), Hr.
Qed.

Lemma trimBlanks_blank (s : string) :
  all_bytes isSpace s = true -> trimBlanks s = EmptyString.
Proof.
  intros Hs. unfold trimBlanks.
  rewrite <- (sapp_nil_r s), (trimLeft_blank _ _ Hs). done.
Qed.

Lemma trimBlanks_padded (a c b : string) :
  all_bytes isSpace a = true -> all_bytes isSpace b = true ->
  is_trimmed c = true -> trimBlanks (a +:+ c +:+ b) = c.
Proof.
  intros Ha Hb [Hl Hr]%andb_true_iff.
  apply negb_true_iff in Hl, Hr.
  unfold trimBlanks. rewrite (trimLeft_blank _ _ Ha).
  destruct c as [|x c].
  - rewrite sapp_nil_l. rewrite <- (sapp_nil_r b), (trimLeft_blank _ _ Hb). done.
  - rewrite sapp_cons. simpl in Hl. simpl. rewrite Hl.
    rewrite <- sapp_cons, (trimRight_app_blank _ _ Hb). by apply trimRight_id.
Qed.

(** ** UTF-8 and [bytes.TrimSpace] *)

Section Utf8Facts.
Import utf8 unicode bytes.

Lemma list_ascii_app (a b : string) :
  String.list_ascii_of_string (a +:+ b)
  = String.list_ascii_of_string a ++ String.list_ascii_of_string b.
Proof. induction a as [|c a IH]; [done|]. rewrite sapp_cons. simpl. by rewrite IH. Qed.

Lemma string_of_list_app (a b : list ascii) :
  String.string_of_list_ascii (a ++ b)
  = String.string_of_list_ascii a +:+ String.string_of_list_ascii b.
Proof. induction a as [|c a IH]; [by rewrite sapp_nil_l|]. simpl. by rewrite IH, sapp_cons. Qed.

Lemma at_app_l (a b : list ascii) i : i < length a -> at_ (a ++ b) i = at_ a i.
Proof. intros H. unfold at_. by rewrite lookup_app_l. Qed.

Lemma at_middle (pre : list ascii) c t : at_ (pre ++ c :: t) (length pre) = N_of_ascii c.
Proof. unfold at_. by rewrite list_lookup_middle. Qed.

Lemma first_Some p0 sz lo hi :
  first p0 = Some (sz, lo, hi) -> (sz = 2 \/ sz = 3 \/ sz = 4) /\ (128 <= lo)%N.
Proof.
  unfold first. repeat case_match; intros [= <- <- <-]; split; (lia || auto).
Qed.



Lemma DecodeRune_size (p : list ascii) :
  p <> [] -> 1 <= snd (DecodeRune p) <= length p.
Proof.
  destruct p as [|c0 rest]; [done|]. intros _. cbn [DecodeRune].
  repeat case_match; subst; cbn [snd length] in *; try lia.
  all: repeat match goal with
       | H : (_ <? _)%nat = false |- _ => apply Nat.ltb_ge in H; cbn [length] in H
       | H : (_ <=? _)%nat = false |- _ => apply Nat.leb_gt in H
       end; try lia.
Qed.

Lemma last_start_le p n : forall start lim, (last_start p n start lim <= start)%Z.
Proof.
  induction n as [|n IH]; intros start lim; cbn [last_start]; [lia|].
  repeat case_match; try lia. specialize (IH (start - 1)%Z lim). lia.
Qed.

Lemma DecodeLastRune_size (p : list ascii) :
  p <> [] -> 1 <= snd (DecodeLastRune p).
Proof.
  intros Hp. unfold DecodeLastRune.
  destruct (length p =? 0)%nat eqn:Hl.
  { apply Nat.eqb_eq in Hl. by apply nil_length_inv in Hl. }
  apply Nat.eqb_neq in Hl.
  destruct (_ <? RuneSelf)%N; [simpl; lia|].
  match goal with |- context [last_start p ?n ?st ?lim] =>
    pose proof (last_start_le p n st lim) as Hle; set (ls := last_start p n st lim) in * end.
  destruct (DecodeRune _) as [r size] eqn:Hd.
  case_bool_decide as Hs; cbn [snd]; [|lia].
  destruct size; [|lia]. exfalso.
  destruct (ls <? 0)%Z eqn:Hneg; lia.
Qed.

(** Results of the two loops. *)
Lemma indexFunc_from_range s f truth fuel start :
  indexFunc_from s f truth fuel start = (-1)%Z \/
  (Z.of_nat start <= indexFunc_from s f truth fuel start < Z.of_nat (length s))%Z.
Proof.
  revert start. induction fuel as [|fuel IH]; intros start; [by left|].
  cbn [indexFunc_from].
  destruct (length s <=? start)%nat eqn:Hl; [by left|]. apply Nat.leb_gt in Hl.
  destruct (_ : N * nat) as [r wid]. destruct (Bool.eqb (f r) truth); [right; lia|].
  destruct (IH (start + wid)) as [->|H]; [by left|right; lia].
Qed.

Lemma lastIndexFunc_from_range s f truth fuel i :
  i <= length s ->
  (-1 <= lastIndexFunc_from s f truth fuel i < Z.of_nat i \/
   lastIndexFunc_from s f truth fuel i = -1)%Z.
Proof.
  revert i. induction fuel as [|fuel IH]; intros i Hi; [by right|].
  cbn [lastIndexFunc_from].
  destruct (i =? 0)%nat eqn:Hz; [by right|]. apply Nat.eqb_neq in Hz.
  assert (Hsz : 1 <= snd (let r := at_ s (i - 1) in
                          if (r <? RuneSelf)%N then (r, 1) else DecodeLastRune (take i s))).
  { cbn zeta. destruct (_ <? _)%N; [simpl; lia|]. apply DecodeLastRune_size.
    intros Ht. apply (f_equal length) in Ht. rewrite length_take in Ht. simpl in Ht. lia. }
  destruct (_ : N * nat) as [r size]. cbn [snd] in Hsz.
  destruct (Bool.eqb (f r) truth); [left; lia|].
  destruct (IH (i - size)) as [H|H]; [lia|left; lia|by right].
Qed.

(** The loops read the text only up to where they are. *)
Lemma lastIndexFunc_from_app s b f truth fuel i :
  i <= length s ->
  lastIndexFunc_from (s ++ b) f truth fuel i = lastIndexFunc_from s f truth fuel i.
Proof.
  revert i. induction fuel as [|fuel IH]; intros i Hi; [done|].
  cbn [lastIndexFunc_from].
  destruct (i =? 0)%nat eqn:Hz; [done|]. apply Nat.eqb_neq in Hz.
  rewrite at_app_l by lia. rewrite take_app_le by lia.
  destruct (_ : N * nat) as [r size]. destruct (Bool.eqb (f r) truth); [done|].
  apply IH. lia.
Qed.


(** Skipping ASCII white space, forwards and backwards. *)
Lemma indexFunc_from_skip a : forall pre t fuel,
  Forall ascii_space a ->
  indexFunc_from (pre ++ a ++ t) IsSpace false (length a + fuel) (length pre)
  = indexFunc_from (pre ++ a ++ t) IsSpace false fuel (length pre + length a).
Proof.
  induction a as [|c a IH]; intros pre t fuel Ha.
  - simpl. by rewrite Nat.add_0_r.
  - inversion Ha as [|? ? [Hc1 Hc2] Ha']; subst.
    cbn [length Nat.add indexFunc_from].
    rewrite (proj2 (Nat.leb_gt _ _)) by (rewrite !length_app; simpl; lia).
    cbn [app]. rewrite at_middle.
    rewrite (proj2 (N.ltb_lt _ _)) by done. rewrite Hc2. cbn [Bool.eqb].
    specialize (IH (pre ++ [c]) t fuel Ha').
    rewrite <- !app_assoc in IH. cbn [app] in IH. rewrite length_app in IH. cbn [length] in IH.
    rewrite IH. f_equal. lia.
Qed.

Lemma lastIndexFunc_from_skip b : forall t fuel,
  Forall ascii_space b ->
  lastIndexFunc_from (t ++ b) IsSpace false (length b + fuel) (length t + length b)
  = lastIndexFunc_from (t ++ b) IsSpace false fuel (length t).
Proof.
  induction b as [|c b IH] using rev_ind; intros t fuel Hb.
  - simpl. by rewrite Nat.add_0_r.
  - apply Forall_app in Hb as [Hb Hc]. inversion Hc as [|? ? [Hc1 Hc2] _]; subst.
    rewrite length_app. cbn [length].
    replace (length b + 1 + fuel) with (S (length b + fuel)) by lia.
    cbn [lastIndexFunc_from].
    rewrite (proj2 (Nat.eqb_neq _ _)) by lia.
    replace (length t + (length b + 1) - 1) with (length (t ++ b))
      by (rewrite length_app; lia).
    rewrite app_assoc, at_middle.
    rewrite (proj2 (N.ltb_lt _ _)) by done. rewrite Hc2. cbn [Bool.eqb].
    replace (length t + (length b + 1) - 1) with (length t + length b) by lia.
    rewrite (lastIndexFunc_from_app (t ++ b) [c] _ _ _ (length t + length b))
      by (rewrite length_app; lia).
    rewrite (lastIndexFunc_from_app (t ++ b) [c] _ _ _ (length t))
      by (rewrite length_app; lia).
    by apply IH.
Qed.

(** Trimming a text that is ASCII white space around [t]. *)
Lemma TrimLeftFunc_skip (a t : list ascii) :
  Forall ascii_space a ->
  (t = [] \/ exists c t', t = c :: t' /\ (N_of_ascii c < 128)%N /\ IsSpace (N_of_ascii c) = false) ->
  TrimLeftFunc (a ++ t) IsSpace = t.
Proof.
  intros Ha Ht. unfold TrimLeftFunc, indexFunc.
  assert (Hs : indexFunc_from (a ++ t) IsSpace false (length (a ++ t)) 0
               = indexFunc_from (a ++ t) IsSpace false (length t) (length a)).
  { rewrite length_app. apply (indexFunc_from_skip a [] t (length t) Ha). }
  rewrite Hs. clear Hs.
  destruct Ht as [->|(c & t' & -> & Hc1 & Hc2)].
  - simpl. done.
  - cbn [length indexFunc_from].
    rewrite (proj2 (Nat.leb_gt _ _)) by (rewrite !length_app; simpl; lia).
    rewrite at_middle, (proj2 (N.ltb_lt _ _)) by done. rewrite Hc2. cbn [Bool.eqb].
    rewrite (proj2 (Z.eqb_neq _ _)) by lia.
    rewrite Nat2Z.id. by rewrite drop_app_length.
Qed.

Lemma TrimRightFunc_skip (t b : list ascii) :
  Forall ascii_space b ->
  (t = [] \/ exists t' c, t = t' ++ [c] /\ (N_of_ascii c < 128)%N /\ IsSpace (N_of_ascii c) = false) ->
  TrimRightFunc (t ++ b) IsSpace = t.
Proof.
  intros Hb Ht. unfold TrimRightFunc, lastIndexFunc.
  assert (Hs : lastIndexFunc_from (t ++ b) IsSpace false (length (t ++ b)) (length (t ++ b))
               = lastIndexFunc_from (t ++ b) IsSpace false (length t) (length t)).
  { rewrite <- (lastIndexFunc_from_skip b t (length t) Hb), length_app.
    f_equal. lia. }
  rewrite Hs. clear Hs.
  destruct Ht as [->|(t' & c & -> & Hc1 & Hc2)].
  - simpl. done.
  - rewrite length_app. cbn [length]. rewrite Nat.add_1_r. cbn [lastIndexFunc_from].
    rewrite (proj2 (Nat.eqb_neq _ _)) by lia. cbn [Nat.sub]. rewrite Nat.sub_0_r.
    rewrite <- !app_assoc. cbn [app]. rewrite at_middle.
    rewrite (proj2 (N.ltb_lt _ _)) by done. rewrite Hc2. cbn [Bool.eqb].
    replace (S (length t') - 1) with (length t') by lia.
    rewrite (proj2 (Z.leb_le _ _)) by lia. rewrite Nat2Z.id, at_middle.
    rewrite (proj2 (N.leb_gt _ _)) by (unfold RuneSelf; lia). cbn [andb].
    replace (Z.to_nat (Z.of_nat (length t') + 1)) with (length (t' ++ [c]))
      by (rewrite length_app; simpl; lia).
    replace (t' ++ c :: b) with ((t' ++ [c]) ++ b) by (by rewrite <- app_assoc).
    by rewrite take_app_length.
Qed.

Lemma isSpace_ascii_space c : isSpace c = true -> ascii_space c.
Proof.
  destruct c as [[] [] [] [] [] [] [] []]; intros H; vm_compute in H;
    try discriminate H; split; reflexivity.
Qed.

Lemma isSpace_false c :
  isASCII c = true -> isSpace c = false ->
  (N_of_ascii c < 128)%N /\ IsSpace (N_of_ascii c) = false.
Proof.
  destruct c as [[] [] [] [] [] [] [] []]; intros H1 H2; vm_compute in H1, H2;
    try discriminate H1; try discriminate H2; split; reflexivity.
Qed.

Lemma isSpace_isASCII c : isSpace c = true -> isASCII c = true.
Proof.
  destruct c as [[] [] [] [] [] [] [] []]; intros H; vm_compute in H;
    try discriminate H; reflexivity.
Qed.

Lemma all_isSpace_isASCII s : all_bytes isSpace s = true -> all_bytes isASCII s = true.
Proof.
  induction s as [|c s IH]; [done|]. simpl. intros [Hc Hs]%andb_true_iff.
  by rewrite (isSpace_isASCII _ Hc), IH.
Qed.

Lemma all_isSpace_list s :
  all_bytes isSpace s = true -> Forall ascii_space (String.list_ascii_of_string s).
Proof.
  induction s as [|c s IH]; [constructor|]. simpl. intros [Hc Hs]%andb_true_iff.
  constructor; [by apply isSpace_ascii_space|by apply IH].
Qed.

Lemma starts_list s :
  all_bytes isASCII s = true -> starts_with_space s = false ->
  String.list_ascii_of_string s = [] \/
  exists c t', String.list_ascii_of_string s = c :: t' /\
               (N_of_ascii c < 128)%N /\ IsSpace (N_of_ascii c) = false.
Proof.
  destruct s as [|c s]; [by left|]. simpl. intros [Hc _]%andb_true_iff Hs.
  right. exists c, (String.list_ascii_of_string s). split; [done|]. by apply isSpace_false.
Qed.

Lemma ends_list s :
  all_bytes isASCII s = true -> ends_with_space s = false ->
  String.list_ascii_of_string s = [] \/
  exists t' c, String.list_ascii_of_string s = t' ++ [c] /\
               (N_of_ascii c < 128)%N /\ IsSpace (N_of_ascii c) = false.
Proof.
  induction s as [|c s IH]; [by left|]. intros Ha He. right.
  simpl in Ha. apply andb_true_iff in Ha as [Hc Ha].
  destruct s as [|c' s].
  - exists [], c. split; [done|]. apply isSpace_false; [done|]. exact He.
  - destruct (IH Ha He) as [H|(t' & x & Ht & Hx)]; [done|].
    exists (c :: t'), x. split; [|done]. cbn [String.list_ascii_of_string] in *.
    by rewrite Ht.
Qed.

Lemma all_isASCII_app_r (a b : string) :
  all_bytes isASCII (a +:+ b) = true -> all_bytes isASCII b = true.
Proof. rewrite all_bytes_app. by intros [_ ?]%andb_true_iff. Qed.

Lemma all_isASCII_app_l (a b : string) :
  all_bytes isASCII (a +:+ b) = true -> all_bytes isASCII a = true.
Proof. rewrite all_bytes_app. by intros [? _]%andb_true_iff. Qed.

(** On ASCII text [TrimSpace] removes the ASCII white space at both ends. *)
Lemma TrimSpace_ascii s :
  all_bytes isASCII s = true -> TrimSpace s = trimBlanks s.
Proof.
  intros Ha. unfold TrimSpace, TrimFunc, trimBlanks.
  destruct (trimLeft_split s) as (a & Hs & Hsp & Hst).
  assert (Hal : all_bytes isASCII (trimLeft s) = true).
  { rewrite Hs in Ha. by apply all_isASCII_app_r in Ha. }
  rewrite Hs at 1. rewrite list_ascii_app.
  rewrite (TrimLeftFunc_skip _ _ (all_isSpace_list _ Hsp) (starts_list _ Hal Hst)).
  destruct (trimRight_split (trimLeft s)) as (b & Hx & Hbsp & Hen).
  assert (Hat : all_bytes isASCII (trimRight (trimLeft s)) = true).
  { rewrite Hx in Hal. by apply all_isASCII_app_l in Hal. }
  rewrite Hx at 1. rewrite list_ascii_app.
  rewrite (TrimRightFunc_skip _ _ (all_isSpace_list _ Hbsp) (ends_list _ Hat Hen)).
  apply String.string_of_list_ascii_of_string.
Qed.


Lemma TrimLeftFunc_cases s f :
  TrimLeftFunc s f = [] \/
  exists i, (i < length s) /\ indexFunc s f false = Z.of_nat i /\ TrimLeftFunc s f = drop i s.
Proof.
  unfold TrimLeftFunc, indexFunc.
  destruct (indexFunc_from_range s f false (length s) 0) as [->|H]; [by left|].
  right. exists (Z.to_nat (indexFunc_from s f false (length s) 0)).
  rewrite (proj2 (Z.eqb_neq _ _)) by lia. split; [lia|]. split; [lia|done].
Qed.

(** [TrimSpace] returns a part of its argument. *)
Lemma TrimFunc_part s f :
  exists a b, s = a ++ TrimFunc s f ++ b.
Proof.
  unfold TrimFunc.
  destruct (TrimLeftFunc_cases s f) as [->|(i & _ & _ & ->)].
  - exists s, []. unfold TrimRightFunc. rewrite take_nil. by rewrite app_nil_r.
  - unfold TrimRightFunc. eexists (take i s), (drop _ (drop i s)).
    by rewrite take_drop, take_drop.
Qed.



(** [TrimSpace] returns a part of the text. *)
Lemma TrimSpace_part (s : string) :
  exists a b, s = a +:+ TrimSpace s +:+ b.
Proof.
  destruct (TrimFunc_part (String.list_ascii_of_string s) IsSpace) as (a & b & H).
  exists (String.string_of_list_ascii a), (String.string_of_list_ascii b).
  unfold TrimSpace. rewrite <- !string_of_list_app, <- H.
  by rewrite String.string_of_list_ascii_of_string.
Qed.


Lemma TrimSpace_split (s : string) :
  all_bytes isASCII s = true ->
  exists a b, s = a +:+ TrimSpace s +:+ b /\
              all_bytes isSpace a = true /\ all_bytes isSpace b = true /\
              is_trimmed (TrimSpace s) = true.
Proof. intros Hs. rewrite (TrimSpace_ascii _ Hs). apply trimBlanks_split. Qed.

Lemma TrimSpace_blank (s : string) :
  all_bytes isSpace s = true -> TrimSpace s = EmptyString.
Proof.
  intros Hs. rewrite (TrimSpace_ascii _ (all_isSpace_isASCII _ Hs)).
  by apply trimBlanks_blank.
Qed.

Lemma TrimSpace_padded (a c b : string) :
  all_bytes isSpace a = true -> all_bytes isSpace b = true ->
  all_bytes isASCII c = true -> is_trimmed c = true ->
  TrimSpace (a +:+ c +:+ b) = c.
Proof.
  intros Ha Hb Hc Ht. rewrite TrimSpace_ascii.
  - by apply trimBlanks_padded.
  - rewrite !all_bytes_app, Hc.
    by rewrite (all_isSpace_isASCII _ Ha), (all_isSpace_isASCII _ Hb).
Qed.

(** *** [TrimSpace] twice *)

Lemma indexFunc_from_S s f truth fuel start :
  indexFunc_from s f truth (S fuel) start =
  if (length s <=? start)%nat then (-1)%Z
  else let '(r, wid) := rune_at s start in
       if Bool.eqb (f r) truth then Z.of_nat start
       else indexFunc_from s f truth fuel (start + wid).
Proof. reflexivity. Qed.

Lemma lastIndexFunc_from_S s f truth fuel i :
  lastIndexFunc_from s f truth (S fuel) i =
  if (i =? 0)%nat then (-1)%Z
  else let '(r, size) := rune_before s i in
       if Bool.eqb (f r) truth then Z.of_nat (i - size)
       else lastIndexFunc_from s f truth fuel (i - size).
Proof. reflexivity. Qed.

Lemma first_Some_range p0 sz lo hi :
  first p0 = Some (sz, lo, hi) ->
  (sz = 2 \/ sz = 3 \/ sz = 4) /\ (128 <= lo)%N /\ (hi <= 191)%N /\ (194 <= p0)%N.
Proof.
  unfold first. repeat case_match; intros [= <- <- <-];
    repeat match goal with H : (_ <? _)%N = false |- _ => apply N.ltb_ge in H end;
    repeat split; (lia || auto).
Qed.

Lemma outside_mono lo hi b :
  (128 <= lo)%N -> (hi <= 191)%N -> outside 128 191 b = true -> outside lo hi b = true.
Proof.
  unfold outside. intros ? ? [H|H]%orb_true_iff; apply orb_true_iff;
    [left|right]; apply N.ltb_lt in H; apply N.ltb_lt; lia.
Qed.

(** A leading byte that no continuation byte follows is an error of width 1. *)
Lemma DecodeRune_alone c0 rest :
  (128 <= N_of_ascii c0)%N ->
  (rest = [] \/ exists c1 rest', rest = c1 :: rest' /\ outside 128 191 (N_of_ascii c1) = true) ->
  DecodeRune (c0 :: rest) = (RuneError, 1).
Proof.
  intros H0 Hr. cbn [DecodeRune].
  rewrite (proj2 (N.ltb_ge _ _)) by (unfold RuneSelf; lia).
  destruct (first (N_of_ascii c0)) as [[[sz lo] hi]|] eqn:Hf; [|done].
  apply first_Some_range in Hf as (Hsz & Hlo & Hhi & _).
  destruct (_ <? _)%nat; [done|].
  destruct Hr as [->|(c1 & rest' & -> & Ho)]; [done|].
  by rewrite (outside_mono _ _ _ Hlo Hhi Ho).
Qed.

Lemma DecodeRune_lead c0 rest r size :
  DecodeRune (c0 :: rest) = (r, size) -> (r, size) <> (RuneError, 1) ->
  outside 128 191 (N_of_ascii c0) = true.
Proof.
  cbn [DecodeRune]. destruct (_ <? RuneSelf)%N eqn:Hlt.
  { intros _ _. apply N.ltb_lt in Hlt. unfold outside. apply orb_true_iff. left.
    apply N.ltb_lt. unfold RuneSelf in Hlt. lia. }
  destruct (first (N_of_ascii c0)) as [[[sz lo] hi]|] eqn:Hf.
  - intros _ _. apply first_Some_range in Hf as (_ & _ & _ & H).
    unfold outside. apply orb_true_iff. right. apply N.ltb_lt. lia.
  - intros [= <- <-] H. done.
Qed.

Lemma DecodeRune_ascii c0 rest :
  (N_of_ascii c0 < 128)%N -> DecodeRune (c0 :: rest) = (N_of_ascii c0, 1).
Proof. intros H. cbn [DecodeRune]. by rewrite (proj2 (N.ltb_lt _ _)) by done. Qed.

(** The rune of a prefix is the rune of the text or an error of width 1. *)
Lemma DecodeRune_take j p :
  1 <= j -> DecodeRune (take j p) = DecodeRune p \/ DecodeRune (take j p) = (RuneError, 1).
Proof.
  intros Hj. destruct p as [|c0 rest]; [left; by rewrite take_nil|].
  destruct j as [|j]; [lia|]. cbn [take DecodeRune].
  destruct (_ <? RuneSelf)%N; [by left|].
  destruct (first (N_of_ascii c0)) as [[[sz lo] hi]|] eqn:Hf; [|by left].
  apply first_Some in Hf as [Hsz _].
  destruct Hsz as [->|[->| ->]];
    destruct rest as [|c1 [|c2 [|c3 rest3]]]; destruct j as [|[|[|j]]];
    cbn [take length Nat.ltb Nat.leb]; repeat case_match; auto.
Qed.

Lemma IsSpace_RuneError : IsSpace RuneError = false.
Proof. reflexivity. Qed.

Lemma DecodeLastRune_spec p r size :
  p <> [] -> (128 <= at_ p (length p - 1))%N -> DecodeLastRune p = (r, size) ->
  (r, size) = (RuneError, 1) \/
  (1 <= size <= length p /\ DecodeRune (drop (length p - size) p) = (r, size)).
Proof.
  intros Hp Hlast. unfold DecodeLastRune.
  destruct (length p =? 0)%nat eqn:Hl.
  { apply Nat.eqb_eq in Hl. by apply nil_length_inv in Hl. }
  apply Nat.eqb_neq in Hl.
  replace (Z.to_nat (Z.of_nat (length p) - 1)) with (length p - 1) by lia.
  rewrite (proj2 (N.ltb_ge _ _)) by (unfold RuneSelf; lia).
  match goal with |- context [last_start p ?n ?st ?lim] =>
    pose proof (last_start_le p n st lim) as Hle; set (ls := last_start p n st lim) in * end.
  set (st := if (ls <? 0)%Z then 0%Z else ls).
  assert (Hst : (0 <= st < Z.of_nat (length p))%Z).
  { unfold st. destruct (ls <? 0)%Z eqn:Hneg; [lia|]. apply Z.ltb_ge in Hneg. lia. }
  destruct (DecodeRune _) as [r' size'] eqn:Hd.
  case_bool_decide as Hs; intros [= <- <-]; [|by left].
  right.
  assert (Hne : drop (Z.to_nat st) p <> []).
  { intros Hn. apply (f_equal length) in Hn. rewrite length_drop in Hn. simpl in Hn. lia. }
  pose proof (DecodeRune_size _ Hne) as Hsz. rewrite Hd in Hsz. cbn [snd] in Hsz.
  split; [lia|]. replace (length p - size') with (Z.to_nat st) by lia. done.
Qed.

Lemma at_take s e i : i < e -> at_ (take e s) i = at_ s i.
Proof. intros H. unfold at_. by rewrite lookup_take_lt. Qed.

Lemma at_drop s n i : at_ (drop n s) i = at_ s (n + i).
Proof. unfold at_. by rewrite lookup_drop. Qed.

Lemma rune_before_spec s e r size :
  1 <= e <= length s -> rune_before s e = (r, size) ->
  ((at_ s (e - 1) < 128)%N /\ size = 1 /\ r = at_ s (e - 1)) \/
  ((128 <= at_ s (e - 1))%N /\
   ((r, size) = (RuneError, 1) \/
    (1 <= size <= e /\ DecodeRune (drop (e - size) (take e s)) = (r, size)))).
Proof.
  intros He. unfold rune_before. cbn zeta.
  destruct (_ <? RuneSelf)%N eqn:Hlt.
  - apply N.ltb_lt in Hlt. intros [= <- <-]. left. unfold RuneSelf in Hlt. done.
  - apply N.ltb_ge in Hlt. unfold RuneSelf in Hlt. intros Hd. right. split; [done|].
    assert (Hlen : length (take e s) = e) by (rewrite length_take; lia).
    apply DecodeLastRune_spec in Hd.
    + by rewrite Hlen in Hd.
    + intros Hn. rewrite Hn in Hlen. simpl in Hlen. lia.
    + rewrite Hlen, at_take by lia. done.
Qed.

Lemma rune_before_size s e r size :
  1 <= e <= length s -> rune_before s e = (r, size) -> 1 <= size <= e.
Proof.
  intros He Hrb. destruct (rune_before_spec _ _ _ _ He Hrb)
    as [(_ & -> & _)|(_ & [[= -> ->]|[H _]])]; lia.
Qed.

Lemma rune_before_take s e :
  1 <= e <= length s -> rune_before (take e s) e = rune_before s e.
Proof.
  intros He. unfold rune_before. rewrite at_take by lia.
  by rewrite take_take, Nat.min_id.
Qed.

Lemma rune_at_drop s i : rune_at (drop i s) 0 = rune_at s i.
Proof.
  unfold rune_at. rewrite at_drop, Nat.add_0_r, drop_0. done.
Qed.

(** What the loop of [indexFunc] finds is a rune that is no white space. *)
Lemma indexFunc_from_found s f fuel : forall start i,
  indexFunc_from s f false fuel start = Z.of_nat i ->
  i < length s /\ f (fst (rune_at s i)) = false.
Proof.
  induction fuel as [|fuel IH]; intros start i; [simpl; lia|].
  rewrite indexFunc_from_S.
  destruct (length s <=? start)%nat eqn:Hl; [lia|]. apply Nat.leb_gt in Hl.
  destruct (rune_at s start) as [r wid] eqn:Hr.
  destruct (f r) eqn:Hf; cbn [Bool.eqb].
  - apply IH.
  - intros H. assert (i = start) by lia. subst i. by rewrite Hr.
Qed.

(** The loop of [lastIndexFunc] stops after a rune that is no white space,
    and what it has skipped starts with the first byte of a rune. *)
Lemma lastIndexFunc_from_found s fuel : forall i k,
  i <= length s -> boundary s i ->
  lastIndexFunc_from s IsSpace false fuel i = Z.of_nat k ->
  exists e r size, 1 <= e <= i /\ boundary s e /\ rune_before s e = (r, size) /\
                   IsSpace r = false /\ k + size = e.
Proof.
  induction fuel as [|fuel IH]; intros i k Hi Hb; [simpl; lia|].
  rewrite lastIndexFunc_from_S.
  destruct (i =? 0)%nat eqn:Hz; [lia|]. apply Nat.eqb_neq in Hz.
  destruct (rune_before s i) as [r size] eqn:Hrb.
  pose proof (rune_before_size s i r size ltac:(lia) Hrb) as Hsz.
  destruct (IsSpace r) eqn:Hsp; cbn [Bool.eqb].
  - intros H. apply IH in H; [| lia |].
    + destruct H as (e & r' & size' & He & H). exists e, r', size'. split; [lia|done].
    + destruct (rune_before_spec s i r size ltac:(lia) Hrb)
        as [(Hlt & -> & _)|(_ & [[= -> ->]|[_ Hd]])].
      * right. unfold outside. apply orb_true_iff. left. by apply N.ltb_lt.
      * by rewrite IsSpace_RuneError in Hsp.
      * destruct (drop (i - size) (take i s)) as [|c0 rest] eqn:Ed.
        { simpl in Hd. injection Hd as <- <-. by rewrite IsSpace_RuneError in Hsp. }
        right. assert (Hc0 : at_ s (i - size) = N_of_ascii c0).
        { rewrite <- (at_take s i) by lia.
          replace (i - size) with (i - size + 0) at 1 by lia.
          rewrite <- at_drop, Ed. done. }
        rewrite Hc0. apply (DecodeRune_lead _ _ _ _ Hd).
        intros [= -> ->]. by rewrite IsSpace_RuneError in Hsp.
  - intros H. assert (k = i - size) by lia. subst k.
    exists i, r, size. repeat split; (done || lia).
Qed.

(** Where [TrimRightFunc] cuts, given where the loop stopped. *)
Lemma trim_end s e r size k :
  1 <= e <= length s -> boundary s e -> rune_before s e = (r, size) -> k + size = e ->
  (if (0 <=? Z.of_nat k)%Z && (RuneSelf <=? at_ s (Z.to_nat (Z.of_nat k)))%N
   then (Z.of_nat k + Z.of_nat (snd (DecodeRune (drop (Z.to_nat (Z.of_nat k)) s))))%Z
   else (Z.of_nat k + 1)%Z) = Z.of_nat e.
Proof.
  intros He Hb Hrb Hk. rewrite Nat2Z.id.
  rewrite (proj2 (Z.leb_le _ _)) by lia. cbn [andb].
  destruct (rune_before_spec s e r size He Hrb)
    as [(Hlt & -> & _)|(Hge & [[= -> ->]|[Hsz Hd]])].
  - replace k with (e - 1) by lia.
    rewrite (proj2 (N.leb_gt _ _)) by (unfold RuneSelf; lia). lia.
  - replace k with (e - 1) by lia.
    rewrite (proj2 (N.leb_le _ _)) by (unfold RuneSelf; lia).
    destruct (drop (e - 1) s) as [|c0 rest] eqn:Ed.
    { apply (f_equal length) in Ed. rewrite length_drop in Ed. simpl in Ed. lia. }
    assert (Hc0 : at_ s (e - 1) = N_of_ascii c0).
    { replace (e - 1) with (e - 1 + 0) at 1 by lia. by rewrite <- at_drop, Ed. }
    rewrite DecodeRune_alone; [simpl; lia|lia|].
    destruct rest as [|c1 rest']; [by left|right]. exists c1, rest'. split; [done|].
    assert (Hc1 : at_ s e = N_of_ascii c1).
    { replace e with (e - 1 + 1) at 1 by lia. by rewrite <- at_drop, Ed. }
    destruct Hb as [Hb|Hb]; [|by rewrite <- Hc1].
    apply (f_equal length) in Ed. rewrite length_drop in Ed. simpl in Ed. lia.
  - replace (e - size) with k in Hd by lia.
    assert (Hd' : DecodeRune (drop k s) = (r, size)).
    { assert (Et : drop k (take e s) = take size (drop k s)).
      { rewrite take_drop_commute. replace (k + size) with e by lia. done. }
      rewrite Et in Hd.
      destruct (DecodeRune_take size (drop k s) ltac:(lia)) as [H|H].
      - by rewrite <- H.
      - rewrite H in Hd. injection Hd as <- <-.
        destruct (drop k s) as [|c0 rest] eqn:Ed.
        { apply (f_equal length) in Ed. rewrite length_drop in Ed. simpl in Ed. lia. }
        cbn [take] in H. rewrite take_0 in H.
        assert (Hc0 : at_ s k = N_of_ascii c0).
        { replace k with (k + 0) at 1 by lia. by rewrite <- at_drop, Ed. }
        assert (k = e - 1) by lia. subst k.
        apply DecodeRune_alone; [lia|].
        destruct rest as [|c1 rest']; [by left|right]. exists c1, rest'. split; [done|].
        assert (Hc1 : at_ s e = N_of_ascii c1).
        { replace e with (e - 1 + 1) at 1 by lia. by rewrite <- at_drop, Ed. }
        destruct Hb as [Hb|Hb]; [|by rewrite <- Hc1].
        apply (f_equal length) in Ed. rewrite length_drop in Ed. simpl in Ed. lia. }
    rewrite Hd'. cbn [snd].
    destruct (RuneSelf <=? at_ s k)%N eqn:Hk0; [lia|].
    apply N.leb_gt in Hk0. unfold RuneSelf in Hk0.
    destruct (drop k s) as [|c0 rest] eqn:Ed.
    { apply (f_equal length) in Ed. rewrite length_drop in Ed. simpl in Ed. lia. }
    assert (Hc0 : at_ s k = N_of_ascii c0).
    { replace k with (k + 0) at 1 by lia. by rewrite <- at_drop, Ed. }
    rewrite DecodeRune_ascii in Hd' by lia. injection Hd' as <- <-. lia.
Qed.

(** [TrimRightFunc] returns nothing, or the text up to the end of a rune that
    is no white space. *)
Lemma TrimRightFunc_spec s :
  TrimRightFunc s IsSpace = [] \/
  exists e r size, 1 <= e <= length s /\ rune_before s e = (r, size) /\
                   IsSpace r = false /\ TrimRightFunc s IsSpace = take e s.
Proof.
  unfold TrimRightFunc, lastIndexFunc.
  remember (lastIndexFunc_from s IsSpace false (length s) (length s)) as i eqn:Hi.
  symmetry in Hi. destruct (Z_lt_le_dec i 0) as [Hneg|Hpos].
  - left. pose proof (lastIndexFunc_from_range s IsSpace false (length s) (length s) (le_n _)) as H.
    rewrite Hi in H. assert (i = (-1)%Z) as -> by lia. done.
  - right. destruct (Z_of_nat_complete i Hpos) as [k ->].
    apply lastIndexFunc_from_found in Hi as (e & r & size & He & Hb & Hrb & Hsp & Hk);
      [|lia|left; lia].
    exists e, r, size. repeat split; try (done || lia).
    rewrite (trim_end s e r size k He Hb Hrb Hk).
    by rewrite Nat2Z.id.
Qed.

(** A text that ends with a rune that is no white space is left as it is. *)
Lemma TrimRightFunc_take s e r size :
  1 <= e <= length s -> rune_before s e = (r, size) -> IsSpace r = false ->
  TrimRightFunc (take e s) IsSpace = take e s.
Proof.
  intros He Hrb Hsp.
  assert (Hlen : length (take e s) = e) by (rewrite length_take; lia).
  assert (Hrb' : rune_before (take e s) e = (r, size)) by (by rewrite rune_before_take).
  pose proof (rune_before_size _ _ _ _ He Hrb) as Hsz.
  unfold TrimRightFunc, lastIndexFunc. rewrite Hlen.
  destruct e as [|e']; [lia|]. rewrite lastIndexFunc_from_S.
  cbn [Nat.eqb]. rewrite Hrb', Hsp. cbn [Bool.eqb].
  rewrite (trim_end (take (S e') s) (S e') r size (S e' - size)); [| lia | left; lia | done | lia].
  rewrite Nat2Z.id. rewrite <- Hlen at 1. by rewrite firstn_all.
Qed.

Lemma TrimLeftFunc_take s e :
  1 <= e -> s <> [] -> indexFunc s IsSpace false = 0%Z ->
  TrimLeftFunc (take e s) IsSpace = take e s.
Proof.
  intros He Hs Hi. unfold TrimLeftFunc, indexFunc in *.
  destruct s as [|c0 rest]; [done|]. destruct e as [|e']; [lia|].
  change 0%Z with (Z.of_nat 0) in Hi. apply indexFunc_from_found in Hi as [_ Hi].
  cbn [take length]. rewrite indexFunc_from_S. cbn [length Nat.leb].
  assert (Hr : IsSpace (fst (rune_at (c0 :: take e' rest) 0)) = false).
  { revert Hi. unfold rune_at. cbn [at_ lookup list_lookup]. rewrite !drop_0.
    change (at_ (c0 :: take e' rest) 0) with (N_of_ascii c0).
    change (at_ (c0 :: rest) 0) with (N_of_ascii c0).
    destruct (_ <? RuneSelf)%N; [done|].
    destruct (DecodeRune_take (S e') (c0 :: rest) ltac:(lia)) as [H|H];
      cbn [take] in H; rewrite H; [done|]. intros _. reflexivity. }
  clear Hi. destruct (rune_at _ 0) as [r wid]. cbn [fst] in Hr. rewrite Hr. cbn [Bool.eqb].
  cbn [Z.of_nat Z.eqb Z.to_nat]. by rewrite drop_0.
Qed.

(** Trimming twice is trimming once. *)
Lemma TrimFunc_idem s : TrimFunc (TrimFunc s IsSpace) IsSpace = TrimFunc s IsSpace.
Proof.
  unfold TrimFunc at 2 3.
  destruct (TrimLeftFunc_cases s IsSpace) as [->|(i & Hi & Hix & ->)]; [reflexivity|].
  assert (Hlen : length (drop i s) = S (length s - i - 1)) by (rewrite length_drop; lia).
  assert (Hne : drop i s <> []).
  { intros Hn. rewrite Hn in Hlen. done. }
  assert (Hix' : indexFunc (drop i s) IsSpace false = 0%Z).
  { unfold indexFunc in *. apply indexFunc_from_found in Hix as [_ Hsp].
    rewrite Hlen, indexFunc_from_S.
    rewrite (proj2 (Nat.leb_gt _ _)) by (rewrite Hlen; lia). rewrite rune_at_drop.
    destruct (rune_at s i) as [r wid]. cbn [fst] in Hsp. by rewrite Hsp. }
  destruct (TrimRightFunc_spec (drop i s)) as [->|(e & r & size & He & Hrb & Hsp & ->)];
    [reflexivity|].
  unfold TrimFunc. rewrite (TrimLeftFunc_take (drop i s) e) by (done || lia).
  by apply (TrimRightFunc_take (drop i s) e r size).
Qed.

Lemma TrimSpace_idem (s : string) : TrimSpace (TrimSpace s) = TrimSpace s.
Proof.
  unfold TrimSpace. rewrite String.list_ascii_of_string_of_list_ascii.
  by rewrite TrimFunc_idem.
Qed.

Lemma ends_with_space_last s : forall t c,
  String.list_ascii_of_string s = t ++ [c] -> ends_with_space s = isSpace c.
Proof.
  induction s as [|x s IH]; intros t c H.
  - by destruct t.
  - destruct s as [|y s'].
    + destruct t as [|? [|? ?]]; simplify_eq/=. done.
    + destruct t as [|x' t']; [simplify_eq/=|].
      cbn [String.list_ascii_of_string app] in H. injection H as _ H.
      cbn [ends_with_space]. by apply (IH t').
Qed.

(** A text that [TrimSpace] leaves as it is neither starts nor ends with
    ASCII white space. *)
Lemma is_trimmed_fixed (s : string) : TrimSpace s = s -> is_trimmed s = true.
Proof.
  intros H. apply (f_equal String.list_ascii_of_string) in H. unfold TrimSpace in H.
  rewrite String.list_ascii_of_string_of_list_ascii in H.
  destruct s as [|c s']; [done|].
  remember (String.list_ascii_of_string (String c s')) as l eqn:El.
  assert (Hl : l = c :: String.list_ascii_of_string s') by (by rewrite El).
  assert (Hnil : TrimRightFunc [] IsSpace = []) by reflexivity.
  unfold TrimFunc in H.
  destruct (TrimLeftFunc_cases l IsSpace) as [E|(i & Hi & Hix & Hd)].
  { rewrite E, Hnil in H. by rewrite Hl in H. }
  rewrite Hd in H. assert (i = 0).
  { apply (f_equal length) in H. unfold TrimRightFunc in H.
    rewrite length_take, length_drop in H. lia. }
  subst i. rewrite drop_0 in H. clear Hd.
  unfold indexFunc in Hix. change 0%Z with (Z.of_nat 0) in Hix.
  apply indexFunc_from_found in Hix as [_ Hfirst].
  destruct (TrimRightFunc_spec l) as [E|(e & r & size & He & Hrb & Hsp & Ht)].
  { rewrite E in H. by rewrite Hl in H. }
  rewrite H in Ht. assert (e = length l).
  { apply (f_equal length) in Ht. rewrite length_take in Ht. lia. }
  subst e. clear Ht H.
  unfold is_trimmed. apply andb_true_iff. split; apply negb_true_iff.
  - cbn [starts_with_space]. destruct (isSpace c) eqn:Hc; [|done]. exfalso.
    apply isSpace_ascii_space in Hc as [Hc1 Hc2].
    revert Hfirst. unfold rune_at. rewrite Hl. change (at_ (c :: _) 0) with (N_of_ascii c).
    rewrite (proj2 (N.ltb_lt _ _)) by done. cbn [fst]. by rewrite Hc2.
  - destruct (exists_last (l:=l)) as (t & x & Ex); [by rewrite Hl|].
    rewrite (ends_with_space_last (String c s') t x) by (by rewrite <- El).
    destruct (isSpace x) eqn:Hx; [|done]. exfalso.
    apply isSpace_ascii_space in Hx as [Hx1 Hx2].
    revert Hrb. unfold rune_before. rewrite Ex, length_app. cbn [length].
    replace (length t + 1 - 1) with (length t) by lia. rewrite at_middle.
    rewrite (proj2 (N.ltb_lt _ _)) by done. intros [= <- <-]. by rewrite Hx2 in Hsp.
Qed.

Lemma is_trimmed_TrimSpace w : is_trimmed (TrimSpace w) = true.
Proof. apply is_trimmed_fixed, TrimSpace_idem. Qed.

(** On ASCII text [xml.EscapeText] works byte by byte. *)
Lemma EscapeText_cons (c : ascii) (s : string) :
  isASCII c = true -> EscapeText (String c s) = escapeByte c +:+ EscapeText s.
Proof.
  intros Hc. unfold escapeByte, EscapeText.
  cbn [String.length String.list_ascii_of_string EscapeText_from DecodeRune].
  unfold isASCII in Hc. unfold RuneSelf. rewrite Hc.
  cbn [take drop EscapeText_from]. by rewrite sapp_nil_r.
Qed.

End Utf8Facts.


(** ** Slices *)

Lemma copy_shift {A} (x : A) (l : list A) :
  exists y, fst (copy (x :: l) l) = l ++ [y].
Proof.
  unfold copy. cbn [fst].
  replace (length (x :: l) `min` length l) with (length l) by (cbn [length]; lia).
  rewrite firstn_all.
  assert (Hd : length (drop (length l) (x :: l)) = 1)
    by (rewrite length_drop; simpl; lia).
  destruct (drop (length l) (x :: l)) as [|y [|z t]]; simpl in Hd; try lia.
  by exists y.
Qed.

Lemma copy_into_empty {A} (src : list A) : fst (copy [] src) = [].
Proof. reflexivity. Qed.

(** ** The pointer view *)

Section PtrFacts.
Import Ptr.

Lemma upd_eq h p f : upd h p f p = f (h p).
Proof. unfold upd. by rewrite decide_True. Qed.

Lemma upd_ne h p f q : q <> p -> upd h p f q = h q.
Proof. intros. unfold upd. by rewrite decide_False. Qed.

Lemma children_upd_parent h p o q :
  children (upd h p (set_parent o) q) = children (h q).
Proof. unfold upd. case_decide; subst; reflexivity. Qed.

Lemma parent_upd_children h p f q :
  parent (upd h p (fun e => set_children (f e) e) q) = parent (h q).
Proof. unfold upd. case_decide; subst; reflexivity. Qed.

Lemma search_absent child l i : child ∉ l -> search child l i = (-1)%Z.
Proof.
  revert i. induction l as [|v l IH]; intros i Hn; simpl; [done|].
  apply not_elem_of_cons in Hn as [Hv Hl].
  rewrite decide_False by congruence. by apply IH.
Qed.

Lemma search_present child l i :
  child ∈ l ->
  exists l1 l2, l = l1 ++ child :: l2 /\ (child ∉ l1) /\
                search child l i = (i + Z.of_nat (length l1))%Z.
Proof.
  revert i. induction l as [|v l IH]; intros i Hin; [by apply elem_of_nil in Hin|].
  simpl. destruct (decide (v = child)) as [->|Hv].
  - exists [], l. repeat split; [apply not_elem_of_nil | simpl; lia].
  - apply elem_of_cons in Hin as [->|Hin]; [done|].
    destruct (IH (i + 1)%Z Hin) as (l1 & l2 & -> & Hn & Hs).
    exists (v :: l1), l2. repeat split.
    + apply not_elem_of_cons; split; [congruence|done].
    + rewrite Hs. simpl length. lia.
Qed.

(** What the slice surgery of [RemoveChild] leaves in [node.children]. *)
Lemma RemoveChild_found h node child l1 l2 :
  children (h node) = l1 ++ child :: l2 -> child ∉ l1 ->
  RemoveChild h node child =
    (upd (upd h node (set_children (l1 ++ l2))) child (set_parent None), child).
Proof.
  intros Hl Hn. unfold RemoveChild.
  destruct (search_present child (children (h node)) 0) as (k1 & k2 & Hk & Hkn & Hs).
  { rewrite Hl. apply elem_of_app; right; apply elem_of_cons; by left. }
  assert (k1 = l1 /\ k2 = l2) as [-> ->].
  { rewrite Hl in Hk. clear -Hk Hn Hkn. revert k1 Hk Hkn.
    induction l1 as [|a l1 IH]; intros [|b k1] Hk Hkn; simpl in *.
    - by inversion Hk.
    - inversion Hk; subst. exfalso. apply Hkn. by left.
    - inversion Hk; subst. exfalso. apply Hn. by left.
    - inversion Hk; subst.
      apply not_elem_of_cons in Hn as [? Hn].
      apply not_elem_of_cons in Hkn as [? Hkn].
      destruct (IH Hn k1 H1 Hkn) as [-> ->]. done. }
  rewrite Hs. rewrite decide_False by lia.
  replace (Z.to_nat (0 + Z.of_nat (length l1))) with (length l1) by lia.
  replace (Z.to_nat (0 + Z.of_nat (length l1) + 1)) with (S (length l1)) by lia.
  rewrite Hl.
  rewrite take_app_length.
  rewrite drop_app_length.
  replace (S (length l1)) with (length (l1 ++ [child])) by (rewrite length_app; simpl; lia).
  replace (l1 ++ child :: l2) with ((l1 ++ [child]) ++ l2) by (by rewrite <- app_assoc).
  rewrite drop_app_length.
  destruct (copy_shift child l2) as [y ->].
  rewrite app_assoc. rewrite length_app. simpl length.
  replace (length (l1 ++ l2) + 1 - 1) with (length (l1 ++ l2)) by lia.
  by rewrite take_app_length.
Qed.

Lemma RemoveChild_absent h node child :
  child ∉ children (h node) -> RemoveChild h node child = (h, node).
Proof.
  intros Hn. unfold RemoveChild. rewrite (search_absent _ _ _ Hn).
  by rewrite decide_True.
Qed.

Lemma split_first (child : ptr) l :
  child ∈ l -> exists l1 l2, l = l1 ++ child :: l2 /\ (child ∉ l1).
Proof.
  intros Hin. destruct (search_present child l 0 Hin) as (l1 & l2 & ? & ? & _).
  eauto.
Qed.

Lemma NoDup_remove_mid (c : ptr) l1 l2 :
  NoDup (l1 ++ c :: l2) ->
  NoDup (l1 ++ l2) /\ (c ∉ l1 ++ l2) /\
  forall x, x ∈ l1 ++ l2 <-> x <> c /\ x ∈ l1 ++ c :: l2.
Proof.
  intros Hnd. apply NoDup_app in Hnd as (H1 & H12 & H2).
  apply NoDup_cons in H2 as [Hc2 H2].
  assert (Hc1 : c ∉ l1) by (intros Hc; apply (H12 _ Hc); by left).
  split; [|split].
  - apply NoDup_app. repeat split; [done| |done].
    intros x Hx Hx2. apply (H12 _ Hx). by right.
  - intros Hc. apply elem_of_app in Hc as [?|?]; done.
  - intros x. rewrite !elem_of_app, elem_of_cons. split.
    + intros [Hx|Hx]; (split; [intros ->; done | tauto]).
    + intros [Hne [Hx|[->|Hx]]]; tauto.
Qed.

Lemma Inv_empty_heap : Inv empty_heap.
Proof.
  intros p. split; [apply NoDup_nil_2|].
  intros c. simpl. split; [intros H; by apply elem_of_nil in H | done].
Qed.

Lemma RemoveChild_Inv h node child :
  Inv h -> Inv (fst (RemoveChild h node child)).
Proof.
  intros HI.
  destruct (decide (child ∈ children (h node))) as [Hin|Hn];
    [|by rewrite RemoveChild_absent].
  destruct (split_first _ _ Hin) as (l1 & l2 & Hl & Hn1).
  rewrite (RemoveChild_found _ _ _ _ _ Hl Hn1). cbn [fst].
  assert (Hpc : parent (h child) = Some node) by (by apply HI).
  destruct (HI node) as [Hnd Hmem]. rewrite Hl in Hnd.
  destruct (NoDup_remove_mid _ _ _ Hnd) as (Hnd' & Hc' & Hx').
  intros p. rewrite children_upd_parent.
  destruct (decide (p = node)) as [->|Hp].
  - rewrite upd_eq. cbn [children set_children]. split; [done|].
    intros c. rewrite Hx', <- Hl, Hmem.
    destruct (decide (c = child)) as [->|Hc].
    + rewrite upd_eq. cbn. split; [intros [? _]; done | done].
    + rewrite upd_ne by done. rewrite parent_upd_children with (f := fun _ => l1 ++ l2).
      tauto.
  - rewrite upd_ne by done. destruct (HI p) as [Hndp Hmemp]. split; [done|].
    intros c. rewrite Hmemp.
    destruct (decide (c = child)) as [->|Hc].
    + rewrite upd_eq. cbn. rewrite Hpc. split; [congruence | done].
    + rewrite upd_ne by done.
      by rewrite parent_upd_children with (f := fun _ => l1 ++ l2).
Qed.

Lemma RemoveChild_detaches h node child :
  Inv h -> parent (h child) = Some node ->
  parent (fst (RemoveChild h node child) child) = None.
Proof.
  intros HI Hp. assert (Hin : child ∈ children (h node)) by (by apply HI).
  destruct (split_first _ _ Hin) as (l1 & l2 & Hl & Hn1).
  rewrite (RemoveChild_found _ _ _ _ _ Hl Hn1). cbn [fst].
  by rewrite upd_eq.
Qed.

Lemma attach_children h node child o q :
  children (upd (upd h child (set_parent o)) node
              (fun e => set_children (children e ++ [child]) e) q) =
  if decide (q = node) then children (h node) ++ [child] else children (h q).
Proof.
  case_decide as Hq.
  - subst q. rewrite upd_eq. cbn. by rewrite children_upd_parent.
  - rewrite upd_ne by done. by rewrite children_upd_parent.
Qed.

(** The last two assignments of [AddChild], on a detached child. *)
Lemma attach_Inv h node child :
  Inv h -> parent (h child) = None ->
  Inv (upd (upd h child (set_parent (Some node))) node
           (fun e => set_children (children e ++ [child]) e)).
Proof.
  intros HI Hp.
  assert (Hfree : forall p, child ∉ children (h p)).
  { intros p Hin. apply HI in Hin. congruence. }
  intros p.
  rewrite attach_children. destruct (HI p) as [Hnd Hmem].
  case_decide as Hq.
  - subst p. split.
    + apply NoDup_app. repeat split; [done| |apply NoDup_singleton].
      intros x Hx Hx'. apply list_elem_of_singleton in Hx' as ->. by apply (Hfree node).
    + intros c. rewrite parent_upd_children with (f := fun e => children e ++ [child]).
      rewrite elem_of_app, list_elem_of_singleton.
      destruct (decide (c = child)) as [->|Hc].
      * rewrite upd_eq. cbn. tauto.
      * rewrite upd_ne by done. rewrite Hmem. tauto.
  - split; [done|]. intros c.
    rewrite parent_upd_children with (f := fun e => children e ++ [child]).
    destruct (decide (c = child)) as [->|Hc].
    + rewrite upd_eq. cbn. split; [intros Hin; by apply Hfree in Hin | congruence].
    + rewrite upd_ne by done. apply Hmem.
Qed.

(** On a child without parent, [AddChild] appends the child and sets its
    parent; the other children sequences do not change. *)
Lemma AddChild_detached h node child :
  parent (h child) = None ->
  children (AddChild h node child node) = children (h node) ++ [child] /\
  parent (AddChild h node child child) = Some node /\
  forall q, q <> node -> children (AddChild h node child q) = children (h q).
Proof.
  intros Hp. unfold AddChild. rewrite Hp. split; [|split].
  - rewrite attach_children. by rewrite decide_True.
  - rewrite parent_upd_children with (f := fun e => children e ++ [child]).
    by rewrite upd_eq.
  - intros q Hq. rewrite attach_children. by rewrite decide_False.
Qed.

Lemma AddChild_Inv h node child : Inv h -> Inv (AddChild h node child).
Proof.
  intros HI. unfold AddChild.
  destruct (parent (h child)) as [q|] eqn:Hp.
  - apply attach_Inv; [by apply RemoveChild_Inv | by apply RemoveChild_detaches].
  - by apply attach_Inv.
Qed.

Lemma Inv_one_parent h p1 p2 c :
  Inv h -> c ∈ children (h p1) -> c ∈ children (h p2) -> p1 = p2.
Proof. intros HI H1 H2. apply HI in H1. apply HI in H2. congruence. Qed.

End PtrFacts.

(** ** Claims about the pointer view *)

(** C2 (the code departs from it). [Children] is documented to return all
    the children of the node.  The slice it builds has length 0, so [copy]
    moves nothing into it: whatever the children of [node] are, the result
    is empty, and it differs from the children sequence as soon as the
    element has a child (here the store obtained by attaching element 1 to
    element 0). *)
Theorem Children_is_always_empty :
  (forall (h : Ptr.Heap) (node : Ptr.ptr), Ptr.Children h node = []) /\
  Ptr.children (Ptr.AddChild Ptr.empty_heap 0 1 0) = [1] /\
  Ptr.Children (Ptr.AddChild Ptr.empty_heap 0 1) 0 = [].
Proof.
  split; [|split]; [|reflexivity|reflexivity].
  intros h node. unfold Ptr.Children. apply copy_into_empty.
Qed.

Section Reparenting.
Import Ptr.

Lemma AddChild_fields h node child :
  Inv h ->
  parent (AddChild h node child child) = Some node /\
  forall q, parent (h child) = Some q -> q <> node ->
    S (length (children (AddChild h node child q))) = length (children (h q)) /\
    (child ∉ children (AddChild h node child q)) /\
    children (AddChild h node child node) = children (h node) ++ [child].
Proof.
  intros HI. split.
  - unfold AddChild. rewrite parent_upd_children with (f := fun e => children e ++ [child]).
    by rewrite upd_eq.
  - intros q Hp Hq.
    assert (Hin : child ∈ children (h q)) by (by apply HI).
    destruct (split_first _ _ Hin) as (l1 & l2 & Hl & Hn1).
    destruct (HI q) as [Hnd _]. rewrite Hl in Hnd.
    destruct (NoDup_remove_mid _ _ _ Hnd) as (_ & Hc' & _).
    unfold AddChild. rewrite Hp, (RemoveChild_found _ _ _ _ _ Hl Hn1). cbn [fst].
    rewrite !attach_children.
    rewrite decide_False by done. rewrite decide_True by done.
    rewrite !children_upd_parent. rewrite upd_eq, upd_ne by done.
    cbn [children set_children].
    repeat split; [|done].
    rewrite Hl, !length_app. simpl. lia.
Qed.

End Reparenting.

(** C6. [AddChild] and [RemoveChild] keep the parent/children invariant.
    After [AddChild] the parent of the child is the new node; if the child
    was attached to another parent [q], that parent has one child fewer and
    no longer lists the child, and the new parent's children are its former
    children followed by the child; and in the resulting store no element is
    among the children of two parents. *)
Theorem AddChild_RemoveChild_keep_invariant (h : Ptr.Heap) (node child : Ptr.ptr) :
  Ptr.Inv h ->
  Ptr.Inv (Ptr.AddChild h node child) /\
  Ptr.Inv (fst (Ptr.RemoveChild h node child)) /\
  Ptr.parent (Ptr.AddChild h node child child) = Some node /\
  (forall q, Ptr.parent (h child) = Some q -> q <> node ->
     S (length (Ptr.children (Ptr.AddChild h node child q)))
       = length (Ptr.children (h q)) /\
     (child ∉ Ptr.children (Ptr.AddChild h node child q)) /\
     Ptr.children (Ptr.AddChild h node child node)
       = Ptr.children (h node) ++ [child]) /\
  (forall p1 p2 c,
     c ∈ Ptr.children (Ptr.AddChild h node child p1) ->
     c ∈ Ptr.children (Ptr.AddChild h node child p2) -> p1 = p2).
Proof.
  intros HI.
  pose proof (AddChild_Inv h node child HI) as HA.
  destruct (AddChild_fields h node child HI) as [Hp Hq].
  split; [exact HA|].
  split; [by apply RemoveChild_Inv|].
  split; [exact Hp|].
  split; [exact Hq|].
  intros p1 p2 c. by apply Inv_one_parent.
Qed.

(** Element 2 is a child of element 0 and is then added to element 1. *)
Lemma AddChild_RemoveChild_keep_invariant_witness :
  Ptr.Inv (Ptr.AddChild Ptr.empty_heap 0 2) /\
  Ptr.Inv (Ptr.AddChild (Ptr.AddChild Ptr.empty_heap 0 2) 1 2) /\
  Ptr.children (Ptr.AddChild (Ptr.AddChild Ptr.empty_heap 0 2) 1 2 0) = [] /\
  Ptr.children (Ptr.AddChild (Ptr.AddChild Ptr.empty_heap 0 2) 1 2 1) = [2].
Proof.
  assert (HI : Ptr.Inv (Ptr.AddChild Ptr.empty_heap 0 2))
    by (apply AddChild_Inv, Inv_empty_heap).
  split; [exact HI|].
  split; [|split; reflexivity].
  exact (proj1 (AddChild_RemoveChild_keep_invariant
                  (Ptr.AddChild Ptr.empty_heap 0 2) 1 2 HI)).
Defined.

(** ** The tree builder *)

Section ParserFacts.

(** The loop goes on with the remaining tokens [ts] on some element. *)
Local Ltac continue_with IH ts Hf :=
  match goal with
  | |- context [parse_loop _ _ ?r] =>
      let x := fresh "r" in
      let Hr := fresh "Hr" in
      destruct (IH ts r Hf) as (x & -> & Hr); exists x; split; [done|];
      destruct x as [? ?|?]; [|done]; destruct Hr; split; [lia|done]
  end.

Lemma parse_loop_fuel fuel ts e res :
  length ts < fuel ->
  exists r, parse_loop fuel (mkDecoder ts e) res = Some r /\
    match r with
    | Ok _ d' => length (pending d') < length ts /\ final d' = e
    | Err e' => e' = e
    end.
Proof.
  revert ts res. induction fuel as [|fuel IH]; intros ts res Hf; [lia|].
  destruct ts as [|t ts]; simpl.
  - eexists; split; [reflexivity|done].
  - simpl in Hf. assert (Hf' : length ts < fuel) by lia.
    destruct t as [name attr|n|rt|c|tg i|c].
    + destruct (IH ts (fold_left AddAttr attr (CreateElement name)) Hf')
        as ([child [ts' e']|e'] & -> & Hr); simpl.
      * simpl in Hr. destruct Hr as [Hl ->].
        destruct (IH ts' (AddChild res child)) as (r & -> & Hr); [lia|].
        exists r; split; [done|].
        destruct r as [? d'|?]; [|done]. destruct Hr; split; [lia|done].
      * subst. eexists; split; [reflexivity|done].
    + eexists; split; [reflexivity|]. simpl. split; [lia|done].
    + case_bool_decide; continue_with IH ts Hf'.
    + continue_with IH ts Hf'.
    + continue_with IH ts Hf'.
    + continue_with IH ts Hf'.
Qed.

Lemma parse_loop_fuel_final fuel ts e res r d' :
  parse_loop fuel (mkDecoder ts e) res = Some (Ok r d') -> final d' = e.
Proof.
  revert ts res r d'. induction fuel as [|fuel IH]; intros ts res r d' Hp; [done|].
  destruct ts as [|t ts]; simpl in Hp; [done|].
  destruct t as [name attr|n|rt|c|tg i|c].
  - destruct (parse_loop fuel _ (fold_left AddAttr attr (CreateElement name)))
      as [[child [ts' e']|e']|] eqn:Hin; simpl in Hp; [|done..].
    apply IH in Hin. simpl in Hin. subst e'. by apply IH in Hp.
  - by inversion Hp.
  - case_bool_decide; by apply IH in Hp.
  - by apply IH in Hp.
  - by apply IH in Hp.
  - by apply IH in Hp.
Qed.

Lemma parse_loop_unclosed fuel ts e res d :
  length ts < fuel -> closes d ts = false ->
  exists r, parse_loop fuel (mkDecoder ts e) res = Some r /\
    match r with
    | Err e' => e' = e
    | Ok _ d' => exists d0, d = S d0 /\ closes d0 (pending d') = false /\
                            final d' = e /\ length (pending d') < length ts
    end.
Proof.
  revert ts res d. induction fuel as [|fuel IH]; intros ts res d Hf Hc; [lia|].
  destruct ts as [|t ts]; simpl.
  - eexists; split; [reflexivity|done].
  - simpl in Hf. assert (Hf' : length ts < fuel) by lia.
    destruct t as [name attr|n|rt|c|tg i|c]; simpl in Hc.
    + destruct (IH ts (fold_left AddAttr attr (CreateElement name)) (S d) Hf' Hc)
        as ([child [ts' e']|e'] & -> & Hr); simpl.
      * destruct Hr as (d0 & [= <-] & Hc' & He & Hl). simpl in *. subst e'.
        destruct (IH ts' (AddChild res child) d) as (r & -> & Hr); [lia|done|].
        exists r; split; [done|].
        destruct r as [? d'|?]; [|done].
        destruct Hr as (d1 & ? & ? & ? & ?). exists d1. repeat split; [done..|lia].
      * subst. eexists; split; [reflexivity|done].
    + destruct d as [|d0]; [done|].
      eexists; split; [reflexivity|]. exists d0. simpl. repeat split; [done|lia].
    + case_bool_decide.
      all: match goal with
           | |- context [parse_loop _ _ ?r] =>
               destruct (IH ts r d Hf' Hc) as (x & -> & Hr); exists x; split; [done|];
               destruct x as [? ?|?]; [|done];
               destruct Hr as (d1 & ? & ? & ? & ?); exists d1; repeat split; [done..|lia]
           end.
    + destruct (IH ts res d Hf' Hc) as (x & -> & Hr); exists x; split; [done|];
        destruct x as [? ?|?]; [|done];
        destruct Hr as (d1 & ? & ? & ? & ?); exists d1; repeat split; [done..|lia].
    + destruct (IH ts res d Hf' Hc) as (x & -> & Hr); exists x; split; [done|];
        destruct x as [? ?|?]; [|done];
        destruct Hr as (d1 & ? & ? & ? & ?); exists d1; repeat split; [done..|lia].
    + destruct (IH ts res d Hf' Hc) as (x & -> & Hr); exists x; split; [done|];
        destruct x as [? ?|?]; [|done];
        destruct Hr as (d1 & ? & ? & ? & ?); exists d1; repeat split; [done..|lia].
Qed.

(** An element read to its end-tag takes one level off the nesting. *)
Lemma parse_loop_open_after fuel ts e res r d' :
  parse_loop fuel (mkDecoder ts e) res = Some (Ok r d') ->
  forall d, open_after (S d) ts = open_after d (pending d').
Proof.
  revert ts res r d'. induction fuel as [|fuel IH]; intros ts res r d' Hp d; [done|].
  destruct ts as [|t ts]; simpl in Hp; [done|].
  destruct t as [name attr|n|rt|c|tg i|c]; simpl.
  - destruct (parse_loop fuel _ (fold_left AddAttr attr (CreateElement name)))
      as [[child [ts' e']|e']|] eqn:Hin; simpl in Hp; [|done..].
    pose proof (parse_loop_fuel_final _ _ _ _ _ _ Hin) as He. simpl in He. subst e'.
    rewrite (IH _ _ _ _ Hin (S d)). simpl. by apply (IH _ _ _ _ Hp).
  - by inversion Hp.
  - case_bool_decide; by apply (IH _ _ _ _ Hp).
  - by apply (IH _ _ _ _ Hp).
  - by apply (IH _ _ _ _ Hp).
  - by apply (IH _ _ _ _ Hp).
Qed.

(** The top-level loop returns, and its error is nil or the stream's. *)
Lemma elements_loop_total fuel ts e acc :
  length ts < fuel ->
  exists els err, elements_loop fuel (mkDecoder ts e) acc = Some (els, err) /\
                  (err = None \/ err = Some e).
Proof.
  revert ts acc. induction fuel as [|fuel IH]; intros ts acc Hf; [lia|].
  destruct ts as [|t ts]; simpl.
  - case_decide; eauto.
  - simpl in Hf. assert (Hf' : length ts < fuel) by lia.
    destruct t as [name attr|n|rt|c|tg i|c]; try by apply IH.
    unfold parseElement.
    destruct (parse_loop_fuel fuel ts e (fold_left AddAttr attr (CreateElement name)) Hf')
      as ([child [ts' e']|e'] & -> & Hr); simpl in *.
    + destruct Hr as [Hl ->]. apply IH. lia.
    + subst. eauto.
Qed.

Lemma elements_loop_truncated fuel ts e acc :
  length ts < fuel -> 0 < open_after 0 ts ->
  exists els, elements_loop fuel (mkDecoder ts e) acc = Some (els, Some e).
Proof.
  revert ts acc. induction fuel as [|fuel IH]; intros ts acc Hf Ho; [lia|].
  destruct ts as [|t ts]; simpl in *; [lia|].
  assert (Hf' : length ts < fuel) by lia.
  destruct t as [name attr|n|rt|c|tg i|c]; try by apply IH.
  unfold parseElement.
  destruct (parse_loop_fuel fuel ts e (fold_left AddAttr attr (CreateElement name)) Hf')
    as ([child [ts' e']|e'] & Hp & Hr); rewrite Hp; simpl in *.
  - destruct Hr as [Hl ->]. apply IH; [lia|].
    by rewrite (parse_loop_open_after _ _ _ _ _ _ Hp 0) in Ho.
  - subst. eauto.
Qed.

(** [Body] describes what the loop of [parseElement] computes. *)
Lemma Body_parse ts r r' :
  Body ts r r' ->
  forall fuel n rest e,
    length (ts ++ EndElement n :: rest) < fuel ->
    parse_loop fuel (mkDecoder (ts ++ EndElement n :: rest) e) r
    = Some (Ok r' (mkDecoder rest e)).
Proof.
  induction 1 as [r|w ts r r' _ IH|name attr tsc n0 child ts r r' _ IH1 _ IH2
                 |c ts r r' _ IH|t i ts r r' _ IH|c ts r r' _ IH];
    intros fuel n rest e Hf; (destruct fuel as [|fuel]; [lia|]);
    rewrite <- ?app_comm_cons in *; cbn [length] in Hf;
    cbn [parse_loop Token_ pending final].
  - done.
  - destruct (bool_decide (0 < String.length (TrimSpace w))); apply IH; lia.
  - rewrite <- app_assoc, <- app_comm_cons.
    rewrite <- app_assoc, <- app_comm_cons in Hf.
    rewrite length_app in Hf. cbn [length] in Hf.
    rewrite IH1 by (rewrite length_app; cbn [length]; lia).
    simpl. apply IH2. lia.
  - apply IH. lia.
  - apply IH. lia.
  - apply IH. lia.
Qed.

Lemma elements_loop_groups groups els :
  Forall2 ElementTokens groups els ->
  forall fuel acc,
    length (concat groups) < fuel ->
    elements_loop fuel (mkDecoder (concat groups) io_EOF) acc = Some (acc ++ els, None).
Proof.
  induction 1 as [|g el groups els (name & attr & body & n & -> & HB) _ IH];
    intros fuel acc Hf; (destruct fuel as [|fuel]; [lia|]); simpl in *.
  - by rewrite app_nil_r.
  - unfold parseElement. rewrite <- app_assoc. simpl.
    rewrite (Body_parse _ _ _ HB).
    + simpl. rewrite IH; [by rewrite <- app_assoc|].
      rewrite !length_app in Hf. simpl in Hf. lia.
    + rewrite !length_app in *. simpl in *. lia.
Qed.

End ParserFacts.

(** ** The encoder *)

(** Induction on an element with its subtree. *)
Lemma Element_ind' (P : Element -> Prop) :
  (forall n cs c a, Forall P cs -> P (mkElement n cs c a)) ->
  forall e, P e.
Proof.
  intros H.
  refine (fix IH (e : Element) : P e :=
            match e with
            | mkElement n cs c a =>
                H n cs c a
                  ((fix go (l : list Element) : Forall P l :=
                      match l with
                      | [] => Forall_nil_2 P
                      | x :: l' => Forall_cons_2 P x l' (IH x) (go l')
                      end) cs)
            end).
Qed.

Section EncoderFacts.

Lemma WriteString_WriteString a b e :
  WriteString b (WriteString a e) = WriteString (a +:+ b) e.
Proof. unfold WriteString. simpl. by rewrite sapp_assoc. Qed.

Lemma WriteString_empty e : WriteString EmptyString e = e.
Proof. destruct e. unfold WriteString. simpl. by rewrite sapp_nil_r. Qed.

Lemma concat_strings_app l1 l2 :
  concat_strings (l1 ++ l2) = concat_strings l1 +:+ concat_strings l2.
Proof.
  induction l1 as [|x l1 IH]; [done|]. simpl. by rewrite IH, sapp_assoc.
Qed.

(** *** Registration *)

Lemma addNamespace_fields ns p e :
  out (addNamespace ns p e) = out e /\ depth (addNamespace ns p e) = depth e /\
  started (addNamespace ns p e) = started e /\ pretty (addNamespace ns p e) = pretty e.
Proof.
  unfold addNamespace. case_decide; [done|].
  destruct (nsURLMap e !! ns); [done|]. by case_decide.
Qed.

Lemma addNamespace_keeps ns p e u :
  is_Some (nsURLMap e !! u) -> is_Some (nsURLMap (addNamespace ns p e) !! u).
Proof.
  intros Hu. unfold addNamespace. case_decide; [done|].
  destruct (nsURLMap e !! ns) eqn:Hns; [done|].
  assert (u <> ns) by (intros ->; rewrite Hns in Hu; by destruct Hu).
  case_decide; simpl; by rewrite lookup_insert_ne.
Qed.

Lemma addNamespace_registers ns p e :
  ns <> EmptyString -> is_Some (nsURLMap (addNamespace ns p e) !! ns).
Proof.
  intros Hns. unfold addNamespace. rewrite decide_False by done.
  destruct (nsURLMap e !! ns) eqn:Hl; [by rewrite Hl|].
  case_decide; simpl; rewrite lookup_insert_eq; eauto.
Qed.

Lemma kept_refl e : kept e e.
Proof. by repeat split. Qed.

Lemma kept_trans e1 e2 e3 : kept e1 e2 -> kept e2 e3 -> kept e1 e3.
Proof.
  intros (? & ? & ? & ? & H12) (? & ? & ? & ? & H23).
  repeat split; [congruence..|]. intros u Hu. by apply H23, H12.
Qed.

Lemma kept_addNamespace ns p e : kept e (addNamespace ns p e).
Proof.
  destruct (addNamespace_fields ns p e) as (? & ? & ? & ?).
  repeat split; [done..|]. intros u. apply addNamespace_keeps.
Qed.

Lemma kept_fold_left {A} (f : Encoder -> A -> Encoder) l e :
  (forall e a, kept e (f e a)) -> kept e (fold_left f l e).
Proof.
  intros Hf. revert e. induction l as [|a l IH]; intros e; [apply kept_refl|].
  simpl. eapply kept_trans; [apply Hf|apply IH].
Qed.

Lemma addNamespaces_eq node e :
  addNamespaces node e =
  fold_left (fun e c => addNamespaces c e) (children node)
    (fold_left (fun e a => addNamespace (xml.Space (xml.AName a)) EmptyString e)
       (Attributes node)
       (addNamespace (xml.Space (Name node)) EmptyString
          (fold_left (fun e a =>
                        if decide (xml.Space (xml.AName a) = "xmlns")
                        then addNamespace (xml.Value a) (xml.Local (xml.AName a)) e
                        else e)
                     (Attributes node) e))).
Proof. by destruct node. Qed.

Lemma kept_children cs :
  Forall (fun c => forall e, kept e (addNamespaces c e)) cs ->
  forall e, kept e (fold_left (fun e c => addNamespaces c e) cs e).
Proof.
  induction 1 as [|x l Hx _ IHl]; intros e; [apply kept_refl|].
  simpl. eapply kept_trans; [apply Hx|apply IHl].
Qed.

Lemma kept_register_attrs (l : list xml.Attr) e :
  kept e (fold_left (fun e a => addNamespace (xml.Space (xml.AName a)) EmptyString e) l e).
Proof.
  apply kept_fold_left with
    (f := fun e a => addNamespace (xml.Space (xml.AName a)) EmptyString e).
  intros. apply kept_addNamespace.
Qed.

Lemma kept_addNamespaces node : forall e, kept e (addNamespaces node e).
Proof.
  induction node as [n cs c a IH] using Element_ind'. intros e.
  rewrite addNamespaces_eq. cbn [children Attributes Name].
  eapply kept_trans; [|apply (kept_children cs IH)].
  eapply kept_trans; [|apply kept_register_attrs].
  eapply kept_trans; [|apply kept_addNamespace].
  apply kept_fold_left with (f := fun e a =>
      if decide (xml.Space (xml.AName a) = "xmlns")
      then addNamespace (xml.Value a) (xml.Local (xml.AName a)) e else e).
  intros e0 a0. case_decide; [apply kept_addNamespace|apply kept_refl].
Qed.

Lemma kept_all_children cs e :
  kept e (fold_left (fun e c => addNamespaces c e) cs e).
Proof.
  apply kept_children. apply Forall_forall. intros. apply kept_addNamespaces.
Qed.

Lemma covered_kept e e' name :
  kept e e' -> covered (nsURLMap e) name -> covered (nsURLMap e') name.
Proof.
  intros (_ & _ & _ & _ & Hk) [?|[?|?]]; [by left|by right; left|right; right; auto].
Qed.

Lemma covered_addNamespace p e name :
  covered (nsURLMap (addNamespace (xml.Space name) p e)) name.
Proof.
  destruct (decide (xml.Space name = EmptyString)); [by left|].
  right; right. by apply addNamespace_registers.
Qed.

Lemma fold_left_registers (l : list xml.Attr) : forall e,
  Forall (fun a => covered
            (nsURLMap (fold_left (fun e a => addNamespace (xml.Space (xml.AName a))
                                                         EmptyString e) l e))
            (xml.AName a)) l.
Proof.
  induction l as [|a l IH]; intros e; [constructor|]. simpl. constructor.
  - eapply covered_kept; [apply kept_register_attrs|apply covered_addNamespace].
  - apply IH.
Qed.

(** Discovery registers every name that the subtree renders. *)
Lemma addNamespaces_covers node : forall e,
  Forall (covered (nsURLMap (addNamespaces node e))) (rendered_names node).
Proof.
  induction node as [n cs c a IH] using Element_ind'. intros e.
  rewrite addNamespaces_eq. cbn [children Attributes Name rendered_names].
  set (e1 := fold_left _ a e).
  set (e2 := addNamespace (xml.Space n) EmptyString e1).
  set (e3 := fold_left _ a e2).
  constructor; [|apply Forall_app; split].
  - eapply covered_kept; [apply kept_all_children|].
    eapply covered_kept; [apply kept_register_attrs|apply covered_addNamespace].
  - apply Forall_map, Forall_forall. intros x [_ Hin]%list_elem_of_filter.
    pose proof (fold_left_registers a e2) as HF.
    rewrite Forall_forall in HF.
    eapply covered_kept; [apply kept_all_children|by apply HF].
  - generalize e3. clear e1 e2 e3.
    induction IH as [|x l Hx _ IHl]; intros e0; [constructor|].
    simpl. apply Forall_app; split.
    + eapply Forall_impl; [apply (Hx e0)|].
      intros y Hy. eapply covered_kept; [apply kept_all_children|apply Hy].
    + apply IHl.
Qed.

(** *** What [Encode] writes *)

Lemma namespacedName_covered e name :
  covered (nsURLMap e) name ->
  namespacedName e name = Some (qname (nsURLMap e) name).
Proof.
  unfold covered, namespacedName, qname. intros H.
  repeat case_decide; try done.
  - by rewrite H1.
  - destruct H as [?|[?|[p Hp]]]; [done..|]. by rewrite Hp.
Qed.


Lemma encodeAttrs_text l : forall e,
  Forall (covered (nsURLMap e))
         (map xml.AName (filter (fun a => xml.Space (xml.AName a) <> "xmlns") l)) ->
  encodeAttrs e l = Some (WriteString (attrsText (nsURLMap e) l) e).
Proof.
  induction l as [|a l IH]; intros e Hc.
  - simpl. by rewrite WriteString_empty.
  - simpl. unfold encodeAttr, attrsText. simpl. unfold attrText at 1.
    case_decide as Hx.
    + simpl. rewrite filter_cons_False in Hc by (intros ?; done).
      by rewrite (IH e Hc).
    + rewrite filter_cons_True in Hc by done. simpl in Hc.
      apply Forall_cons in Hc as [Ha Hc].
      rewrite (namespacedName_covered _ _ Ha). simpl.
      rewrite IH by done. simpl. by rewrite WriteString_WriteString.
Qed.

Lemma fold_left_encodeDecl l : forall e,
  fold_left encodeDecl l e = WriteString (declsText l) e.
Proof.
  induction l as [|d l IH]; intros e; simpl.
  - by rewrite WriteString_empty.
  - rewrite IH. unfold encodeDecl. by rewrite WriteString_WriteString.
Qed.

Lemma Encode_eq_rest ord node e :
  Encode ord node e =
  Encode_rest ord node (negb (started e))
    (if negb (started e) then discovered node e else e).
Proof. by destruct node. Qed.

Lemma each_Encode ord cs :
  Forall (Encode_spec ord) cs ->
  forall e, started e = true ->
    Forall (covered (nsURLMap e)) (concat (map rendered_names cs)) ->
    each (Encode ord) cs e =
    Some (WriteString
            (concat_strings
               (map (fun c => opening (nsURLMap e) (pretty e) (depth e) c +:+
                              closing (nsURLMap e) (pretty e) (depth e) c) cs)) e).
Proof.
  induction 1 as [|x l Hx _ IH]; intros e Hs Hc; simpl.
  - by rewrite WriteString_empty.
  - simpl in Hc. apply Forall_app in Hc as [Hcx Hcl].
    rewrite (Hx e Hs Hcx). simpl.
    rewrite IH by done. simpl. by rewrite WriteString_WriteString.
Qed.

Lemma closing_eq um pr d node :
  closing um pr d node =
  if bool_decide (length (children node) = 0 /\ String.length (Content node) = 0)
  then "/>" +:+ eol pr
  else
    ">" +:+
    (if bool_decide (0 < String.length (Content node))
     then EscapeText (Content node) else EmptyString) +:+
    (if bool_decide (0 < length (children node))
     then eol pr +:+
          concat_strings
            (map (fun c => opening um pr (S d) c +:+ closing um pr (S d) c)
                 (children node)) +:+
          ind pr d
     else EmptyString) +:+
    "</" +:+ qname um (Name node) +:+ ">" +:+ eol pr.
Proof. by destruct node. Qed.

Lemma Encode_rest_markup ord node wn e :
  started e = true ->
  Forall (covered (nsURLMap e)) (rendered_names node) ->
  Forall (Encode_spec ord) (children node) ->
  Encode_rest ord node wn e =
  Some (WriteString
          (markup (nsURLMap e) (pretty e) (depth e)
                  (if wn then declsText (ord (nsPrefixMap e)) else EmptyString) node) e).
Proof.
  intros Hs Hc HI. destruct node as [n cs c a].
  cbn [rendered_names Name Attributes children] in *.
  apply Forall_cons in Hc as [Hn Hc]. apply Forall_app in Hc as [Ha Hcs].
  destruct e as [o pm um d st pr]. cbn [started nsURLMap pretty depth nsPrefixMap] in *. subst st.
  assert (Hnn : forall o' d', namespacedName (mkEncoder o' pm um d' true pr) n
                              = Some (qname um n)).
  { intros. by rewrite namespacedName_covered. }
  assert (Haa : forall o' d', encodeAttrs (mkEncoder o' pm um d' true pr) a
                 = Some (mkEncoder (o' +:+ attrsText um a) pm um d' true pr)).
  { intros. by rewrite encodeAttrs_text. }
  assert (Hdd : forall o' d', fold_left encodeDecl (ord pm) (mkEncoder o' pm um d' true pr)
                 = mkEncoder (o' +:+ declsText (ord pm)) pm um d' true pr).
  { intros. by rewrite fold_left_encodeDecl. }
  assert (Hee : forall o' d', each (Encode ord) cs (mkEncoder o' pm um d' true pr)
     = Some (mkEncoder (o' +:+ concat_strings
               (map (fun c => opening um pr d' c +:+ closing um pr d' c) cs))
               pm um d' true pr)).
  { intros. by rewrite each_Encode. }
  unfold Encode_rest, markup, opening, WriteString.
  cbn [Name Attributes children Content out nsPrefixMap nsURLMap depth started pretty].
  unfold spaces, prettyEnd, WriteString, set_depth, ind, eol.
  cbn [Name Attributes children Content out nsPrefixMap nsURLMap depth started pretty].
  destruct pr, wn;
    cbn [Name Attributes children Content out nsPrefixMap nsURLMap depth started pretty];
    rewrite ?Hnn; cbn [mbind option_bind];
    rewrite ?Haa; cbn [mbind option_bind];
    rewrite ?Hdd;
    cbn [Name Attributes children Content out nsPrefixMap nsURLMap depth started pretty].
  all: rewrite (closing_eq um _ d (mkElement n cs c a)); cbn [Name Attributes children Content].
  all: case_bool_decide as Hempty; [f_equal; f_equal; by rewrite !sapp_assoc|].
  all: destruct (bool_decide (0 < String.length c));
       destruct (bool_decide (0 < length cs));
    cbn [Name Attributes children Content out nsPrefixMap nsURLMap depth started pretty];
    rewrite ?Hee; cbn [mbind option_bind];
    cbn [Name Attributes children Content out nsPrefixMap nsURLMap depth started pretty Nat.pred];
    rewrite ?Hnn; cbn [mbind option_bind];
    cbn [Name Attributes children Content out nsPrefixMap nsURLMap depth started pretty].
  all: f_equal; f_equal; rewrite ?sapp_assoc, ?sapp_nil_l, ?sapp_nil_r; try reflexivity.
Qed.

Lemma Encode_started ord node : Encode_spec ord node.
Proof.
  induction node as [n cs c a IH] using Element_ind'. intros e Hs Hc.
  rewrite Encode_eq_rest, Hs. cbn [negb].
  by rewrite (Encode_rest_markup ord _ false e Hs Hc IH).
Qed.

Lemma discovered_fields node e :
  out (discovered node e) = out e /\ depth (discovered node e) = depth e /\
  pretty (discovered node e) = pretty e /\ started (discovered node e) = true /\
  nsURLMap (discovered node e) = nsURLMap (addNamespaces node e) /\
  nsPrefixMap (discovered node e) = nsPrefixMap (addNamespaces node e).
Proof.
  destruct (kept_addNamespaces node e) as (? & ? & ? & ? & _).
  unfold discovered, set_started. simpl. by repeat split.
Qed.

(** A serialization call on an encoder that has not started. *)
Lemma Encode_fresh ord node e :
  started e = false ->
  Encode ord node e =
  Some (WriteString
          (markup (nsURLMap (discovered node e)) (pretty e) (depth e)
                  (declsText (ord (nsPrefixMap (discovered node e)))) node)
          (discovered node e)).
Proof.
  intros Hs. rewrite Encode_eq_rest, Hs. cbn [negb].
  destruct (discovered_fields node e) as (Ho & Hd & Hp & Hst & Hum & Hpm).
  rewrite (Encode_rest_markup ord node true (discovered node e) Hst).
  - by rewrite Hd, Hp.
  - rewrite Hum. apply addNamespaces_covers.
  - apply Forall_forall. intros. apply Encode_started.
Qed.

Lemma Bytes_markup ord node :
  Bytes ord node =
  Some (markup (nsURLMap (discovered node (Pretty NewEncoder))) true 0
               (declsText (ord (nsPrefixMap (discovered node (Pretty NewEncoder)))))
               node).
Proof.
  unfold Bytes. rewrite Encode_fresh by done. cbn [mbind option_bind].
  f_equal. unfold WriteString. cbn [out].
  destruct (discovered_fields node (Pretty NewEncoder)) as (-> & _). done.
Qed.

Lemma small_permutation {A} (l1 l2 l : list A) :
  l1 ≡ₚ l -> l2 ≡ₚ l -> length l <= 1 -> l1 = l2.
Proof.
  intros H1 H2 Hl. destruct l as [|x [|y l]]; simpl in Hl; [| |lia].
  - apply Permutation_nil_r in H1, H2. congruence.
  - apply Permutation_singleton_r in H1, H2. congruence.
Qed.

Lemma valid_order_forwards : valid_order forwards.
Proof. by intros m. Qed.

Lemma valid_order_backwards : valid_order backwards.
Proof. intros m. apply reverse_Permutation. Qed.

(** *** Elements without namespaces *)

Lemma plain_names_eq node :
  plain_names node =
  bool_decide (xml.Space (Name node) = EmptyString) &&
  forallb (fun a => bool_decide (xml.Space (xml.AName a) = EmptyString)) (Attributes node) &&
  forallb plain_names (children node).
Proof. by destruct node. Qed.

(** Discovery on an element without namespaces registers nothing. *)
Lemma addNamespaces_plain node :
  plain_names node = true -> forall e, addNamespaces node e = e.
Proof.
  induction node as [n cs c a IH] using Element_ind'.
  rewrite plain_names_eq. cbn [Name Attributes children].
  intros [[Hn%bool_decide_eq_true Ha]%andb_true_iff Hcs]%andb_true_iff e.
  rewrite addNamespaces_eq. cbn [Name Attributes children]. rewrite Hn.
  assert (H0 : forall p e, addNamespace EmptyString p e = e) by done.
  assert (H1 : forall e, fold_left (fun e a =>
                 if decide (xml.Space (xml.AName a) = "xmlns")
                 then addNamespace (xml.Value a) (xml.Local (xml.AName a)) e
                 else e) a e = e).
  { clear -Ha. induction a as [|x a IHa]; intros e; [done|].
    cbn [forallb] in Ha. apply andb_true_iff in Ha as [Hx%bool_decide_eq_true Ha].
    cbn [fold_left]. rewrite Hx. rewrite decide_False by done. by apply IHa. }
  assert (H2 : forall e, fold_left (fun e a =>
                 addNamespace (xml.Space (xml.AName a)) EmptyString e) a e = e).
  { clear -Ha H0. induction a as [|x a IHa]; intros e; [done|].
    cbn [forallb] in Ha. apply andb_true_iff in Ha as [Hx%bool_decide_eq_true Ha].
    cbn [fold_left]. rewrite Hx, H0. by apply IHa. }
  rewrite H1, H0, H2.
  clear -IH Hcs. revert e. induction IH as [|x l Hx _ IHl]; intros e; [done|].
  cbn [forallb] in Hcs. apply andb_true_iff in Hcs as [Hxp Hl].
  cbn [fold_left]. rewrite Hx by done. by apply IHl.
Qed.

Lemma Bytes_plain ord node :
  valid_order ord -> plain_names node = true ->
  Bytes ord node = Some (opening ∅ true 0 node +:+ closing ∅ true 0 node).
Proof.
  intros Hv Hp. rewrite Bytes_markup. unfold discovered.
  rewrite (addNamespaces_plain _ Hp).
  cbn [nsPrefixMap nsURLMap set_started Pretty NewEncoder].
  pose proof (Hv ∅) as HP. rewrite map_to_list_empty in HP.
  apply Permutation_nil_r in HP. rewrite HP. unfold markup. reflexivity.
Qed.

(** *** An explicit declaration *)

Lemma no_xmlns_attrs_eq node :
  no_xmlns_attrs node =
  forallb (fun a => bool_decide (xml.Space (xml.AName a) <> "xmlns")) (Attributes node) &&
  forallb no_xmlns_attrs (children node).
Proof. by destruct node. Qed.

Lemma bound_addNamespace_fresh p u ns e :
  bound p u e -> bound p u (addNamespace ns EmptyString e).
Proof.
  intros [Hu Hp]. unfold addNamespace. case_decide; [done|].
  destruct (nsURLMap e !! ns) eqn:Hns; [done|].
  rewrite decide_True by done. unfold bound, bind_prefix. simpl.
  assert (ns <> u) by congruence.
  assert (fresh_string "ns" (nsPrefixMap e) <> p).
  { intros Hf. pose proof (fresh_string_fresh (nsPrefixMap e) "ns") as HF.
    rewrite Hf in HF. congruence. }
  by rewrite !lookup_insert_ne.
Qed.

Lemma bound_register_attrs p u (l : list xml.Attr) : forall e,
  bound p u e ->
  bound p u (fold_left (fun e a => addNamespace (xml.Space (xml.AName a)) EmptyString e) l e).
Proof.
  induction l as [|a l IH]; intros e He; [done|].
  cbn [fold_left]. by apply IH, bound_addNamespace_fresh.
Qed.

Lemma fold_left_filter {A} (P : A -> Prop) `{forall a, Decision (P a)}
    (f : Encoder -> A -> Encoder) (l : list A) : forall e,
  fold_left (fun e a => if decide (P a) then f e a else e) l e
  = fold_left f (filter P l) e.
Proof.
  induction l as [|a l IH]; intros e; [done|].
  cbn [fold_left]. destruct (decide (P a)) as [Ha|Ha].
  - rewrite filter_cons_True by done. cbn [fold_left]. apply IH.
  - rewrite filter_cons_False by done. apply IH.
Qed.

Lemma no_xmlns_filter (l : list xml.Attr) :
  forallb (fun a => bool_decide (xml.Space (xml.AName a) <> "xmlns")) l = true ->
  filter in_xmlns l = [].
Proof.
  induction l as [|a l IH]; [done|]. cbn [forallb].
  intros [Ha%bool_decide_eq_true Hl]%andb_true_iff.
  rewrite filter_cons_False by done. by apply IH.
Qed.

Lemma bound_addNamespaces p u node :
  no_xmlns_attrs node = true ->
  forall e, bound p u e -> bound p u (addNamespaces node e).
Proof.
  induction node as [n cs c a IH] using Element_ind'.
  rewrite no_xmlns_attrs_eq. cbn [Attributes children].
  intros [Ha Hcs]%andb_true_iff e He.
  rewrite addNamespaces_eq. cbn [Name Attributes children].
  rewrite (fold_left_filter in_xmlns
             (fun e a => addNamespace (xml.Value a) (xml.Local (xml.AName a)) e)).
  rewrite (no_xmlns_filter _ Ha). cbn [fold_left].
  assert (H2 : bound p u
     (fold_left (fun e a => addNamespace (xml.Space (xml.AName a)) EmptyString e) a
        (addNamespace (xml.Space n) EmptyString e)))
    by (by apply bound_register_attrs, bound_addNamespace_fresh).
  revert H2. generalize (fold_left (fun e a =>
       addNamespace (xml.Space (xml.AName a)) EmptyString e) a
        (addNamespace (xml.Space n) EmptyString e)).
  clear -IH Hcs. induction IH as [|x l Hx _ IHl]; intros e0 H0; [done|].
  cbn [forallb] in Hcs. apply andb_true_iff in Hcs as [Hxp Hl].
  cbn [fold_left]. apply IHl; [done|]. by apply Hx.
Qed.

Lemma bound_children p u cs :
  forallb no_xmlns_attrs cs = true ->
  forall e, bound p u e -> bound p u (fold_left (fun e c => addNamespaces c e) cs e).
Proof.
  induction cs as [|x l IH]; intros Hcs e He; [done|].
  cbn [forallb] in Hcs. apply andb_true_iff in Hcs as [Hx Hl].
  cbn [fold_left]. apply IH; [done|]. by apply bound_addNamespaces.
Qed.

(** A root that carries the only declaration of the tree gets it
    registered. *)
Lemma declared_prefix_bound node p u :
  p <> EmptyString -> u <> EmptyString -> declares_only node p u ->
  bound p u (discovered node (Pretty NewEncoder)).
Proof.
  intros Hp Hu [Hf Hcs]. unfold discovered, bound.
  cbn [nsURLMap nsPrefixMap set_started].
  rewrite addNamespaces_eq.
  rewrite (fold_left_filter in_xmlns
             (fun e a => addNamespace (xml.Value a) (xml.Local (xml.AName a)) e)).
  rewrite Hf. cbn [fold_left xml.Value xml.Local xml.AName].
  apply bound_children; [done|].
  apply bound_register_attrs, bound_addNamespace_fresh.
  unfold addNamespace. rewrite decide_False by done.
  cbn [nsURLMap Pretty NewEncoder]. rewrite lookup_empty.
  rewrite decide_False by done. unfold bound, bind_prefix. simpl.
  by rewrite !lookup_insert_eq.
Qed.

Lemma declared_once ord pm (p u : string) :
  valid_order ord -> pm !! p = Some u ->
  (p, u) ∈ ord pm /\ NoDup (ord pm).*1.
Proof.
  intros Hv Hp. rewrite (Hv pm). split.
  - by apply elem_of_map_to_list.
  - apply NoDup_fst_map_to_list.
Qed.

(** *** The requests of discovery *)

Lemma requests_eq node :
  requests node =
  map (fun a => (xml.Value a, xml.Local (xml.AName a)))
      (filter in_xmlns (Attributes node)) ++
  (xml.Space (Name node), EmptyString) ::
  map (fun a => (xml.Space (xml.AName a), EmptyString)) (Attributes node) ++
  flat_map requests (children node).
Proof. by destruct node. Qed.

Lemma fold_left_map {A B} (f : Encoder -> B -> Encoder) (g : A -> B) l : forall e,
  fold_left f (map g l) e = fold_left (fun e a => f e (g a)) l e.
Proof. induction l as [|a l IH]; intros e; [done|]. simpl. apply IH. Qed.

(** Discovery makes the requests of the tree in order. *)
Lemma addNamespaces_requests node : forall e,
  addNamespaces node e = fold_left register (requests node) e.
Proof.
  induction node as [n cs c a IH] using Element_ind'. intros e.
  rewrite addNamespaces_eq, requests_eq. cbn [Name Attributes children].
  rewrite fold_left_app. cbn [fold_left]. rewrite fold_left_app.
  rewrite !fold_left_map.
  rewrite (fold_left_filter in_xmlns
             (fun e a => addNamespace (xml.Value a) (xml.Local (xml.AName a)) e)).
  unfold register at 2 3 4. cbn [fst snd].
  generalize (fold_left (fun e a => addNamespace (xml.Space (xml.AName a)) EmptyString e) a
    (addNamespace (xml.Space n) EmptyString
       (fold_left (fun e a => addNamespace (xml.Value a) (xml.Local (xml.AName a)) e)
          (filter in_xmlns a) e))).
  clear -IH. induction IH as [|x l Hx _ IHl]; intros e0; [done|].
  cbn [fold_left flat_map]. rewrite fold_left_app, <- Hx. apply IHl.
Qed.

Lemma register_cases e r :
  (register e r = e /\ (r.1 = EmptyString \/ is_Some (nsURLMap e !! r.1))) \/
  (exists q, r.1 <> EmptyString /\ nsURLMap e !! r.1 = None /\
             register e r = bind_prefix r.1 q e /\
             ((r.2 = EmptyString /\ q = fresh_string "ns" (nsPrefixMap e) /\
               nsPrefixMap e !! q = None) \/
              (r.2 <> EmptyString /\ q = r.2))).
Proof.
  unfold register, addNamespace.
  destruct (decide (r.1 = EmptyString)) as [H1|H1]; [left; auto|].
  destruct (nsURLMap e !! r.1) eqn:Hu; [left; eauto|].
  right. destruct (decide (r.2 = EmptyString)) as [H2|H2].
  - eexists. repeat split; try done. left. repeat split; try done.
    apply fresh_string_fresh.
  - eexists. repeat split; try done. by right.
Qed.

Lemma in_step_register e r :
  in_step e -> rebinds e r = false -> in_step (register e r).
Proof.
  intros He Hr. destruct (register_cases e r) as [[-> _]|(q & H1 & Hu & -> & Hq)]; [done|].
  assert (Hpq : nsPrefixMap e !! q = None).
  { destruct Hq as [(_ & _ & Hq)|[H2 ->]]; [done|].
    apply bool_decide_eq_false in Hr.
    destruct (nsPrefixMap e !! r.2) eqn:Hp; [|done]. exfalso. apply Hr. eauto. }
  intros u p. unfold bind_prefix. cbn [nsURLMap nsPrefixMap].
  destruct (decide (u = r.1)) as [->|Hne], (decide (p = q)) as [->|Hnq].
  - by rewrite !lookup_insert_eq.
  - rewrite lookup_insert_eq, lookup_insert_ne by done. split; [congruence|].
    intros Hp%He. congruence.
  - rewrite lookup_insert_eq, lookup_insert_ne by done. split; [|congruence].
    intros Hp%He. congruence.
  - rewrite !lookup_insert_ne by done. apply He.
Qed.

(** A URI whose prefix is bound to another URI stays so. *)
Lemma out_of_step_register e r u p :
  nsURLMap e !! u = Some p -> nsPrefixMap e !! p <> Some u ->
  nsURLMap (register e r) !! u = Some p /\ nsPrefixMap (register e r) !! p <> Some u.
Proof.
  intros Hu Hp. destruct (register_cases e r) as [[-> _]|(q & H1 & Hn & -> & Hq)]; [done|].
  unfold bind_prefix. cbn [nsURLMap nsPrefixMap].
  assert (u <> r.1) by congruence.
  rewrite lookup_insert_ne by done. split; [done|].
  destruct (decide (p = q)) as [->|Hnq].
  - rewrite lookup_insert_eq. congruence.
  - by rewrite lookup_insert_ne.
Qed.

Lemma out_of_step_fold rs : forall e u p,
  nsURLMap e !! u = Some p -> nsPrefixMap e !! p <> Some u ->
  ~ in_step (fold_left register rs e).
Proof.
  induction rs as [|r rs IH]; intros e u p Hu Hp.
  - intros He. apply Hp. by apply He.
  - cbn [fold_left]. destruct (out_of_step_register e r u p Hu Hp) as [Hu' Hp'].
    by apply (IH _ u p).
Qed.

(** Discovery leaves the two maps in step exactly when no request rebinds a
    prefix. *)
Lemma in_step_fold rs : forall e,
  in_step e -> (clash_free rs e = true <-> in_step (fold_left register rs e)).
Proof.
  induction rs as [|r rs IH]; intros e He; [done|].
  cbn [clash_free fold_left]. destruct (rebinds e r) eqn:Hr; cbn [negb andb].
  - split; [done|]. intros Hs. exfalso.
    apply bool_decide_eq_true in Hr as (H1 & Hu & H2 & [u0 Hp]).
    assert (Hu0 : nsURLMap e !! u0 = Some r.2) by (by apply He).
    assert (Hne : u0 <> r.1) by congruence.
    revert Hs. apply (out_of_step_fold rs _ u0 r.2).
    + unfold register, addNamespace. rewrite decide_False by done. rewrite Hu.
      rewrite decide_False by done. unfold bind_prefix. cbn [nsURLMap].
      by rewrite lookup_insert_ne.
    + unfold register, addNamespace. rewrite decide_False by done. rewrite Hu.
      rewrite decide_False by done. unfold bind_prefix. cbn [nsPrefixMap].
      rewrite lookup_insert_eq. congruence.
  - apply IH. by apply in_step_register.
Qed.

Lemma bound_register p u e r :
  bound p u e -> takes p e r = false -> bound p u (register e r).
Proof.
  intros [Hu Hp] Ht. destruct (register_cases e r) as [[-> _]|(q & H1 & Hn & -> & Hq)]; [done|].
  assert (Hq' : q <> p).
  { destruct Hq as [(_ & _ & Hq)|[H2 ->]]; [congruence|].
    apply bool_decide_eq_false in Ht. intros Heq. apply Ht. done. }
  assert (r.1 <> u) by congruence.
  unfold bound, bind_prefix. cbn [nsURLMap nsPrefixMap].
  by rewrite !lookup_insert_ne.
Qed.

Lemma bound_fold p u rs : forall e,
  bound p u e -> keeps_prefix p rs e = true -> bound p u (fold_left register rs e).
Proof.
  induction rs as [|r rs IH]; intros e He; [done|].
  cbn [keeps_prefix fold_left]. intros [Ht%negb_true_iff Hk]%andb_true_iff.
  apply IH; [|done]. by apply bound_register.
Qed.

Lemma unregistered_fold u rs : forall e,
  nsURLMap e !! u = None -> Forall (fun r => r.1 <> u) rs ->
  nsURLMap (fold_left register rs e) !! u = None.
Proof.
  induction rs as [|r rs IH]; intros e He Hrs; [done|].
  inversion Hrs as [|? ? Hr Hrs']; subst. cbn [fold_left]. apply IH; [|done].
  destruct (register_cases e r) as [[-> _]|(q & H1 & Hn & -> & Hq)]; [done|].
  unfold bind_prefix. cbn [nsURLMap]. by rewrite lookup_insert_ne.
Qed.

Lemma bound_first p u e :
  p <> EmptyString -> u <> EmptyString -> nsURLMap e !! u = None ->
  bound p u (register e (u, p)).
Proof.
  intros Hp Hu Hn. unfold register, addNamespace. cbn [fst snd].
  rewrite decide_False by done. rewrite Hn. rewrite decide_False by done.
  unfold bound, bind_prefix. cbn [nsURLMap nsPrefixMap]. by rewrite !lookup_insert_eq.
Qed.

(** The first request for a URI binds the prefix it asks for, and the
    binding stays when no later request binds the prefix again. *)
Lemma first_request_bound node p u pre post :
  p <> EmptyString -> u <> EmptyString ->
  requests node = pre ++ (u, p) :: post ->
  Forall (fun r => r.1 <> u) pre ->
  keeps_prefix p post (fold_left register (pre ++ [(u, p)]) (Pretty NewEncoder)) = true ->
  bound p u (discovered node (Pretty NewEncoder)).
Proof.
  intros Hp Hu Hr Hpre Hk. unfold discovered, bound. cbn [nsURLMap nsPrefixMap set_started].
  rewrite addNamespaces_requests, Hr.
  replace (pre ++ (u, p) :: post) with ((pre ++ [(u, p)]) ++ post)
    by (by rewrite <- app_assoc).
  rewrite fold_left_app. apply bound_fold; [|done].
  rewrite fold_left_app. cbn [fold_left]. apply bound_first; [done..|].
  by apply unregistered_fold.
Qed.

Lemma in_step_NewEncoder : in_step (Pretty NewEncoder).
Proof. intros u p. cbn. by rewrite !lookup_empty. Qed.

Lemma in_step_discovered node e :
  in_step e -> (clash_free (requests node) e = true <-> in_step (discovered node e)).
Proof.
  intros He. rewrite (in_step_fold _ e He). unfold discovered, in_step.
  cbn [nsURLMap nsPrefixMap set_started]. by rewrite addNamespaces_requests.
Qed.

Lemma declarations_in_step ord e :
  valid_order ord -> in_step e ->
  forall p u, (p, u) ∈ ord (nsPrefixMap e) <-> nsURLMap e !! u = Some p.
Proof.
  intros Hv He p u. rewrite (Hv (nsPrefixMap e)), elem_of_map_to_list. symmetry. apply He.
Qed.

End EncoderFacts.

(** ** Claims about the tree builder *)

(** C3. A decoder on which the list entry point returns two or more elements
    without error makes the document entry point fail with the
    too-many-roots error and no document.  On the tokens of any sequence of
    complete elements, followed by end of input, the list entry point
    succeeds with exactly these elements in order, and the document entry
    point fails with the too-many-roots error when there are two or more.
    Whatever the decoder, the list entry point returns, and its error is nil
    or the error of the stream itself.  On [<a/><b/>] the document entry
    point fails with the too-many-roots error and the list entry point
    yields [a] then [b]. *)
Theorem too_many_roots_only_from_Parse :
  (forall decoder elements,
     ParseElements decoder = Some (elements, None) ->
     1 < length elements ->
     Parse decoder = Some (None, Some (errors_New TooManyRootElements))) /\
  (forall groups elements,
     Forall2 ElementTokens groups elements ->
     ParseElements (mkDecoder (concat groups) io_EOF) = Some (elements, None)) /\
  (forall groups elements,
     Forall2 ElementTokens groups elements -> 1 < length groups ->
     Parse (mkDecoder (concat groups) io_EOF)
     = Some (None, Some (errors_New TooManyRootElements))) /\
  (forall decoder, exists elements err,
     ParseElements decoder = Some (elements, err) /\
     (err = None \/ err = Some (final decoder))) /\
  ParseBytes "<a/><b/>" = Some (None, Some (errors_New TooManyRootElements)) /\
  ParseElementsBytes "<a/><b/>" = Some ([ElementN "a"; ElementN "b"], None).
Proof.
  assert (H1 : forall decoder elements,
     ParseElements decoder = Some (elements, None) ->
     1 < length elements ->
     Parse decoder = Some (None, Some (errors_New TooManyRootElements))).
  { intros decoder elements HP Hl. unfold Parse, ParseWithOptions.
    unfold ParseElements in HP. rewrite HP. simpl.
    by rewrite bool_decide_true. }
  assert (H2 : forall groups elements,
     Forall2 ElementTokens groups elements ->
     ParseElements (mkDecoder (concat groups) io_EOF) = Some (elements, None)).
  { intros groups elements HF. unfold ParseElements, ParseElementsWithOptions.
    apply (elements_loop_groups _ _ HF (S (length (concat groups))) []). simpl. lia. }
  split; [exact H1|]. split; [exact H2|].
  split; [|split; [|split; reflexivity]].
  - intros groups elements HF Hl. apply (H1 _ elements); [by apply H2|].
    by rewrite <- (Forall2_length _ _ _ HF).
  - intros [ts e]. unfold ParseElements, ParseElementsWithOptions.
    apply elements_loop_total. simpl. lia.
Qed.

(** The tokens of [<a/><b/>], as two groups. *)
Lemma too_many_roots_only_from_Parse_witness :
  ParseElements (mkDecoder [StartElement (plain "a") []; EndElement (plain "a");
                            StartElement (plain "b") []; EndElement (plain "b")] io_EOF)
    = Some ([ElementN "a"; ElementN "b"], None) /\
  1 < length [ElementN "a"; ElementN "b"] /\
  Forall2 ElementTokens
    [[StartElement (plain "a") []; EndElement (plain "a")];
     [StartElement (plain "b") []; EndElement (plain "b")]]
    [ElementN "a"; ElementN "b"] /\
  Parse (mkDecoder [StartElement (plain "a") []; EndElement (plain "a");
                    StartElement (plain "b") []; EndElement (plain "b")] io_EOF)
    = Some (None, Some (errors_New TooManyRootElements)).
Proof.
  assert (HF : Forall2 ElementTokens
    [[StartElement (plain "a") []; EndElement (plain "a")];
     [StartElement (plain "b") []; EndElement (plain "b")]]
    [ElementN "a"; ElementN "b"]).
  { repeat constructor.
    - exists (plain "a"), [], [], (plain "a"). split; [reflexivity|constructor].
    - exists (plain "b"), [], [], (plain "b"). split; [reflexivity|constructor]. }
  pose proof too_many_roots_only_from_Parse as (HP & HG & _ & _).
  pose proof (HG _ _ HF) as HE. simpl in HE.
  assert (Hl : 1 < length [ElementN "a"; ElementN "b"]) by (simpl; lia).
  exact (conj HE (conj Hl (conj HF (HP _ _ HE Hl)))).
Defined.

(** C7. If the tokens that follow a start-tag do not contain its end-tag,
    [parseElement] returns [(nil, err)] with the error of the stream, and no
    element.  If the stream ends with an element still open, the list entry
    point returns that error and the document entry point returns it with no
    document.  [<a><b></b>] is such an input. *)
Theorem truncated_input_is_an_error :
  (forall fuel ts e name attr,
     length ts < fuel -> closes 0 ts = false ->
     parseElement fuel (mkDecoder ts e) name attr = Some (Err e)) /\
  (forall ts e,
     0 < open_after 0 ts ->
     (exists elements, ParseElements (mkDecoder ts e) = Some (elements, Some e)) /\
     Parse (mkDecoder ts e) = Some (None, Some e)) /\
  ParseElementsBytes "<a><b></b>" = Some ([], Some (SyntaxError "unexpected EOF")) /\
  ParseBytes "<a><b></b>" = Some (None, Some (SyntaxError "unexpected EOF")).
Proof.
  split; [|split; [|split; reflexivity]].
  - intros fuel ts e name attr Hf Hc. unfold parseElement.
    destruct (parse_loop_unclosed fuel ts e
                (fold_left AddAttr attr (CreateElement name)) 0 Hf Hc)
      as ([? ?|e'] & -> & Hr).
    + by destruct Hr as (d0 & ? & _).
    + by subst.
  - intros ts e Ho.
    destruct (elements_loop_truncated (S (length ts)) ts e [] (Nat.lt_succ_diag_r _) Ho)
      as [els Hels].
    split; [by exists els|].
    unfold Parse, ParseWithOptions, ParseElementsWithOptions. simpl pending.
    by rewrite Hels.
Qed.

(** The tokens of [<a><b></b>], whose decoder ends with a syntax error. *)
Lemma truncated_input_is_an_error_witness :
  closes 0 [StartElement (plain "b") []; EndElement (plain "b")] = false /\
  parseElement 3 (mkDecoder [StartElement (plain "b") []; EndElement (plain "b")]
                            (SyntaxError "unexpected EOF")) (plain "a") []
    = Some (Err (SyntaxError "unexpected EOF")) /\
  0 < open_after 0 [StartElement (plain "a") []; StartElement (plain "b") [];
                    EndElement (plain "b")] /\
  Parse (mkDecoder [StartElement (plain "a") []; StartElement (plain "b") [];
                    EndElement (plain "b")] (SyntaxError "unexpected EOF"))
    = Some (None, Some (SyntaxError "unexpected EOF")).
Proof.
  pose proof truncated_input_is_an_error as (H1 & H2 & _).
  split; [reflexivity|]. split.
  - apply H1; [simpl; lia|reflexivity].
  - split; [simpl; lia|]. apply H2. simpl. lia.
Defined.

(** C8. A text token changes the element being built as follows: its bytes
    are trimmed by [bytes.TrimSpace]; if the result is not empty it replaces
    the content (so that of two segments the later one remains), and
    otherwise the element is unchanged.  What trimming returns is a part of
    the token.  For a token of ASCII text it is the token without a prefix
    and a suffix of white space, and it neither starts nor ends with white
    space; a token of ASCII white space only trims to nothing.  White space
    is what Unicode defines: a token that is a no-break space only is
    ignored too, and no-break spaces around [x] are cut off.
    Parsing [<a>  x  <b/>  y  </a>] yields one element [a] with the single
    child [b] and the content [y]. *)
Theorem text_token_overwrites_content :
  (forall fuel rt ts e res,
     parse_loop (S fuel) (mkDecoder (CharData rt :: ts) e) res =
     parse_loop fuel (mkDecoder ts e)
       (if bool_decide (0 < String.length (TrimSpace rt))
        then setContent (TrimSpace rt) res else res)) /\
  (forall c res, Content (setContent c res) = c /\
                 children (setContent c res) = children res) /\
  (forall c1 c2 res, setContent c2 (setContent c1 res) = setContent c2 res) /\
  (forall rt, exists a b, rt = a +:+ TrimSpace rt +:+ b) /\
  (forall rt, all_bytes isASCII rt = true ->
     exists a b,
       rt = a +:+ TrimSpace rt +:+ b /\
       all_bytes isSpace a = true /\ all_bytes isSpace b = true /\
       is_trimmed (TrimSpace rt) = true) /\
  (forall rt, all_bytes isSpace rt = true -> TrimSpace rt = EmptyString) /\
  TrimSpace nbsp = EmptyString /\
  TrimSpace (nbsp +:+ " x" +:+ nbsp +:+ " ") = "x" /\
  (forall fuel ts e res,
     parse_loop (S fuel) (mkDecoder (CharData nbsp :: ts) e) res =
     parse_loop fuel (mkDecoder ts e) res) /\
  ParseElementsBytes "<a>  x  <b/>  y  </a>" =
    Some ([mkElement (plain "a") [ElementN "b"] "y" []], None).
Proof.
  split; [|split; [|split; [|split; [|split; [|split; [|split; [|split; [|split]]]]]]]].
  - intros fuel rt ts e res. simpl. by case_bool_decide.
  - done.
  - done.
  - apply TrimSpace_part.
  - apply TrimSpace_split.
  - apply TrimSpace_blank.
  - reflexivity.
  - reflexivity.
  - reflexivity.
  - reflexivity.
Qed.

(** A segment of blanks, as between [<a>] and [<b/>]. *)
Lemma text_token_overwrites_content_witness :
  all_bytes isSpace "   " = true /\ TrimSpace "   " = EmptyString.
Proof.
  split; [reflexivity|].
  exact (proj1 (proj2 (proj2 (proj2 (proj2 (proj2 text_token_overwrites_content)))))
           "   " eq_refl).
Defined.

(** ** Claims about the encoder *)

(** C5. A name without namespace renders as its local name, a name in the
    ["xmlns"] space as [xmlns:local], any other name as [prefix:local] with
    the prefix the map gives for its URI; the missing-prefix panic is taken
    exactly when the URI is neither empty nor ["xmlns"] and has no prefix in
    the map.  After discovery on an element, every name rendered in its
    subtree has a rendering; hence a serialization call on an encoder that
    has not started, and [Bytes], never panic. *)
Theorem missing_prefix_unreachable_after_discovery :
  (forall e l, namespacedName e (xml.mkName EmptyString l) = Some l) /\
  (forall e l, namespacedName e (xml.mkName "xmlns" l) = Some ("xmlns:" +:+ l)) /\
  (forall e ns l prefix,
     ns <> EmptyString -> ns <> "xmlns" -> nsURLMap e !! ns = Some prefix ->
     namespacedName e (xml.mkName ns l) = Some (prefix +:+ ":" +:+ l)) /\
  (forall e ns l,
     namespacedName e (xml.mkName ns l) = None <->
     ns <> EmptyString /\ ns <> "xmlns" /\ nsURLMap e !! ns = None) /\
  (forall node e name,
     name ∈ rendered_names node ->
     is_Some (namespacedName (addNamespaces node e) name)) /\
  (forall ord node e, started e = false -> is_Some (Encode ord node e)) /\
  (forall ord node, is_Some (Bytes ord node)).
Proof.
  split; [|split; [|split; [|split; [|split; [|split]]]]].
  - done.
  - done.
  - intros e ns l prefix H1 H2 H3. unfold namespacedName. simpl.
    rewrite !decide_False by done. by rewrite H3.
  - intros e ns l. unfold namespacedName. simpl.
    destruct (decide (ns = EmptyString)) as [->|H1];
      [split; [done|by intros (? & _)]|].
    destruct (decide (ns = "xmlns")) as [->|H2];
      [split; [done|by intros (_ & ? & _)]|].
    destruct (nsURLMap e !! ns); split; try done. by intros (_ & _ & ?).
  - intros node e name Hin.
    pose proof (addNamespaces_covers node e) as HF. rewrite Forall_forall in HF.
    rewrite (namespacedName_covered _ _ (HF _ Hin)). eauto.
  - intros ord node e Hs. rewrite Encode_fresh by done. eauto.
  - intros ord node. rewrite Bytes_markup. eauto.
Qed.

(** The child of [declared_child] is rendered with the declared prefix. *)
Lemma missing_prefix_unreachable_after_discovery_witness :
  xml.mkName "urn:x" "childname" ∈ rendered_names declared_child /\
  is_Some (namespacedName (addNamespaces declared_child NewEncoder)
                          (xml.mkName "urn:x" "childname")) /\
  namespacedName (addNamespaces declared_child NewEncoder)
                 (xml.mkName "urn:x" "childname") = Some "p:childname".
Proof.
  assert (Hin : xml.mkName "urn:x" "childname" ∈ rendered_names declared_child).
  { simpl. apply elem_of_cons. right. apply elem_of_cons. by left. }
  split; [exact Hin|]. split; [|reflexivity].
  exact (proj1 (proj2 (proj2 (proj2 (proj2 missing_prefix_unreachable_after_discovery))))
           declared_child NewEncoder _ Hin).
Defined.

(** C4 (as stated, it fails). [late_declaration] carries the declaration
    [xmlns:p="urn:x"] and has a descendant named in [urn:x], but discovery
    meets the name first and binds [urn:x] to a fabricated prefix: the text
    declares [xmlns:ns="urn:x"], the descendant is written [ns:childname],
    and no order of the map gives a declaration of [p].  In [rebind] the
    root declares [p] for [urn:x] and a child declares [p] for [urn:y]: the
    URI-to-prefix map binds both URIs to [p], the prefix map binds [p] to
    [urn:y] only, so the binding of [urn:x] is not among the declarations
    written, while the element in [urn:x] is written [p:a]. *)
Lemma explicit_declaration_not_honoured :
  xml.mkAttr (xml.mkName "xmlns" "p") "urn:x" ∈ all_attributes late_declaration /\
  xml.mkName "urn:x" "childname" ∈ descendant_names late_declaration /\
  Bytes forwards late_declaration =
    Some ("<root" +:+ declsText [("ns0", "xmlns"); ("ns", "urn:x")] +:+ ">" +:+ nl +:+
          " <ns:childname/>" +:+ nl +:+ " <s/>" +:+ nl +:+ "</root>" +:+ nl) /\
  (forall ord, valid_order ord ->
     ("p", "urn:x") ∉ ord (nsPrefixMap (discovered late_declaration (Pretty NewEncoder)))) /\
  ~ (forall ord node p u l,
       valid_order ord ->
       xml.mkAttr (xml.mkName "xmlns" p) u ∈ all_attributes node ->
       xml.mkName u l ∈ descendant_names node ->
       (p, u) ∈ ord (nsPrefixMap (discovered node (Pretty NewEncoder))) /\
       qname (nsURLMap (discovered node (Pretty NewEncoder))) (xml.mkName u l)
       = p +:+ ":" +:+ l) /\
  xml.mkAttr (xml.mkName "xmlns" "p") "urn:x" ∈ Attributes rebind /\
  Bytes forwards rebind =
    Some ("<root" +:+ declsText [("ns", "xmlns"); ("p", "urn:y")] +:+ ">" +:+ nl +:+
          " <p:a/>" +:+ nl +:+ " <p:b/>" +:+ nl +:+ "</root>" +:+ nl) /\
  nsURLMap (discovered rebind (Pretty NewEncoder)) !! "urn:x" = Some "p" /\
  (forall ord, valid_order ord ->
     ("p", "urn:x") ∉ ord (nsPrefixMap (discovered rebind (Pretty NewEncoder)))) /\
  ~ (forall ord node p u,
       valid_order ord ->
       nsURLMap (discovered node (Pretty NewEncoder)) !! u = Some p ->
       (p, u) ∈ ord (nsPrefixMap (discovered node (Pretty NewEncoder)))).
Proof.
  assert (Hl : forall ord, valid_order ord ->
     ("p", "urn:x") ∉ ord (nsPrefixMap (discovered late_declaration (Pretty NewEncoder)))).
  { intros ord Hv. rewrite (Hv _), elem_of_map_to_list. by vm_compute. }
  assert (Hr : forall ord, valid_order ord ->
     ("p", "urn:x") ∉ ord (nsPrefixMap (discovered rebind (Pretty NewEncoder)))).
  { intros ord Hv. rewrite (Hv _), elem_of_map_to_list. by vm_compute. }
  assert (Ha : xml.mkAttr (xml.mkName "xmlns" "p") "urn:x" ∈ all_attributes late_declaration).
  { cbn. apply elem_of_cons. by left. }
  assert (Hn : xml.mkName "urn:x" "childname" ∈ descendant_names late_declaration).
  { cbn. apply elem_of_cons. by left. }
  split; [exact Ha|]. split; [exact Hn|]. split; [by vm_compute|]. split; [exact Hl|].
  split.
  { intros H. destruct (H forwards late_declaration "p" "urn:x" "childname"
                          valid_order_forwards Ha Hn) as [Hin _].
    by apply (Hl forwards valid_order_forwards). }
  split; [cbn; apply elem_of_cons; by left|].
  split; [by vm_compute|]. split; [by vm_compute|]. split; [exact Hr|].
  intros H. apply (Hr forwards valid_order_forwards).
  apply (H forwards rebind "p" "urn:x" valid_order_forwards). by vm_compute.
Qed.

(** C4 (amended). A serialization call on an encoder that has not started
    writes the opening tag of the first element with its own attributes,
    those in the ["xmlns"] space left out, then one declaration for each
    entry of the prefix map that discovery built, in the order in which the
    map is iterated, then the rest of the element.  An element encoded after
    the first one, as every nested element is, is written without any
    declaration, whatever the maps hold.

    Discovery makes the registration requests of the tree in order
    ([requests]: for each element its declarations, its name, the names of
    its attributes, then its children).  The declarations written are the
    full URI-to-prefix map exactly when no declaration asks for a prefix
    that is bound already at the time its URI is first registered
    ([clash_free]).

    A declaration [xmlns:p="u"] is honoured when it is the first request for
    [u] and no later request binds [p] to another URI: the declarations
    written then contain [p] once, for [u], and every name in the namespace
    [u] is rendered as [p:local].  That is so when the root carries the
    declaration and no other attribute of the tree is a declaration;
    [declared_child] is such a tree, its child is written [p:childname]. *)
Theorem declarations_on_first_element_only :
  (forall ord node e,
     valid_order ord -> started e = false ->
     exists decls,
       decls ≡ₚ map_to_list (nsPrefixMap (discovered node e)) /\
       Encode ord node e =
       Some (WriteString
               (opening (nsURLMap (discovered node e)) (pretty e) (depth e) node +:+
                declsText decls +:+
                closing (nsURLMap (discovered node e)) (pretty e) (depth e) node)
               (discovered node e))) /\
  (forall ord node e,
     started e = true ->
     Forall (covered (nsURLMap e)) (rendered_names node) ->
     Encode ord node e =
     Some (WriteString
             (opening (nsURLMap e) (pretty e) (depth e) node +:+
              closing (nsURLMap e) (pretty e) (depth e) node) e)) /\
  (forall um pr d node,
     children node <> [] ->
     closing um pr d node =
     ">" +:+
     (if bool_decide (0 < String.length (Content node))
      then EscapeText (Content node) else EmptyString) +:+
     eol pr +:+
     concat_strings
       (map (fun c => opening um pr (S d) c +:+ closing um pr (S d) c)
            (children node)) +:+
     ind pr d +:+ "</" +:+ qname um (Name node) +:+ ">" +:+ eol pr) /\
  (forall node e, addNamespaces node e = fold_left register (requests node) e) /\
  (forall ord node e,
     valid_order ord -> in_step e ->
     (clash_free (requests node) e = true <-> in_step (discovered node e)) /\
     (clash_free (requests node) e = true ->
      forall p u, (p, u) ∈ ord (nsPrefixMap (discovered node e)) <->
                  nsURLMap (discovered node e) !! u = Some p)) /\
  (forall ord node p u pre post,
     valid_order ord ->
     p <> EmptyString -> u <> EmptyString -> u <> "xmlns" ->
     requests node = pre ++ (u, p) :: post ->
     Forall (fun r => r.1 <> u) pre ->
     keeps_prefix p post (fold_left register (pre ++ [(u, p)]) (Pretty NewEncoder)) = true ->
     exists um decls,
       Bytes ord node =
         Some (opening um true 0 node +:+ declsText decls +:+ closing um true 0 node) /\
       (p, u) ∈ decls /\ NoDup decls.*1 /\
       forall l, qname um (xml.mkName u l) = p +:+ ":" +:+ l) /\
  (forall ord node p u,
     valid_order ord ->
     p <> EmptyString -> u <> EmptyString -> u <> "xmlns" ->
     declares_only node p u ->
     exists um decls,
       Bytes ord node =
         Some (opening um true 0 node +:+ declsText decls +:+ closing um true 0 node) /\
       (p, u) ∈ decls /\ NoDup decls.*1 /\
       forall l, qname um (xml.mkName u l) = p +:+ ":" +:+ l) /\
  (forall ord,
     valid_order ord ->
     exists decls,
       Bytes ord declared_child =
         Some ("<root" +:+ declsText decls +:+ ">" +:+ nl +:+
               " <p:childname/>" +:+ nl +:+ "</root>" +:+ nl) /\
       ("p", "urn:x") ∈ decls /\ NoDup decls.*1).
Proof.
  assert (HB : forall ord node p u,
     valid_order ord -> u <> EmptyString -> u <> "xmlns" ->
     bound p u (discovered node (Pretty NewEncoder)) ->
     Bytes ord node =
       Some (markup (nsURLMap (discovered node (Pretty NewEncoder))) true 0
               (declsText (ord (nsPrefixMap (discovered node (Pretty NewEncoder)))))
               node) /\
     (p, u) ∈ ord (nsPrefixMap (discovered node (Pretty NewEncoder))) /\
     NoDup (ord (nsPrefixMap (discovered node (Pretty NewEncoder)))).*1 /\
     forall l, qname (nsURLMap (discovered node (Pretty NewEncoder))) (xml.mkName u l)
               = p +:+ ":" +:+ l).
  { intros ord node p u Hv Hu Hx [Hum Hpm].
    destruct (declared_once ord _ p u Hv Hpm) as [Hin Hnd].
    split; [apply Bytes_markup|]. split; [done|]. split; [done|].
    intros l. unfold qname. cbn [xml.Space xml.Local].
    rewrite !decide_False by done. by rewrite Hum. }
  assert (HG : forall ord node p u,
     valid_order ord ->
     p <> EmptyString -> u <> EmptyString -> u <> "xmlns" ->
     declares_only node p u ->
     Bytes ord node =
       Some (markup (nsURLMap (discovered node (Pretty NewEncoder))) true 0
               (declsText (ord (nsPrefixMap (discovered node (Pretty NewEncoder)))))
               node) /\
     (p, u) ∈ ord (nsPrefixMap (discovered node (Pretty NewEncoder))) /\
     NoDup (ord (nsPrefixMap (discovered node (Pretty NewEncoder)))).*1 /\
     forall l, qname (nsURLMap (discovered node (Pretty NewEncoder))) (xml.mkName u l)
               = p +:+ ":" +:+ l).
  { intros ord node p u Hv Hp Hu Hx Hd. apply HB; [done..|].
    by apply declared_prefix_bound. }
  split; [|split; [|split; [|split; [|split; [|split; [|split]]]]]].
  - intros ord node e Hv Hs. eexists. split; [apply Hv|].
    by rewrite Encode_fresh.
  - intros ord node e Hs Hc. by rewrite (Encode_started ord node e Hs Hc).
  - intros um pr d node Hcs. rewrite closing_eq.
    destruct (children node) as [|c cs] eqn:Hch; [done|].
    rewrite bool_decide_false by (simpl; lia).
    rewrite (bool_decide_true (0 < length (c :: cs))) by (simpl; lia).
    by rewrite !sapp_assoc.
  - apply addNamespaces_requests.
  - intros ord node e Hv He. split; [by apply in_step_discovered|].
    intros Hc. apply declarations_in_step; [done|]. by apply in_step_discovered.
  - intros ord node p u pre post Hv Hp Hu Hx Hr Hpre Hk.
    destruct (HB ord node p u Hv Hu Hx) as (Hb & Hin & Hnd & Hq).
    { by apply (first_request_bound node p u pre post). }
    eexists _, _. split; [exact Hb|]. by split.
  - intros ord node p u Hv Hp Hu Hx Hd.
    destruct (HG ord node p u Hv Hp Hu Hx Hd) as (Hb & Hin & Hnd & Hq).
    eexists _, _. split; [exact Hb|]. by split.
  - intros ord Hv.
    destruct (HG ord declared_child "p" "urn:x" Hv) as (Hb & Hin & Hnd & _);
      [done..|by split|].
    eexists. split; [|by split].
    rewrite Hb. unfold markup.
    assert (Ho : opening (nsURLMap (discovered declared_child (Pretty NewEncoder)))
                   true 0 declared_child = "<root") by (vm_compute; reflexivity).
    assert (Hc : closing (nsURLMap (discovered declared_child (Pretty NewEncoder)))
                   true 0 declared_child
                 = ">" +:+ nl +:+ " <p:childname/>" +:+ nl +:+ "</root>" +:+ nl)
      by (vm_compute; reflexivity).
    by rewrite Ho, Hc.
Qed.

Lemma declarations_on_first_element_only_witness :
  valid_order forwards /\
  started NewEncoder = false /\
  declares_only declared_child "p" "urn:x" /\
  clash_free (requests declared_child) (Pretty NewEncoder) = true /\
  (exists decls,
    Bytes forwards declared_child =
      Some ("<root" +:+ declsText decls +:+ ">" +:+ nl +:+
            " <p:childname/>" +:+ nl +:+ "</root>" +:+ nl) /\
    ("p", "urn:x") ∈ decls /\ NoDup decls.*1) /\
  (exists um decls,
    Bytes forwards (mkElement (plain "root") [late_declaration] EmptyString
                              [xml.mkAttr (xml.mkName "xmlns" "p") "urn:x"]) =
      Some (opening um true 0
              (mkElement (plain "root") [late_declaration] EmptyString
                         [xml.mkAttr (xml.mkName "xmlns" "p") "urn:x"]) +:+
            declsText decls +:+
            closing um true 0
              (mkElement (plain "root") [late_declaration] EmptyString
                         [xml.mkAttr (xml.mkName "xmlns" "p") "urn:x"])) /\
    ("p", "urn:x") ∈ decls /\ NoDup decls.*1 /\
    forall l, qname um (xml.mkName "urn:x" l) = "p" +:+ ":" +:+ l).
Proof.
  split; [exact valid_order_forwards|]. split; [reflexivity|].
  split; [by split|]. split; [reflexivity|]. split.
  - exact (proj2 (proj2 (proj2 (proj2 (proj2 (proj2 (proj2
             declarations_on_first_element_only))))))
             forwards valid_order_forwards).
  - refine (proj1 (proj2 (proj2 (proj2 (proj2 (proj2
              declarations_on_first_element_only)))))
              forwards
              (mkElement (plain "root") [late_declaration] EmptyString
                         [xml.mkAttr (xml.mkName "xmlns" "p") "urn:x"])
              "p" "urn:x" [] _ valid_order_forwards _ _ _ eq_refl _ _);
      [done|done|done|constructor|reflexivity].
Defined.

(** C9 (as stated, it fails). With the entries of the prefix map visited in
    one order or in the other, [two_namespaces] is serialized to two
    different byte sequences. *)
Lemma Bytes_depends_on_map_order :
  valid_order forwards /\ valid_order backwards /\
  Bytes forwards two_namespaces <> Bytes backwards two_namespaces /\
  ~ (forall ord1 ord2 node,
       valid_order ord1 -> valid_order ord2 -> Bytes ord1 node = Bytes ord2 node).
Proof.
  split; [exact valid_order_forwards|]. split; [exact valid_order_backwards|].
  assert (Hne : Bytes forwards two_namespaces <> Bytes backwards two_namespaces).
  { intros H. vm_compute in H. discriminate H. }
  split; [exact Hne|].
  intros H. apply Hne.
  exact (H forwards backwards two_namespaces
           valid_order_forwards valid_order_backwards).
Qed.

(** C9 (amended). Two serializations of the same element write the same
    bytes before and after the namespace declarations of the first tag and
    declare the same prefixes, in an order that is that of the map iteration
    of each call; they are identical when discovery has found at most one
    prefix, and so when no name of the element is in a namespace. *)
Theorem Bytes_deterministic_up_to_declaration_order :
  forall ord1 ord2 node,
    valid_order ord1 -> valid_order ord2 ->
    let pm := nsPrefixMap (discovered node (Pretty NewEncoder)) in
    (exists pre post,
       Bytes ord1 node = Some (pre +:+ declsText (ord1 pm) +:+ post) /\
       Bytes ord2 node = Some (pre +:+ declsText (ord2 pm) +:+ post) /\
       ord1 pm ≡ₚ ord2 pm) /\
    (size pm <= 1 -> Bytes ord1 node = Bytes ord2 node) /\
    (plain_names node = true -> Bytes ord1 node = Bytes ord2 node).
Proof.
  intros ord1 ord2 node H1 H2 pm. split; [|split].
  - eexists _, _. rewrite !Bytes_markup. unfold markup.
    split; [reflexivity|]. split; [reflexivity|].
    by rewrite (H1 pm), (H2 pm).
  - intros Hsz.
    assert (Heq : ord1 pm = ord2 pm).
    { apply (small_permutation _ _ (map_to_list pm));
        [apply H1|apply H2|by rewrite length_map_to_list]. }
    unfold pm in Heq. by rewrite !Bytes_markup, Heq.
  - intros Hp. by rewrite !Bytes_plain.
Qed.

(** The two orders on [two_namespaces]. *)
Lemma Bytes_deterministic_up_to_declaration_order_witness :
  valid_order forwards /\ valid_order backwards /\
  exists pre post,
    Bytes forwards two_namespaces =
      Some (pre +:+
            declsText (forwards (nsPrefixMap (discovered two_namespaces (Pretty NewEncoder))))
            +:+ post) /\
    Bytes backwards two_namespaces =
      Some (pre +:+
            declsText (backwards (nsPrefixMap (discovered two_namespaces (Pretty NewEncoder))))
            +:+ post).
Proof.
  split; [exact valid_order_forwards|]. split; [exact valid_order_backwards|].
  destruct (proj1 (Bytes_deterministic_up_to_declaration_order forwards backwards
                     two_namespaces valid_order_forwards valid_order_backwards))
    as (pre & post & Hf & Hb & _).
  exists pre, post. exact (conj Hf Hb).
Defined.

(** C10. An element without children and with empty content is written as
    its opening tag (with the declarations, on a first element), then [/>],
    then a newline in pretty mode: the closing text is [/>] and not [>]
    followed by an end-tag.  For an element that has only a local name,
    [Bytes] is [<name/>] and a newline. *)
Theorem empty_element_is_self_closing :
  (forall um pr d node,
     children node = [] -> Content node = EmptyString ->
     closing um pr d node = "/>" +:+ eol pr) /\
  (forall ord node e,
     children node = [] -> Content node = EmptyString ->
     started e = false ->
     Encode ord node e =
     Some (WriteString
             (opening (nsURLMap (discovered node e)) (pretty e) (depth e) node +:+
              declsText (ord (nsPrefixMap (discovered node e))) +:+
              "/>" +:+ eol (pretty e))
             (discovered node e))) /\
  (forall ord node e,
     children node = [] -> Content node = EmptyString ->
     started e = true ->
     Forall (covered (nsURLMap e)) (rendered_names node) ->
     Encode ord node e =
     Some (WriteString
             (opening (nsURLMap e) (pretty e) (depth e) node +:+
              "/>" +:+ eol (pretty e)) e)) /\
  (forall ord n,
     valid_order ord -> Bytes ord (ElementN n) = Some ("<" +:+ n +:+ "/>" +:+ nl)).
Proof.
  assert (Hcl : forall um pr d node,
     children node = [] -> Content node = EmptyString ->
     closing um pr d node = "/>" +:+ eol pr).
  { intros um pr d node Hc Ht. rewrite closing_eq, Hc, Ht. done. }
  split; [exact Hcl|]. split; [|split].
  - intros ord node e Hc Ht Hs. rewrite Encode_fresh by done.
    unfold markup. by rewrite Hcl.
  - intros ord node e Hc Ht Hs Hcov. rewrite (Encode_started ord node e Hs Hcov).
    unfold markup. by rewrite Hcl.
  - intros ord n Hv. rewrite Bytes_markup.
    change (discovered (ElementN n) (Pretty NewEncoder))
      with (set_started true (Pretty NewEncoder)).
    cbn [nsPrefixMap nsURLMap set_started Pretty NewEncoder].
    pose proof (Hv ∅) as HP. rewrite map_to_list_empty in HP.
    apply Permutation_nil_r in HP. rewrite HP.
    unfold markup. rewrite Hcl by done.
    unfold opening, ElementN, CreateElement, qname, attrsText, declsText.
    cbn [Name Attributes xml.Space xml.Local map concat_strings ind indent eol make replicate].
    rewrite decide_True by done. by rewrite !sapp_assoc.
Qed.

Lemma empty_element_is_self_closing_witness :
  valid_order forwards /\
  Bytes forwards (ElementN "name") = Some ("<name/>" +:+ nl).
Proof.
  split; [exact valid_order_forwards|].
  exact (proj2 (proj2 (proj2 empty_element_is_self_closing))
           forwards "name" valid_order_forwards).
Defined.

(** ** Round trip *)

Section RoundTrip.

(** *** The decoder on the text of an element *)

(** A fact about one byte, checked on each of the 256 bytes. *)
Ltac by_cases_on_byte x :=
  destruct x as [[] [] [] [] [] [] [] []];
  intros H; vm_compute in H; try discriminate H; reflexivity.

Lemma run_app lx (a b : string) : run lx (a +:+ b) = run (run lx a) b.
Proof.
  revert lx. induction a as [|c a IH]; intros lx; [done|].
  rewrite sapp_cons. simpl. apply IH.
Qed.

Lemma step_text toks stk acc x :
  isTextByte x = true ->
  step (mkLexer toks stk (InText acc)) x = mkLexer toks stk (InText (snoc acc x)).
Proof. by_cases_on_byte x. Qed.

Lemma step_escaped toks stk acc x :
  isXMLChar x = true ->
  run (mkLexer toks stk (InText acc)) (escapeByte x)
  = mkLexer toks stk (InText (snoc acc x)).
Proof. by_cases_on_byte x. Qed.

Lemma run_cons lx c s : run lx (String c s) = run (step lx c) s.
Proof. reflexivity. Qed.

Lemma snoc_app acc x s : snoc acc x +:+ s = acc +:+ String x s.
Proof. unfold snoc. by rewrite sapp_assoc. Qed.

(** Character data without markup is accumulated. *)
Lemma run_text s : forall toks stk acc,
  all_bytes isTextByte s = true ->
  run (mkLexer toks stk (InText acc)) s = mkLexer toks stk (InText (acc +:+ s)).
Proof.
  induction s as [|x s IH]; intros toks stk acc Hs.
  - by rewrite sapp_nil_r.
  - simpl in Hs. apply andb_true_iff in Hs as [Hx Hs].
    rewrite run_cons, step_text, IH, snoc_app by done. done.
Qed.

Lemma isXMLChar_isASCII x : isXMLChar x = true -> isASCII x = true.
Proof. by_cases_on_byte x. Qed.

Lemma all_isXMLChar_isASCII s : all_bytes isXMLChar s = true -> all_bytes isASCII s = true.
Proof.
  induction s as [|c s IH]; [done|]. simpl. intros [Hc Hs]%andb_true_iff.
  by rewrite (isXMLChar_isASCII _ Hc), IH.
Qed.

(** Escaped text is read back as the text. *)
Lemma run_escaped s : forall toks stk acc,
  all_bytes isXMLChar s = true ->
  run (mkLexer toks stk (InText acc)) (EscapeText s)
  = mkLexer toks stk (InText (acc +:+ s)).
Proof.
  induction s as [|x s IH]; intros toks stk acc Hs.
  - by rewrite sapp_nil_r.
  - simpl in Hs. apply andb_true_iff in Hs as [Hx Hs].
    rewrite (EscapeText_cons _ _ (isXMLChar_isASCII _ Hx)).
    rewrite run_app, step_escaped, IH, snoc_app by done. done.
Qed.

Lemma step_tag_open toks stk x :
  isNameStart x = true ->
  step (mkLexer toks stk TagOpen) x = mkLexer toks stk (InStartName (String x EmptyString)).
Proof. by_cases_on_byte x. Qed.

Lemma step_start_name toks stk n x :
  isNameByte x = true ->
  step (mkLexer toks stk (InStartName n)) x = mkLexer toks stk (InStartName (snoc n x)).
Proof. intros H. unfold step. simpl. by rewrite H. Qed.

Lemma run_start_name s : forall toks stk n,
  all_bytes isNameByte s = true ->
  run (mkLexer toks stk (InStartName n)) s = mkLexer toks stk (InStartName (n +:+ s)).
Proof.
  induction s as [|x s IH]; intros toks stk n Hs.
  - by rewrite sapp_nil_r.
  - simpl in Hs. apply andb_true_iff in Hs as [Hx Hs].
    rewrite run_cons, step_start_name, IH, snoc_app by done. done.
Qed.

(** From [<] to the end of the element name. *)
Lemma run_open_name n toks stk acc :
  isXMLName n = true ->
  run (mkLexer toks stk (InText acc)) ("<" +:+ n)
  = mkLexer (emit_text acc toks) stk (InStartName n).
Proof.
  destruct n as [|x n]; [done|]. intros H. simpl in H.
  apply andb_true_iff in H as [Hx Hn].
  rewrite sapp_cons, run_cons. 
  change (step (mkLexer toks stk (InText acc)) "<")
    with (mkLexer (emit_text acc toks) stk TagOpen).
  rewrite sapp_nil_l, run_cons, step_tag_open, run_start_name by done. done.
Qed.

Lemma step_attr_start toks stk n attrs x :
  isNameStart x = true ->
  step (mkLexer toks stk (InTag n attrs)) x
  = mkLexer toks stk (InAttrName n attrs (String x EmptyString)).
Proof. by_cases_on_byte x. Qed.

Lemma step_attr_name toks stk n attrs an x :
  isNameByte x = true ->
  step (mkLexer toks stk (InAttrName n attrs an)) x
  = mkLexer toks stk (InAttrName n attrs (snoc an x)).
Proof. intros H. unfold step. simpl. by rewrite H. Qed.

Lemma run_attr_name s : forall toks stk n attrs an,
  all_bytes isNameByte s = true ->
  run (mkLexer toks stk (InAttrName n attrs an)) s
  = mkLexer toks stk (InAttrName n attrs (an +:+ s)).
Proof.
  induction s as [|x s IH]; intros toks stk n attrs an Hs.
  - by rewrite sapp_nil_r.
  - simpl in Hs. apply andb_true_iff in Hs as [Hx Hs].
    rewrite run_cons, step_attr_name, IH, snoc_app by done. done.
Qed.

Lemma step_value toks stk n attrs an v x :
  isValueByte x = true ->
  step (mkLexer toks stk (InAttrValue n attrs an "034" v)) x
  = mkLexer toks stk (InAttrValue n attrs an "034" (snoc v x)).
Proof. by_cases_on_byte x. Qed.

Lemma run_value s : forall toks stk n attrs an v,
  all_bytes isValueByte s = true ->
  run (mkLexer toks stk (InAttrValue n attrs an "034" v)) s
  = mkLexer toks stk (InAttrValue n attrs an "034" (v +:+ s)).
Proof.
  induction s as [|x s IH]; intros toks stk n attrs an v Hs.
  - by rewrite sapp_nil_r.
  - simpl in Hs. apply andb_true_iff in Hs as [Hx Hs].
    rewrite run_cons, step_value, IH, snoc_app by done. done.
Qed.

(** One attribute, as [encodeAttr] writes it. *)
Lemma run_attr toks stk n attrs an v :
  isXMLName an = true -> an <> "xmlns" -> all_bytes isValueByte v = true ->
  run (mkLexer toks stk (InTag n attrs))
      (" " +:+ an +:+ "=" +:+ dquote +:+ v +:+ dquote)
  = mkLexer toks stk (InTag n (attrs ++ [xml.mkAttr (plain an) v])).
Proof.
  intros Han Hx Hv. destruct an as [|x an]; [done|].
  simpl in Han. apply andb_true_iff in Han as [Hx1 Han].
  rewrite sapp_cons, run_cons.
  change (step (mkLexer toks stk (InTag n attrs)) " ")
    with (mkLexer toks stk (InTag n attrs)).
  rewrite sapp_nil_l. rewrite sapp_cons. rewrite run_cons.
  rewrite step_attr_start by done.
  rewrite run_app, run_attr_name by done. rewrite (sapp_cons x), sapp_nil_l.
  rewrite sapp_cons, run_cons.
  assert (Heq : step (mkLexer toks stk (InAttrName n attrs (String x an))) "="
          = mkLexer toks stk (AfterEq n attrs (String x an))).
  { unfold step. simpl. unfold after_attr_name. simpl. by rewrite decide_False. }
  rewrite Heq, sapp_nil_l. unfold dquote at 1. rewrite sapp_cons, run_cons.
  change (step (mkLexer toks stk (AfterEq n attrs (String x an))) "034")
    with (mkLexer toks stk (InAttrValue n attrs (String x an) "034" EmptyString)).
  rewrite sapp_nil_l, run_app, run_value by done. rewrite sapp_nil_l.
  reflexivity.
Qed.

Lemma attr_ok_eq a :
  attr_ok a = true ->
  a = xml.mkAttr (plain (xml.Local (xml.AName a))) (xml.Value a) /\
  isXMLName (xml.Local (xml.AName a)) = true /\
  xml.Local (xml.AName a) <> "xmlns" /\
  all_bytes isValueByte (xml.Value a) = true.
Proof.
  destruct a as [[sp lo] v]. unfold attr_ok. simpl.
  intros [[[Hs%bool_decide_eq_true Hn]%andb_true_iff Hx]%andb_true_iff Hv]%andb_true_iff.
  subst sp. apply negb_true_iff, bool_decide_eq_false in Hx. done.
Qed.

Lemma attrText_plain a :
  attr_ok a = true ->
  attrText ∅ a = " " +:+ xml.Local (xml.AName a) +:+ "=" +:+ dquote +:+
                 xml.Value a +:+ dquote.
Proof.
  intros (Ha & _)%attr_ok_eq. rewrite Ha. reflexivity.
Qed.

Lemma run_attrs l : forall toks stk n attrs,
  forallb attr_ok l = true ->
  run (mkLexer toks stk (InTag n attrs)) (attrsText ∅ l)
  = mkLexer toks stk (InTag n (attrs ++ l)).
Proof.
  induction l as [|a l IH]; intros toks stk n attrs Hl.
  - by rewrite app_nil_r.
  - simpl in Hl. apply andb_true_iff in Hl as [Ha Hl].
    unfold attrsText. cbn [map concat_strings]. rewrite run_app.
    rewrite (attrText_plain _ Ha).
    destruct (attr_ok_eq _ Ha) as (Heq & Hn & Hx & Hv).
    rewrite run_attr by done. rewrite <- Heq.
    fold (attrsText ∅ l). rewrite IH by done. by rewrite <- app_assoc.
Qed.

Lemma run_after_name toks stk n s :
  tag_tail s = true ->
  run (mkLexer toks stk (InStartName n)) s = run (mkLexer toks stk (InTag n [])) s.
Proof.
  destruct s as [|c s]; [done|]. intros H. simpl in H.
  apply bool_decide_eq_true in H. rewrite !run_cons. f_equal.
  destruct H as [->|[->| ->]]; reflexivity.
Qed.

Lemma tag_tail_app (a b : string) :
  (a = EmptyString -> tag_tail b = true) -> (a <> EmptyString -> tag_tail a = true) ->
  tag_tail (a +:+ b) = true.
Proof. destruct a as [|c a]; [by intros H _; apply H|]. intros _ H. by apply H. Qed.

Lemma emit_text_app w toks : emit_text w toks = toks ++ emit_text w [].
Proof. unfold emit_text. case_decide; [by rewrite app_nil_r|done]. Qed.

Lemma run_self_close toks stk n attrs :
  run (mkLexer toks stk (InTag n attrs)) ("/>" +:+ nl)
  = mkLexer (toks ++ [StartElement (plain n) attrs; EndElement (plain n)]) stk (InText nl).
Proof. reflexivity. Qed.

Lemma run_tag_close toks stk n attrs :
  run (mkLexer toks stk (InTag n attrs)) ">"
  = mkLexer (toks ++ [StartElement (plain n) attrs]) (n :: stk) (InText EmptyString).
Proof. reflexivity. Qed.

Lemma step_end_start toks stk x :
  isNameStart x = true ->
  step (mkLexer toks stk (InEndName EmptyString)) x
  = mkLexer toks stk (InEndName (String x EmptyString)).
Proof. by_cases_on_byte x. Qed.

Lemma step_end_name toks stk n c x :
  isNameByte x = true ->
  step (mkLexer toks stk (InEndName (String c n))) x
  = mkLexer toks stk (InEndName (snoc (String c n) x)).
Proof.
  intros H. unfold step. cbn [mode emitted open_tags].
  replace (bool_decide (x = ":"%char) || isHigh x) with false.
  - rewrite decide_False by done. by rewrite H.
  - revert H. clear. destruct x as [[] [] [] [] [] [] [] []]; intros H;
      vm_compute in H; try discriminate H; reflexivity.
Qed.

Lemma run_end_name s : forall toks stk c n,
  all_bytes isNameByte s = true ->
  run (mkLexer toks stk (InEndName (String c n))) s
  = mkLexer toks stk (InEndName (String c n +:+ s)).
Proof.
  induction s as [|x s IH]; intros toks stk c n Hs.
  - by rewrite sapp_nil_r.
  - simpl in Hs. apply andb_true_iff in Hs as [Hx Hs].
    rewrite run_cons, step_end_name by done. unfold snoc. rewrite sapp_cons.
    rewrite IH by done. rewrite !sapp_cons, sapp_assoc. done.
Qed.

Lemma run_end_tag toks stk n acc :
  isXMLName n = true ->
  run (mkLexer toks (n :: stk) (InText acc)) ("</" +:+ n +:+ ">")
  = mkLexer (emit_text acc toks ++ [EndElement (plain n)]) stk (InText EmptyString).
Proof.
  destruct n as [|x n]; [done|]. intros H. simpl in H.
  apply andb_true_iff in H as [Hx Hn].
  change ("</" +:+ String x n +:+ ">") with (String "<" (String "/" (String x (n +:+ ">")))).
  rewrite !run_cons.
  change (step (step (mkLexer toks (String x n :: stk) (InText acc)) "<") "/")
    with (mkLexer (emit_text acc toks) (String x n :: stk) (InEndName EmptyString)).
  rewrite step_end_start by done. rewrite run_app, run_end_name by done.
  rewrite sapp_cons, sapp_nil_l. 
  unfold run, step. cbn [mode emitted open_tags].
  change (bool_decide (">"%char = ":"%char) || isHigh ">") with false. cbn iota.
  rewrite decide_False by done.
  change (isNameByte ">") with false. cbn iota.
  unfold after_end_name.
  change (isTagSpace ">") with false. cbn iota.
  rewrite bool_decide_true by done. unfold close_tag.
  by rewrite decide_True.
Qed.

Lemma text_indent d : all_bytes isTextByte (indent d) = true.
Proof.
  induction d as [|d IH]; [done|].
  change (indent (S d)) with (String " " (indent d)). simpl. by rewrite IH.
Qed.

Lemma space_indent d : all_bytes isSpace (indent d) = true.
Proof.
  induction d as [|d IH]; [done|].
  change (indent (S d)) with (String " " (indent d)). simpl. by rewrite IH.
Qed.

Lemma content_escaped c :
  (if bool_decide (0 < String.length c) then EscapeText c else EmptyString)
  = EscapeText c.
Proof. destruct c; case_bool_decide; try done; simpl in *; lia. Qed.

Lemma run_children cs d :
  Forall (lexes d) cs ->
  forall w toks0 stk,
    run (mkLexer toks0 stk (InText w))
        (concat_strings (map (fun c => opening ∅ true d c +:+ closing ∅ true d c) cs))
    = mkLexer (toks0 ++ toks_each (toks d) w cs) stk
              (InText (match cs with [] => w | _ => nl end)).
Proof.
  induction 1 as [|c cs Hc _ IH]; intros w toks0 stk.
  - simpl. by rewrite app_nil_r.
  - cbn [map concat_strings toks_each]. rewrite run_app, Hc, IH.
    rewrite <- app_assoc. by destruct cs.
Qed.

Lemma toks_eq d w node :
  toks d w node =
  emit_text (w +:+ indent d) [] ++
  StartElement (Name node) (Attributes node) ::
  (if bool_decide (length (children node) = 0 /\ String.length (Content node) = 0)
   then []
   else if bool_decide (0 < length (children node))
        then toks_each (toks (S d)) (Content node +:+ nl) (children node) ++
             [CharData (nl +:+ indent d)]
        else emit_text (Content node) []) ++
  [EndElement (Name node)].
Proof. by destruct node. Qed.

Lemma plain_ascii_eq node :
  plain_ascii node =
  bool_decide (xml.Space (Name node) = EmptyString) &&
  isXMLName (xml.Local (Name node)) &&
  forallb attr_ok (Attributes node) &&
  all_bytes isXMLChar (Content node) &&
  forallb plain_ascii (children node).
Proof. by destruct node. Qed.

(** The decoder reads the text of an element back as its tokens. *)
Lemma plain_ascii_lexes node :
  plain_ascii node = true -> forall d, lexes d node.
Proof.
  induction node as [[sp lo] cs c a IH] using Element_ind'.
  rewrite plain_ascii_eq. cbn [Name Attributes Content children xml.Space xml.Local].
  intros [[[[Hsp%bool_decide_eq_true Hlo]%andb_true_iff Ha]%andb_true_iff
           Hc]%andb_true_iff Hcs]%andb_true_iff.
  subst sp. intros d w toks0 stk.
  unfold opening. cbn [Name Attributes ind].
  change (qname ∅ (xml.mkName EmptyString lo)) with lo.
  rewrite !sapp_assoc. rewrite run_app, run_text by apply text_indent.
  rewrite <- (sapp_assoc "<" lo). rewrite run_app, run_open_name by done.
  assert (Hlex : Forall (lexes (S d)) cs).
  { apply Forall_forall. intros x Hx. rewrite Forall_forall in IH.
    apply IH; [done|]. rewrite forallb_forall in Hcs. apply Hcs.
    by apply list_elem_of_In. }
  assert (Hend : forall toks acc,
    run (mkLexer toks (lo :: stk) (InText acc)) ("</" +:+ lo +:+ ">" +:+ nl)
    = mkLexer (emit_text acc toks ++ [EndElement (plain lo)]) stk (InText nl)).
  { intros toks acc.
    replace ("</" +:+ lo +:+ ">" +:+ nl) with (("</" +:+ lo +:+ ">") +:+ nl)
      by (by rewrite !sapp_assoc).
    by rewrite run_app, run_end_tag. }
  rewrite run_after_name.
  2:{ apply tag_tail_app.
      - intros _. rewrite closing_eq. by case_bool_decide.
      - destruct a as [|x a]; [done|]. intros _.
        simpl in Ha. apply andb_true_iff in Ha as [Hx _].
        unfold attrsText. cbn [map concat_strings].
        by rewrite (attrText_plain _ Hx). }
  rewrite run_app, run_attrs by done. rewrite app_nil_l.
  rewrite closing_eq, toks_eq. cbn [Name Attributes Content children].
  change (qname ∅ (xml.mkName EmptyString lo)) with lo.
  change (eol true) with nl. change (ind true d) with (indent d).
  rewrite (emit_text_app _ toks0).
  case_bool_decide as Hempty.
  - rewrite run_self_close. by rewrite <- !app_assoc.
  - rewrite content_escaped.
    rewrite (run_app _ ">"), run_tag_close.
    rewrite run_app, run_escaped by done. rewrite sapp_nil_l.
    case_bool_decide as Hkids.
    + rewrite !sapp_assoc.
      rewrite (run_app _ nl), run_text by done.
      rewrite run_app, (run_children _ _ Hlex).
      destruct cs as [|c0 cs]; [simpl in Hkids; lia|].
      rewrite run_app, run_text by apply text_indent.
      rewrite Hend. unfold emit_text at 1.
      rewrite decide_False by (by destruct d).
      f_equal. rewrite <- !app_assoc. done.
    + rewrite sapp_nil_l, Hend.
      f_equal. rewrite (emit_text_app c). rewrite <- !app_assoc. done.
Qed.

(** *** Reading the tokens back *)

Lemma toks_body d w node :
  toks d w node =
  emit_text (w +:+ indent d) [] ++
  StartElement (Name node) (Attributes node) :: body_toks d node ++ [EndElement (Name node)].
Proof. by destruct node. Qed.

Lemma fold_AddAttr l : forall n cs c a,
  fold_left AddAttr l (mkElement n cs c a) = mkElement n cs c (a ++ l).
Proof.
  induction l as [|x l IH]; intros n cs c a; simpl; [by rewrite app_nil_r|].
  unfold AddAttr at 2. simpl. rewrite IH. by rewrite <- app_assoc.
Qed.

Lemma fold_AddChild l : forall n cs c a,
  fold_left AddChild l (mkElement n cs c a) = mkElement n (cs ++ l) c a.
Proof.
  induction l as [|x l IH]; intros n cs c a; simpl; [by rewrite app_nil_r|].
  unfold AddChild at 2. simpl. rewrite IH. by rewrite <- app_assoc.
Qed.

Lemma Body_app ts1 r r1 :
  Body ts1 r r1 -> forall ts2 r2, Body ts2 r1 r2 -> Body (ts1 ++ ts2) r r2.
Proof.
  induction 1 as [r|w ts r r' _ IH|name attr tsc n0 child ts r r' H1 _ _ IH2
                 |c ts r r' _ IH|t i ts r r' _ IH|c ts r r' _ IH];
    intros ts2 r2 H2; simpl.
  - done.
  - constructor. by apply IH.
  - rewrite <- app_assoc. simpl. econstructor; [exact H1|]. by apply IH2.
  - constructor. by apply IH.
  - constructor. by apply IH.
  - constructor. by apply IH.
Qed.

Lemma text_effect_blank w r : all_bytes isSpace w = true -> text_effect w r = r.
Proof. intros H. unfold text_effect. by rewrite (TrimSpace_blank _ H). Qed.

Lemma Body_emit_text w ts r r' :
  Body ts (text_effect w r) r' -> Body (emit_text w [] ++ ts) r r'.
Proof.
  unfold emit_text. case_decide as Hw.
  - subst w. by rewrite text_effect_blank.
  - intros H. simpl. by constructor.
Qed.


Lemma blank_nl_indent d : all_bytes isSpace (nl +:+ indent d) = true.
Proof. rewrite all_bytes_app, space_indent. done. Qed.


Lemma trimmed_contents_eq node :
  trimmed_contents node =
  bool_decide (TrimSpace (Content node) = Content node) &&
  forallb trimmed_contents (children node).
Proof. by destruct node. Qed.



Lemma ParseElements_single name attr body n w node :
  Body body (fold_left AddAttr attr (CreateElement name)) node ->
  ParseElements
    (mkDecoder (StartElement name attr :: body ++ [EndElement n; CharData w]) io_EOF)
  = Some ([node], None).
Proof.
  intros HB. unfold ParseElements, ParseElementsWithOptions. cbn [pending length].
  set (f := length (body ++ [EndElement n; CharData w])).
  assert (Hf : 2 <= f) by (unfold f; rewrite length_app; simpl; lia).
  change (elements_loop (S (S f)) _ [])
    with (r ← parseElement (S f) (mkDecoder (body ++ [EndElement n; CharData w]) io_EOF)
                           name attr;
          match r with
          | Err err => Some ([], Some err)
          | Ok element decoder => elements_loop (S f) decoder ([] ++ [element])
          end).
  unfold parseElement.
  rewrite (Body_parse _ _ _ HB (S f) n [CharData w] io_EOF) by (fold f; lia).
  cbn [mbind option_bind].
  destruct f as [|[|f]]; [lia..|]. reflexivity.
Qed.




End RoundTrip.

(** ** Claim about the round trip *)




(** * Further properties *)

(** ** More about the pointer view *)

Section PtrMore.
Import Ptr.

Lemma upd_data h p f q :
  (forall e, Name (f e) = Name e /\ Content (f e) = Content e /\
             Attributes (f e) = Attributes e) ->
  same_data (upd h p f q) (h q).
Proof.
  intros Hf. unfold upd, same_data. case_decide; [subst; apply Hf|done].
Qed.

Lemma same_data_trans e1 e2 e3 : same_data e1 e2 -> same_data e2 e3 -> same_data e1 e3.
Proof. unfold same_data. intros (?&?&?) (?&?&?). repeat split; congruence. Qed.

Lemma RemoveChild_data h node child q :
  same_data (fst (RemoveChild h node child) q) (h q).
Proof.
  destruct (decide (child ∈ children (h node))) as [Hin|Hn].
  - destruct (split_first _ _ Hin) as (l1 & l2 & Hl & Hn1).
    rewrite (RemoveChild_found _ _ _ _ _ Hl Hn1). cbn [fst].
    eapply same_data_trans; [by apply upd_data|by apply upd_data].
  - by rewrite RemoveChild_absent.
Qed.

Lemma RemoveChild_frame h node child q :
  q <> node -> q <> child -> fst (RemoveChild h node child) q = h q.
Proof.
  intros Hq1 Hq2.
  destruct (decide (child ∈ children (h node))) as [Hin|Hn].
  - destruct (split_first _ _ Hin) as (l1 & l2 & Hl & Hn1).
    rewrite (RemoveChild_found _ _ _ _ _ Hl Hn1). cbn [fst].
    by rewrite !upd_ne.
  - by rewrite RemoveChild_absent.
Qed.


(** X1. [node.RemoveChild(child)] for a [child] that is not among the
    children of [node] changes nothing in the store, the parent link of
    [child] included, and returns [node] itself rather than the child. *)
Theorem RemoveChild_of_non_child h node child :
  child ∉ children (h node) ->
  RemoveChild h node child = (h, node).
Proof.
  intros Hn. unfold RemoveChild. rewrite (search_absent _ _ _ Hn).
  by rewrite decide_True.
Qed.

Lemma RemoveChild_of_non_child_witness :
  (2 ∉ children (AddChild empty_heap 0 1 0)) /\
  RemoveChild (AddChild empty_heap 0 1) 0 2 = (AddChild empty_heap 0 1, 0).
Proof.
  assert (H : 2 ∉ children (AddChild empty_heap 0 1 0)).
  { simpl. intros [=]%list_elem_of_singleton. }
  exact (conj H (RemoveChild_of_non_child _ 0 2 H)).
Defined.

(** X2. [node.RemoveChild(child)] for a [child] that is among the children
    of [node] returns [child], removes its first occurrence only and keeps
    the order of the other children, sets the parent of [child] to nil, and
    leaves every other children sequence, every other parent link and all
    names, contents and attributes as they were. *)
Theorem RemoveChild_removes_first_occurrence h node child l1 l2 :
  children (h node) = l1 ++ child :: l2 -> child ∉ l1 ->
  snd (RemoveChild h node child) = child /\
  children (fst (RemoveChild h node child) node) = l1 ++ l2 /\
  parent (fst (RemoveChild h node child) child) = None /\
  (forall q, q <> node -> children (fst (RemoveChild h node child) q) = children (h q)) /\
  (forall q, q <> child -> parent (fst (RemoveChild h node child) q) = parent (h q)) /\
  (forall q, same_data (fst (RemoveChild h node child) q) (h q)).
Proof.
  intros Hl Hn. split; [|split; [|split; [|split; [|split]]]].
  - by rewrite (RemoveChild_found _ _ _ _ _ Hl Hn).
  - rewrite (RemoveChild_found _ _ _ _ _ Hl Hn). cbn [fst].
    rewrite children_upd_parent. by rewrite upd_eq.
  - rewrite (RemoveChild_found _ _ _ _ _ Hl Hn). cbn [fst]. by rewrite upd_eq.
  - intros q Hq. rewrite (RemoveChild_found _ _ _ _ _ Hl Hn). cbn [fst].
    rewrite children_upd_parent. by rewrite upd_ne.
  - intros q Hq. rewrite (RemoveChild_found _ _ _ _ _ Hl Hn). cbn [fst].
    rewrite upd_ne by done.
    by rewrite parent_upd_children with (f := fun _ => l1 ++ l2).
  - intros q. apply RemoveChild_data.
Qed.

Lemma RemoveChild_removes_first_occurrence_witness :
  children (AddChild (AddChild empty_heap 0 1) 0 2 0) = [] ++ 1 :: [2] /\
  (1 ∉ @nil ptr) /\
  children (fst (RemoveChild (AddChild (AddChild empty_heap 0 1) 0 2) 0 1) 0) = [2].
Proof.
  assert (H1 : children (AddChild (AddChild empty_heap 0 1) 0 2 0) = [] ++ 1 :: [2])
    by reflexivity.
  assert (H2 : 1 ∉ @nil ptr) by apply not_elem_of_nil.
  exact (conj H1 (conj H2
    (proj1 (proj2 (RemoveChild_removes_first_occurrence _ 0 1 [] [2] H1 H2))))).
Defined.

Lemma AddChild_data h node child q : same_data (AddChild h node child q) (h q).
Proof.
  unfold AddChild.
  eapply same_data_trans; [by apply upd_data|].
  eapply same_data_trans; [by apply upd_data|].
  destruct (parent (h child)); [apply RemoveChild_data|done].
Qed.

Lemma AddChild_frame h node child q :
  q <> node -> q <> child -> parent (h child) <> Some q ->
  AddChild h node child q = h q.
Proof.
  intros Hn Hc Hp. unfold AddChild. rewrite !upd_ne by done.
  destruct (parent (h child)) as [p|]; [|done].
  apply RemoveChild_frame; congruence.
Qed.

(** X3. [node.AddChild(child)] never changes a name, a content or an
    attribute list, and changes no element other than [node], [child] and
    the former parent of [child]. *)
Theorem AddChild_touches_three_cells h node child :
  (forall q, same_data (AddChild h node child q) (h q)) /\
  (forall q, q <> node -> q <> child -> parent (h child) <> Some q ->
             AddChild h node child q = h q).
Proof. split; [apply AddChild_data|apply AddChild_frame]. Qed.

Lemma AddChild_touches_three_cells_witness :
  3 <> 1 /\ 3 <> 2 /\ parent (AddChild empty_heap 0 2 2) <> Some 3 /\
  AddChild (AddChild empty_heap 0 2) 1 2 3 = AddChild empty_heap 0 2 3.
Proof.
  assert (H1 : 3 <> 1) by lia. assert (H2 : 3 <> 2) by lia.
  assert (H3 : parent (AddChild empty_heap 0 2 2) <> Some 3) by (simpl; congruence).
  exact (conj H1 (conj H2 (conj H3
    (proj2 (AddChild_touches_three_cells (AddChild empty_heap 0 2) 1 2) 3 H1 H2 H3)))).
Defined.


Lemma Element_ext (e1 e2 : Element) :
  same_data e1 e2 -> children e1 = children e2 -> parent e1 = parent e2 -> e1 = e2.
Proof.
  destruct e1, e2. unfold same_data. simpl. intros (?&?&?) ? ?. by subst.
Qed.

Lemma Inv_detached_nowhere h child p :
  Inv h -> parent (h child) = None -> child ∉ children (h p).
Proof. intros HI Hp Hin. apply HI in Hin. congruence. Qed.

(** X4. On a store that satisfies the invariant, adding a detached element
    to [node] and removing it again returns the element and restores the
    store, every element being what it was. *)
Theorem AddChild_then_RemoveChild_restores h node child :
  Inv h -> parent (h child) = None ->
  snd (RemoveChild (AddChild h node child) node child) = child /\
  forall q, fst (RemoveChild (AddChild h node child) node child) q = h q.
Proof.
  intros HI Hp.
  destruct (AddChild_detached h node child Hp) as (Hch & Hpa & Hfr).
  assert (Hl : children (AddChild h node child node) = children (h node) ++ child :: [])
    by exact Hch.
  pose proof (Inv_detached_nowhere h child node HI Hp) as Hn.
  rewrite (RemoveChild_found _ _ _ _ _ Hl Hn). split; [done|].
  intros q. cbn [fst]. rewrite app_nil_r.
  assert (Hpar : forall q, q <> child -> parent (AddChild h node child q) = parent (h q)).
  { intros q' Hq. unfold AddChild. rewrite Hp, parent_upd_children.
    by rewrite upd_ne. }
  apply Element_ext.
  - eapply same_data_trans; [by apply upd_data|].
    eapply same_data_trans; [by apply upd_data|].
    apply AddChild_data.
  - rewrite children_upd_parent.
    destruct (decide (q = node)) as [->|Hq].
    + by rewrite upd_eq.
    + rewrite upd_ne by done. by apply Hfr.
  - destruct (decide (q = child)) as [->|Hq].
    + by rewrite upd_eq, Hp.
    + rewrite upd_ne by done.
      destruct (decide (q = node)) as [->|Hq'].
      * rewrite upd_eq. by apply Hpar.
      * rewrite upd_ne by done. by apply Hpar.
Qed.

Lemma AddChild_then_RemoveChild_restores_witness :
  snd (RemoveChild (AddChild empty_heap 0 1) 0 1) = 1 /\
  forall q, fst (RemoveChild (AddChild empty_heap 0 1) 0 1) q = empty_heap q.
Proof.
  exact (AddChild_then_RemoveChild_restores empty_heap 0 1 Inv_empty_heap eq_refl).
Defined.

Lemma filter_ne_absent (c : ptr) (l : list ptr) : c ∉ l -> filter (fun x => x <> c) l = l.
Proof.
  induction l as [|x l IH]; [done|].
  intros Hn. apply not_elem_of_cons in Hn as [Hx Hl].
  rewrite filter_cons_True by done. by rewrite IH.
Qed.

Lemma filter_ne_NoDup (c : ptr) (l1 l2 : list ptr) :
  NoDup (l1 ++ c :: l2) -> filter (fun x => x <> c) (l1 ++ c :: l2) = l1 ++ l2.
Proof.
  intros Hnd. apply NoDup_remove_mid in Hnd as (_ & Hn & _).
  apply not_elem_of_app in Hn as [Hn1 Hn2].
  rewrite filter_app, filter_cons_False by (intros H; by apply H).
  by rewrite !filter_ne_absent.
Qed.

Lemma AddChild_parent_other h node child q :
  q <> child -> parent (AddChild h node child q) = parent (h q).
Proof.
  intros Hq. unfold AddChild. rewrite parent_upd_children, upd_ne by done.
  destruct (parent (h child)) as [p|] eqn:Hp; [|done].
  destruct (decide (child ∈ children (h p))) as [Hin|Hn].
  - destruct (split_first _ _ Hin) as (l1 & l2 & Hl & Hn1).
    rewrite (RemoveChild_found _ _ _ _ _ Hl Hn1). cbn [fst].
    rewrite upd_ne by done.
    destruct (decide (q = p)) as [->|Hqp]; [by rewrite upd_eq|by rewrite upd_ne].
  - by rewrite RemoveChild_absent.
Qed.

Lemma AddChild_parent_child h node child :
  parent (AddChild h node child child) = Some node.
Proof.
  unfold AddChild. by rewrite parent_upd_children, upd_eq.
Qed.

(** X5. On a store that satisfies the invariant, [node.AddChild(child)]
    moves [child]: afterwards its parent is [node], every other parent link
    is unchanged, the children of [node] are the former ones without
    [child] followed by [child], and the children of every other element
    are the former ones without [child]. *)
Theorem AddChild_moves h node child :
  Inv h ->
  parent (AddChild h node child child) = Some node /\
  (forall q, q <> child -> parent (AddChild h node child q) = parent (h q)) /\
  children (AddChild h node child node) =
    filter (fun x => x <> child) (children (h node)) ++ [child] /\
  (forall q, q <> node ->
     children (AddChild h node child q) = filter (fun x => x <> child) (children (h q))).
Proof.
  intros HI.
  split; [apply AddChild_parent_child|].
  split; [intros q; apply AddChild_parent_other|].
  assert (Hch : forall q, children (AddChild h node child q) =
            if decide (q = node)
            then filter (fun x => x <> child) (children (h node)) ++ [child]
            else filter (fun x => x <> child) (children (h q))).
  { intros q. unfold AddChild. rewrite attach_children.
    destruct (parent (h child)) as [p|] eqn:Hp.
    - assert (Hin : child ∈ children (h p)) by by apply HI.
      destruct (split_first _ _ Hin) as (l1 & l2 & Hl & Hn1).
      rewrite (RemoveChild_found _ _ _ _ _ Hl Hn1). cbn [fst].
      assert (Hnd : NoDup (l1 ++ child :: l2)) by (rewrite <- Hl; apply HI).
      assert (Hc : forall r, children (upd (upd h p (set_children (l1 ++ l2))) child
                                       (set_parent None) r) =
                             filter (fun x => x <> child) (children (h r))).
      { intros r. rewrite children_upd_parent.
        destruct (decide (r = p)) as [->|Hr].
        - rewrite upd_eq, Hl. cbn. by rewrite filter_ne_NoDup.
        - rewrite upd_ne by done. rewrite filter_ne_absent; [done|].
          intros Hin'. apply Hr. by eapply Inv_one_parent. }
      rewrite !Hc. by case_decide.
    - rewrite !filter_ne_absent by by apply Inv_detached_nowhere.
      by case_decide. }
  split.
  - by rewrite Hch, decide_True.
  - intros q Hq. by rewrite Hch, decide_False.
Qed.

Lemma AddChild_moves_witness :
  children (AddChild (AddChild (AddChild empty_heap 0 1) 0 2) 3 1 0) =
    filter (fun x => x <> 1) (children (AddChild (AddChild empty_heap 0 1) 0 2 0)).
Proof.
  assert (H : 0 <> 3) by lia.
  exact (proj2 (proj2 (proj2 (AddChild_moves (AddChild (AddChild empty_heap 0 1) 0 2) 3 1
    (AddChild_Inv _ _ _ (AddChild_Inv _ _ _ Inv_empty_heap))))) 0 H).
Defined.

(** X6. Adding an element to the parent it already has does not list it
    twice: its first occurrence is removed and it is appended, so it moves
    to the end of the children, and no other element changes. *)
Theorem AddChild_again_moves_to_end h node child l1 l2 :
  parent (h child) = Some node ->
  children (h node) = l1 ++ child :: l2 -> (child ∉ l1) ->
  children (AddChild h node child node) = l1 ++ l2 ++ [child] /\
  parent (AddChild h node child child) = Some node /\
  forall q, q <> node -> q <> child -> AddChild h node child q = h q.
Proof.
  intros Hp Hl Hn.
  split; [|split; [apply AddChild_parent_child|]].
  - unfold AddChild. rewrite attach_children, decide_True by done.
    rewrite Hp, (RemoveChild_found _ _ _ _ _ Hl Hn). cbn [fst].
    rewrite children_upd_parent, upd_eq. cbn. by rewrite <- app_assoc.
  - intros q Hq1 Hq2. apply AddChild_frame; [done..|]. rewrite Hp. congruence.
Qed.

Lemma AddChild_again_moves_to_end_witness :
  children (AddChild (AddChild (AddChild empty_heap 0 1) 0 2) 0 1 0) = [] ++ [2] ++ [1].
Proof.
  exact (proj1 (AddChild_again_moves_to_end (AddChild (AddChild empty_heap 0 1) 0 2)
    0 1 [] [2] eq_refl eq_refl (not_elem_of_nil 1))).
Defined.

(** X7. [AddChild] makes no check against cycles: an element added to itself
    becomes its own parent and is listed among its own children, and the
    parent/children invariant, which does not speak of cycles, still holds
    afterwards. *)
Theorem AddChild_accepts_cycles h node :
  Inv h ->
  parent (AddChild h node node node) = Some node /\
  node ∈ children (AddChild h node node node) /\
  Inv (AddChild h node node).
Proof.
  intros HI. split; [apply AddChild_parent_child|]. split; [|by apply AddChild_Inv].
  unfold AddChild. rewrite attach_children, decide_True by done.
  apply elem_of_app. right. by apply list_elem_of_singleton.
Qed.

Lemma AddChild_accepts_cycles_witness :
  parent (AddChild empty_heap 0 0 0) = Some 0 /\
  0 ∈ children (AddChild empty_heap 0 0 0) /\
  Inv (AddChild empty_heap 0 0).
Proof. exact (AddChild_accepts_cycles empty_heap 0 Inv_empty_heap). Defined.

(** X8. [node.SetParent(parent)] returns [node]; afterwards [node.Parent()] is
    [parent], [node] is the last child of [parent], and no other element
    has changed its parent. *)
Theorem SetParent_sets_parent h node p :
  snd (SetParent h node p) = node /\
  Parent (fst (SetParent h node p)) node = Some p /\
  (exists l, children (fst (SetParent h node p) p) = l ++ [node]) /\
  (forall q, q <> node -> Parent (fst (SetParent h node p)) q = Parent h q).
Proof.
  unfold SetParent, Parent. cbn [fst snd].
  split; [done|]. split; [apply AddChild_parent_child|].
  split; [|intros q; apply AddChild_parent_other].
  unfold AddChild. rewrite attach_children, decide_True by done. by eexists.
Qed.

Lemma add_attr_Inv h node a : Inv h -> Inv (upd h node (add_attr a)).
Proof.
  intros HI p.
  assert (Hc : forall q, children (upd h node (add_attr a) q) = children (h q)).
  { intros q. unfold upd. by case_decide; subst. }
  assert (Hp : forall q, parent (upd h node (add_attr a) q) = parent (h q)).
  { intros q. unfold upd. by case_decide; subst. }
  rewrite Hc. split; [apply HI|]. intros c. rewrite Hp. apply HI.
Qed.

(** X9. [AddAttr] appends the attribute to the attributes of its element,
    whether or not an attribute of that name is already there, and changes
    nothing else: not the element's name, content or links, not any other
    element, and so not the parent/children invariant. *)
Theorem AddAttr_appends_only h node a :
  Inv h ->
  Inv (AddAttr h node a) /\
  Attributes (AddAttr (AddAttr h node a) node a node) = Attributes (h node) ++ [a; a] /\
  Name (AddAttr h node a node) = Name (h node) /\
  Content (AddAttr h node a node) = Content (h node) /\
  children (AddAttr h node a node) = children (h node) /\
  parent (AddAttr h node a node) = parent (h node) /\
  (forall q, q <> node -> AddAttr h node a q = h q).
Proof.
  intros HI. split; [by apply add_attr_Inv|].
  unfold AddAttr. rewrite !upd_eq.
  split; [cbn; by rewrite <- app_assoc|].
  repeat (split; [done|]).
  intros q Hq. by rewrite upd_ne.
Qed.

Lemma AddAttr_appends_only_witness :
  Inv (AddAttr empty_heap 0 (xml.mkAttr (plain "k") "v")) /\
  Attributes (AddAttr (AddAttr empty_heap 0 (xml.mkAttr (plain "k") "v")) 0
                      (xml.mkAttr (plain "k") "v") 0)
  = Attributes (empty_heap 0) ++ [xml.mkAttr (plain "k") "v"; xml.mkAttr (plain "k") "v"].
Proof.
  pose proof (AddAttr_appends_only empty_heap 0 (xml.mkAttr (plain "k") "v")
                Inv_empty_heap) as H.
  exact (conj (proj1 H) (proj1 (proj2 H))).
Defined.

End PtrMore.

(** ** More about the tree builder *)

Section ParserMore.

Lemma all_trimmed_eq node :
  all_trimmed node = is_trimmed (Content node) && forallb all_trimmed (children node).
Proof. by destruct node. Qed.

(** A content that [TrimSpace] leaves as it is has no white space at its
    first and last byte. *)
Lemma trimmed_contents_all_trimmed node :
  trimmed_contents node = true -> all_trimmed node = true.
Proof.
  induction node as [n cs c a IH] using Element_ind'.
  rewrite trimmed_contents_eq, all_trimmed_eq. cbn [Content children].
  intros [Hc%bool_decide_eq_true Hcs]%andb_true_iff.
  rewrite (is_trimmed_fixed _ Hc). cbn [andb].
  apply forallb_forall. intros x Hx. rewrite Forall_forall in IH.
  apply IH; [by apply list_elem_of_In|]. rewrite forallb_forall in Hcs. by apply Hcs.
Qed.

Lemma trimmed_contents_AddChild r c :
  trimmed_contents r = true -> trimmed_contents c = true ->
  trimmed_contents (AddChild r c) = true.
Proof.
  rewrite !(trimmed_contents_eq r), (trimmed_contents_eq (AddChild r c)).
  cbn [AddChild Content children]. intros [H1 H2]%andb_true_iff Hc.
  rewrite H1, forallb_app, H2. cbn. by rewrite Hc.
Qed.

Lemma trimmed_contents_setContent w r :
  trimmed_contents r = true -> trimmed_contents (setContent (TrimSpace w) r) = true.
Proof.
  rewrite (trimmed_contents_eq r), (trimmed_contents_eq (setContent _ r)).
  cbn [setContent Content children]. intros [_ H2]%andb_true_iff.
  rewrite H2, andb_true_r. apply bool_decide_eq_true, TrimSpace_idem.
Qed.

Lemma trimmed_contents_start name attr :
  trimmed_contents (fold_left AddAttr attr (CreateElement name)) = true.
Proof. unfold CreateElement. by rewrite fold_AddAttr. Qed.

(** What the loop of [parseElement] keeps of the element it works on. *)
Lemma parse_loop_grows fuel : forall ts e res r d',
  parse_loop fuel (mkDecoder ts e) res = Some (Ok r d') ->
  Name r = Name res /\ Attributes r = Attributes res /\
  (exists cs, children r = children res ++ cs) /\
  (trimmed_contents res = true -> trimmed_contents r = true).
Proof.
  induction fuel as [|fuel IH]; intros ts e res r d' Hp; [done|].
  destruct ts as [|t ts]; simpl in Hp; [done|].
  destruct t as [name attr|n|rt|c|tg i|c].
  - destruct (parse_loop fuel _ (fold_left AddAttr attr (CreateElement name)))
      as [[child [ts' e']|e']|] eqn:Hin; simpl in Hp; [|done..].
    apply IH in Hin as (_ & _ & _ & Hct).
    apply IH in Hp as (Hn & Ha & (cs & Hcs) & Ht).
    split; [done|]. split; [done|]. split.
    + exists (child :: cs). rewrite Hcs. cbn [AddChild children].
      by rewrite <- app_assoc.
    + intros Hr. apply Ht, trimmed_contents_AddChild; [done|].
      apply Hct, trimmed_contents_start.
  - inversion Hp; subst. split; [done|]. split; [done|].
    split; [exists []; by rewrite app_nil_r|done].
  - case_bool_decide; apply IH in Hp as (Hn & Ha & Hcs & Ht); [|done].
    split; [done|]. split; [done|]. split; [done|].
    intros Hr. by apply Ht, trimmed_contents_setContent.
  - by apply IH in Hp.
  - by apply IH in Hp.
  - by apply IH in Hp.
Qed.

(** X10. [parseElement] returns, with an element or with the decoder's
    error unchanged.  The element has the name of the start-tag and its
    attributes in their order, repeated ones included; every content in it
    is one that [TrimSpace] leaves as it is, so that none starts or ends
    with white space; and at least the end-tag has been consumed. *)
Theorem parseElement_keeps_tag fuel ts e name attr :
  length ts < fuel ->
  exists r, parseElement fuel (mkDecoder ts e) name attr = Some r /\
    match r with
    | Ok el d' => Name el = name /\ Attributes el = attr /\
                  trimmed_contents el = true /\ all_trimmed el = true /\
                  final d' = e /\ length (pending d') < length ts
    | Err e' => e' = e
    end.
Proof.
  intros Hf. unfold parseElement.
  destruct (parse_loop_fuel fuel ts e (fold_left AddAttr attr (CreateElement name)) Hf)
    as (r & Hp & Hr).
  exists r. split; [done|]. destruct r as [el d'|e']; [|done].
  destruct Hr as [Hl He].
  apply parse_loop_grows in Hp as (Hn & Ha & _ & Ht).
  unfold CreateElement in Hn, Ha. rewrite fold_AddAttr in Hn, Ha.
  specialize (Ht (trimmed_contents_start _ _)).
  split; [done|]. split; [done|]. split; [done|].
  split; [by apply trimmed_contents_all_trimmed|done].
Qed.

Lemma parseElement_keeps_tag_witness :
  exists r, parseElement 3 (mkDecoder [CharData " x "; EndElement (plain "b")] io_EOF)
              (plain "a") [xml.mkAttr (plain "k") "v"; xml.mkAttr (plain "k") "w"]
            = Some r /\
    match r with
    | Ok el d' => Name el = plain "a" /\
                  Attributes el = [xml.mkAttr (plain "k") "v"; xml.mkAttr (plain "k") "w"] /\
                  trimmed_contents el = true /\ all_trimmed el = true /\
                  final d' = io_EOF /\ length (pending d') < 2
    | Err e' => e' = io_EOF
    end.
Proof.
  apply (parseElement_keeps_tag 3 [CharData " x "; EndElement (plain "b")] io_EOF
           (plain "a") [xml.mkAttr (plain "k") "v"; xml.mkAttr (plain "k") "w"]).
  simpl. lia.
Defined.

Lemma elements_loop_trimmed fuel : forall ts e acc,
  length ts < fuel -> Forall (fun el => trimmed_contents el = true) acc ->
  exists els err, elements_loop fuel (mkDecoder ts e) acc = Some (els, err) /\
                  Forall (fun el => trimmed_contents el = true) els.
Proof.
  induction fuel as [|fuel IH]; intros ts e acc Hf Hacc; [lia|].
  destruct ts as [|t ts]; simpl.
  - case_decide; eauto.
  - simpl in Hf. assert (Hf' : length ts < fuel) by lia.
    destruct t as [name attr|n|rt|c|tg i|c]; try by apply IH.
    unfold parseElement.
    destruct (parse_loop_fuel fuel ts e (fold_left AddAttr attr (CreateElement name)) Hf')
      as ([el [ts' e']|e'] & Hp & Hr); rewrite Hp; simpl in *.
    + destruct Hr as [Hl ->]. apply IH; [lia|].
      apply Forall_app. split; [done|]. apply Forall_singleton.
      apply parse_loop_grows in Hp as (_ & _ & _ & Ht). apply Ht, trimmed_contents_start.
    + eauto.
Qed.

(** X11. [ParseElements] returns on every token stream, and every content
    of the elements it returns, at any depth, is one that [TrimSpace] leaves
    as it is: none starts or ends with white space. *)
Theorem parsed_contents_are_trimmed decoder :
  exists els err, ParseElements decoder = Some (els, err) /\
                  Forall (fun el => trimmed_contents el = true /\ all_trimmed el = true) els.
Proof.
  destruct decoder as [ts e]. unfold ParseElements, ParseElementsWithOptions.
  destruct (elements_loop_trimmed (S (length ts)) ts e [] ltac:(lia) ltac:(constructor))
    as (els & err & Hl & Ht).
  exists els, err. split; [done|]. eapply Forall_impl; [exact Ht|].
  intros el Hel. split; [done|by apply trimmed_contents_all_trimmed].
Qed.

(** More fuel than needed changes nothing. *)
Lemma parse_loop_more_fuel fuel : forall fuel' d res r,
  parse_loop fuel d res = Some r -> fuel <= fuel' -> parse_loop fuel' d res = Some r.
Proof.
  induction fuel as [|fuel IH]; intros fuel' d res r Hp Hle; [done|].
  destruct fuel' as [|fuel']; [lia|]. assert (Hle' : fuel <= fuel') by lia.
  simpl in *. destruct (Token_ d) as [[t d1]|err]; [|done].
  destruct t as [name attr|n|rt|c|tg i|c]; try by eapply IH.
  - destruct (parse_loop fuel d1 (fold_left AddAttr attr (CreateElement name)))
      as [r1|] eqn:Hin; [|done].
    rewrite (IH _ _ _ _ Hin Hle'). simpl in *.
    destruct r1 as [child d2|e']; [|done]. by eapply IH.
  - done.
  - case_bool_decide; by eapply IH.
Qed.

Lemma elements_loop_more_fuel fuel : forall fuel' d acc r,
  elements_loop fuel d acc = Some r -> fuel <= fuel' -> elements_loop fuel' d acc = Some r.
Proof.
  induction fuel as [|fuel IH]; intros fuel' d acc r Hp Hle; [done|].
  destruct fuel' as [|fuel']; [lia|]. assert (Hle' : fuel <= fuel') by lia.
  simpl in *. destruct (Token_ d) as [[t d1]|err]; [|done].
  destruct t as [name attr|n|rt|c|tg i|c]; try by eapply IH.
  unfold parseElement in *.
  destruct (parse_loop fuel d1 (fold_left AddAttr attr (CreateElement name)))
    as [r1|] eqn:Hin; [|done].
  rewrite (parse_loop_more_fuel _ _ _ _ _ Hin Hle'). simpl in *.
  destruct r1 as [child d2|e']; [|done]. by eapply IH.
Qed.

Lemma drop_ignored_length ts :
  length (filter (fun t => significant t = true) ts) <= length ts.
Proof. apply length_filter. Qed.

(** The loop of [parseElement] on the tokens without the ignored ones. *)
Lemma parse_loop_drop_ignored fuel : forall ts e res,
  length ts < fuel ->
  exists r, parse_loop fuel (mkDecoder ts e) res = Some r /\
            parse_loop fuel (drop_ignored (mkDecoder ts e)) res
            = Some (match r with
                    | Ok el d' => Ok el (drop_ignored d')
                    | Err e' => Err e'
                    end).
Proof.
  induction fuel as [|fuel IH]; intros ts e res Hf; [lia|].
  assert (Hmore : forall ts' res' r',
            parse_loop fuel (drop_ignored (mkDecoder ts' e)) res' = Some r' ->
            parse_loop (S fuel) (drop_ignored (mkDecoder ts' e)) res' = Some r').
  { intros ts' res' r' H. eapply parse_loop_more_fuel; [exact H|lia]. }
  destruct ts as [|t ts].
  - exists (Err e). done.
  - cbn [length] in Hf. assert (Hf' : length ts < fuel) by lia.
    destruct t as [name attr|n|rt|c|tg i|c].
    + unfold drop_ignored. cbn [pending final]. rewrite filter_cons_True by done.
      cbn [parse_loop Token_ pending final].
      destruct (IH ts e (fold_left AddAttr attr (CreateElement name)) Hf')
        as (r1 & Hp1 & Hq1).
      rewrite Hp1. unfold drop_ignored in Hq1. cbn [pending final] in Hq1.
      rewrite Hq1. cbn [mbind option_bind].
      destruct r1 as [child [ts' e']|e']; [|by eexists].
      destruct (parse_loop_fuel fuel ts e (fold_left AddAttr attr (CreateElement name)) Hf')
        as (r0 & Hp0 & Hl).
      rewrite Hp1 in Hp0. injection Hp0 as <-. destruct Hl as [Hl He].
      cbn [pending final] in *. subst e'.
      destruct (IH ts' e (AddChild res child)) as (r2 & Hp2 & Hq2); [lia|].
      exists r2. split; [done|]. exact Hq2.
    + unfold drop_ignored. cbn [pending final]. rewrite filter_cons_True by done.
      cbn [parse_loop Token_ pending final]. by eexists.
    + unfold drop_ignored. cbn [pending final].
      cbn [parse_loop Token_ pending final].
      case_bool_decide as Hw.
      * rewrite filter_cons_True by (simpl; by rewrite bool_decide_true).
        cbn [parse_loop Token_ pending final]. rewrite bool_decide_true by done.
        apply (IH ts e _ Hf').
      * rewrite filter_cons_False by (simpl; by rewrite bool_decide_false).
        destruct (IH ts e res Hf') as (r & Hp & Hq).
        exists r. split; [done|]. by apply Hmore.
    + unfold drop_ignored. cbn [pending final].
      rewrite filter_cons_False by done. cbn [parse_loop Token_ pending final].
      destruct (IH ts e res Hf') as (r & Hp & Hq).
      exists r. split; [done|]. by apply Hmore.
    + unfold drop_ignored. cbn [pending final].
      rewrite filter_cons_False by done. cbn [parse_loop Token_ pending final].
      destruct (IH ts e res Hf') as (r & Hp & Hq).
      exists r. split; [done|]. by apply Hmore.
    + unfold drop_ignored. cbn [pending final].
      rewrite filter_cons_False by done. cbn [parse_loop Token_ pending final].
      destruct (IH ts e res Hf') as (r & Hp & Hq).
      exists r. split; [done|]. by apply Hmore.
Qed.

Lemma elements_loop_drop_ignored fuel : forall ts e acc,
  length ts < fuel ->
  exists r, elements_loop fuel (mkDecoder ts e) acc = Some r /\
            elements_loop fuel (drop_ignored (mkDecoder ts e)) acc = Some r.
Proof.
  induction fuel as [|fuel IH]; intros ts e acc Hf; [lia|].
  assert (Hmore : forall ts' acc' r',
            elements_loop fuel (drop_ignored (mkDecoder ts' e)) acc' = Some r' ->
            elements_loop (S fuel) (drop_ignored (mkDecoder ts' e)) acc' = Some r').
  { intros ts' acc' r' H. eapply elements_loop_more_fuel; [exact H|lia]. }
  destruct ts as [|t ts].
  - exists (acc, if decide (e = io_EOF) then None else Some e).
    unfold drop_ignored. simpl. by case_decide.
  - cbn [length] in Hf. assert (Hf' : length ts < fuel) by lia.
    destruct t as [name attr|n|rt|c|tg i|c].
    + unfold drop_ignored. cbn [pending final]. rewrite filter_cons_True by done.
      cbn [elements_loop Token_ pending final]. unfold parseElement.
      destruct (parse_loop_drop_ignored fuel ts e
                  (fold_left AddAttr attr (CreateElement name)) Hf')
        as (r1 & Hp1 & Hq1).
      rewrite Hp1. unfold drop_ignored in Hq1. cbn [pending final] in Hq1.
      rewrite Hq1. cbn [mbind option_bind].
      destruct r1 as [child [ts' e']|e']; [|by eexists].
      destruct (parse_loop_fuel fuel ts e (fold_left AddAttr attr (CreateElement name)) Hf')
        as (r0 & Hp0 & Hl).
      rewrite Hp1 in Hp0. injection Hp0 as <-. destruct Hl as [Hl He].
      cbn [pending final] in *. subst e'.
      destruct (IH ts' e (acc ++ [child])) as (r2 & Hp2 & Hq2); [lia|].
      exists r2. split; [done|]. exact Hq2.
    + unfold drop_ignored. cbn [pending final]. rewrite filter_cons_True by done.
      cbn [elements_loop Token_ pending final]. apply (IH ts e acc Hf').
    + unfold drop_ignored. cbn [pending final].
      cbn [elements_loop Token_ pending final].
      destruct (IH ts e acc Hf') as (r & Hp & Hq). exists r. split; [done|].
      destruct (decide (significant (CharData rt) = true)) as [Hs|Hs].
      * rewrite filter_cons_True by done. cbn [elements_loop Token_ pending final].
        exact Hq.
      * rewrite filter_cons_False by done. by apply Hmore.
    + unfold drop_ignored. cbn [pending final].
      rewrite filter_cons_False by done. cbn [elements_loop Token_ pending final].
      destruct (IH ts e acc Hf') as (r & Hp & Hq).
      exists r. split; [done|]. by apply Hmore.
    + unfold drop_ignored. cbn [pending final].
      rewrite filter_cons_False by done. cbn [elements_loop Token_ pending final].
      destruct (IH ts e acc Hf') as (r & Hp & Hq).
      exists r. split; [done|]. by apply Hmore.
    + unfold drop_ignored. cbn [pending final].
      rewrite filter_cons_False by done. cbn [elements_loop Token_ pending final].
      destruct (IH ts e acc Hf') as (r & Hp & Hq).
      exists r. split; [done|]. by apply Hmore.
Qed.

(** X12. Comments, processing instructions, directives and text made of
    white space only have no effect on the result of [ParseElements] and
    [Parse], wherever they stand: the result is that of the stream without
    them. *)
Theorem ignored_tokens_change_nothing decoder :
  ParseElements (drop_ignored decoder) = ParseElements decoder /\
  Parse (drop_ignored decoder) = Parse decoder.
Proof.
  assert (H : ParseElementsWithOptions (drop_ignored decoder)
              = ParseElementsWithOptions decoder).
  { destruct decoder as [ts e]. unfold ParseElementsWithOptions.
    destruct (elements_loop_drop_ignored (S (length ts)) ts e []) as (r & Hp & Hq);
      [lia|].
    cbn [pending]. rewrite Hp.
    destruct (elements_loop_total (S (length (filter (fun t => significant t = true) ts)))
                (filter (fun t => significant t = true) ts) e []) as (els & err & Hr & _);
      [lia|].
    unfold drop_ignored in *. cbn [pending final] in *. rewrite Hr.
    apply (elements_loop_more_fuel _ (S (length ts))) in Hr;
      [|pose proof (drop_ignored_length ts); lia].
    congruence. }
  split; [exact H|]. unfold Parse, ParseWithOptions. by rewrite H.
Qed.

Lemma elements_loop_enough fuel fuel' ts e acc :
  length ts < fuel -> length ts < fuel' ->
  elements_loop fuel (mkDecoder ts e) acc = elements_loop fuel' (mkDecoder ts e) acc.
Proof.
  intros Hf Hf'.
  destruct (elements_loop_total fuel ts e acc Hf) as (els & err & H & _).
  destruct (elements_loop_total fuel' ts e acc Hf') as (els' & err' & H' & _).
  rewrite H, H'.
  apply (elements_loop_more_fuel _ (fuel `max` fuel')) in H; [|lia].
  apply (elements_loop_more_fuel _ (fuel `max` fuel')) in H'; [|lia].
  congruence.
Qed.

(** Complete elements followed by the tokens [ts]. *)
Lemma elements_loop_groups_then groups els :
  Forall2 ElementTokens groups els ->
  forall fuel fuel' ts e acc,
    length (concat groups ++ ts) < fuel -> length ts < fuel' ->
    elements_loop fuel (mkDecoder (concat groups ++ ts) e) acc
    = elements_loop fuel' (mkDecoder ts e) (acc ++ els).
Proof.
  induction 1 as [|g el groups els (name & attr & body & n & -> & HB) _ IH];
    intros fuel fuel' ts e acc Hf Hf'.
  - simpl. rewrite app_nil_r. by apply elements_loop_enough.
  - assert (Hshape : concat ((StartElement name attr :: body ++ [EndElement n]) :: groups)
                     ++ ts
                     = StartElement name attr :: body ++ EndElement n :: (concat groups ++ ts)).
    { cbn [concat]. rewrite <- !app_assoc. cbn [app]. by rewrite <- app_assoc. }
    rewrite Hshape in *. clear Hshape.
    repeat first [rewrite length_app in Hf | progress cbn [length] in Hf].
    destruct fuel as [|fuel]; [lia|].
    cbn [elements_loop Token_ pending final]. unfold parseElement.
    rewrite (Body_parse _ _ _ HB)
      by (repeat first [rewrite length_app | progress cbn [length]]; lia).
    cbn [mbind option_bind].
    rewrite (IH fuel fuel') by (rewrite ?length_app; lia).
    by rewrite <- app_assoc.
Qed.

(** X13. When the input holds complete top-level elements and then an element
    that is never closed, [ParseElements] returns the elements read before
    it together with the decoder's error; [Parse] drops them and returns
    the error alone. *)
Theorem elements_before_an_error_are_returned groups els name attr ts e :
  Forall2 ElementTokens groups els -> closes 0 ts = false ->
  ParseElements (mkDecoder (concat groups ++ StartElement name attr :: ts) e)
    = Some (els, Some e) /\
  Parse (mkDecoder (concat groups ++ StartElement name attr :: ts) e)
    = Some (None, Some e).
Proof.
  intros HG Hc.
  assert (H : ParseElementsWithOptions
                (mkDecoder (concat groups ++ StartElement name attr :: ts) e)
              = Some (els, Some e)).
  { unfold ParseElementsWithOptions. cbn [pending].
    rewrite (elements_loop_groups_then _ _ HG _ (S (S (length ts))))
      by (cbn [length]; lia).
    cbn [elements_loop Token_ pending final]. unfold parseElement.
    destruct (parse_loop_unclosed (S (length ts)) ts e
                (fold_left AddAttr attr (CreateElement name)) 0) as (r & -> & Hr);
      [lia|done|].
    destruct r as [el d'|e']; [by destruct Hr as (d0 & ? & _)|]. by subst. }
  split; [exact H|]. unfold Parse, ParseWithOptions. by rewrite H.
Qed.

Lemma elements_before_an_error_are_returned_witness :
  ParseElements
    (mkDecoder (concat [[StartElement (plain "a") []; EndElement (plain "a")]] ++
                StartElement (plain "b") [] :: [CharData "x"])
               (SyntaxError "unexpected EOF"))
    = Some ([ElementN "a"], Some (SyntaxError "unexpected EOF")) /\
  Parse
    (mkDecoder (concat [[StartElement (plain "a") []; EndElement (plain "a")]] ++
                StartElement (plain "b") [] :: [CharData "x"])
               (SyntaxError "unexpected EOF"))
    = Some (None, Some (SyntaxError "unexpected EOF")).
Proof.
  apply (elements_before_an_error_are_returned
           [[StartElement (plain "a") []; EndElement (plain "a")]] [ElementN "a"]
           (plain "b") [] [CharData "x"] (SyntaxError "unexpected EOF")).
  - constructor; [|constructor].
    exists (plain "a"), [], [], (plain "a"). split; [reflexivity|constructor].
  - reflexivity.
Defined.

(** X14. [Parse] returns either a document or an error, never both and never
    neither.  It returns a document exactly when [ParseElements] reports no
    error and at most one element; the document has that element as root,
    or no root when there is none. *)
Theorem Parse_document_or_error decoder :
  exists els err doc err',
    ParseElements decoder = Some (els, err) /\
    Parse decoder = Some (doc, err') /\
    (doc, err') = match err, els with
                  | Some err, _ => (None, Some err)
                  | None, [] => (Some (mkDocument None), None)
                  | None, [el] => (Some (mkDocument (Some el)), None)
                  | None, _ => (None, Some (errors_New TooManyRootElements))
                  end /\
    (is_Some doc <-> err' = None) /\
    (is_Some doc <-> err = None /\ length els <= 1).
Proof.
  destruct decoder as [ts e].
  destruct (elements_loop_total (S (length ts)) ts e []) as (els & err & Hp & _); [lia|].
  exists els, err.
  assert (HP : ParseElementsWithOptions (mkDecoder ts e) = Some (els, err)) by exact Hp.
  unfold Parse, ParseWithOptions. rewrite HP. cbn [mbind option_bind].
  destruct err as [err|].
  - exists None, (Some err). split; [exact HP|]. split; [done|]. split; [done|].
    split; (split; [by intros [? ?]|]); [done|by intros [? _]].
  - destruct els as [|el [|el' els]]; cbn [length];
      case_bool_decide; try lia; eexists _, _;
      (split; [exact HP|]); (split; [reflexivity|]); (split; [reflexivity|]).
    + split; (split; [intros _; try split; (done || lia)|intros _; by eexists]).
    + split; (split; [intros _; try split; (done || lia)|intros _; by eexists]).
    + split; (split; [by intros [? ?]|]); [done|intros [_ ?]; lia].
Qed.

Lemma elements_loop_no_start fuel : forall ts e acc,
  length ts < fuel -> forallb (fun t => negb (is_start t)) ts = true ->
  elements_loop fuel (mkDecoder ts e) acc
  = Some (acc, if decide (e = io_EOF) then None else Some e).
Proof.
  induction fuel as [|fuel IH]; intros ts e acc Hf Hn; [lia|].
  destruct ts as [|t ts]; simpl.
  - by case_decide.
  - simpl in Hf, Hn. apply andb_true_iff in Hn as [Ht Hn].
    destruct t; try done; apply IH; (lia || done).
Qed.

(** X15. A stream without a start-tag that ends normally is not an error:
    [ParseElements] returns no element and [Parse] a document without root.
    Text outside of elements is ignored. *)
Theorem no_start_tag_no_element ts e :
  forallb (fun t => negb (is_start t)) ts = true ->
  ParseElements (mkDecoder ts e)
    = Some ([], if decide (e = io_EOF) then None else Some e) /\
  Parse (mkDecoder ts e)
    = Some (if decide (e = io_EOF) then (Some CreateDocument, None) else (None, Some e)).
Proof.
  intros Hn.
  assert (H : ParseElementsWithOptions (mkDecoder ts e)
              = Some ([], if decide (e = io_EOF) then None else Some e)).
  { unfold ParseElementsWithOptions. apply elements_loop_no_start; [simpl; lia|done]. }
  split; [exact H|]. unfold Parse, ParseWithOptions. rewrite H.
  cbn [mbind option_bind]. by case_decide.
Qed.

Lemma no_start_tag_no_element_witness :
  ParseElements (mkDecoder [ProcInst "xml" "version"; CharData "stray"; Comment "c"] io_EOF)
    = Some ([], if decide (io_EOF = io_EOF) then None else Some io_EOF) /\
  Parse (mkDecoder [ProcInst "xml" "version"; CharData "stray"; Comment "c"] io_EOF)
    = Some (if decide (io_EOF = io_EOF) then (Some CreateDocument, None)
            else (None, Some io_EOF)).
Proof.
  exact (no_start_tag_no_element
           [ProcInst "xml" "version"; CharData "stray"; Comment "c"] io_EOF eq_refl).
Defined.

Lemma parse_loop_rename_ends f fuel : forall d res,
  parse_loop fuel (rename_ends f d) res
  = rename_result f <$> parse_loop fuel d res.
Proof.
  induction fuel as [|fuel IH]; intros [ts e] res; [done|].
  destruct ts as [|t ts]; [done|].
  assert (Hd : forall ts', mkDecoder (map (rename_end f) ts') e
                           = rename_ends f (mkDecoder ts' e)) by done.
  destruct t as [name attr|n|rt|c|tg i|c];
    unfold rename_ends; cbn [pending final map rename_end];
    cbn [parse_loop Token_ pending final]; rewrite ?Hd, ?IH; try done.
  - destruct (parse_loop fuel (mkDecoder ts e) _) as [[child d1|e']|]; try done.
    cbn [fmap option_fmap option_map mbind option_bind rename_result].
    apply IH.
  - by case_bool_decide.
Qed.

(** X16. The tree builder never looks at the name of an end-tag: renaming
    the end-tags of a token stream changes the result of neither
    [ParseElements] nor [Parse].  Matching tags is left to the decoder. *)
Theorem end_tag_names_are_not_compared f decoder :
  ParseElements (rename_ends f decoder) = ParseElements decoder /\
  Parse (rename_ends f decoder) = Parse decoder.
Proof.
  assert (HE : forall fuel d acc,
            elements_loop fuel (rename_ends f d) acc = elements_loop fuel d acc).
  { induction fuel as [|fuel IH]; intros [ts e] acc; [done|].
    destruct ts as [|t ts]; [done|].
    assert (Hd : forall ts', mkDecoder (map (rename_end f) ts') e
                             = rename_ends f (mkDecoder ts' e)) by done.
    destruct t as [name attr|n|rt|c|tg i|c];
      unfold rename_ends; cbn [pending final map rename_end];
      cbn [elements_loop Token_ pending final]; rewrite ?Hd, ?IH; try done.
    unfold parseElement. rewrite parse_loop_rename_ends.
    destruct (parse_loop fuel (mkDecoder ts e) _) as [[child d1|e']|]; try done.
    cbn [fmap option_fmap option_map mbind option_bind rename_result].
    apply IH. }
  assert (H : ParseElementsWithOptions (rename_ends f decoder)
              = ParseElementsWithOptions decoder).
  { unfold ParseElementsWithOptions. rewrite HE.
    unfold rename_ends. cbn [pending]. by rewrite length_map. }
  split; [exact H|]. unfold Parse, ParseWithOptions. by rewrite H.
Qed.

End ParserMore.

(** ** More about the encoder *)

Section EncoderMore.








End EncoderMore.

(** ** More about the round trip *)

Section RoundTripMore.

Lemma trim_contents_eq node :
  trim_contents node =
  mkElement (Name node) (map trim_contents (children node))
            (TrimSpace (Content node)) (Attributes node).
Proof. by destruct node. Qed.

Lemma TrimSpace_app_blank (c b : string) :
  all_bytes isASCII c = true -> all_bytes isSpace b = true ->
  TrimSpace (c +:+ b) = TrimSpace c.
Proof.
  intros Hc0 Hb. destruct (TrimSpace_split c Hc0) as (a & b0 & Hc & Ha & Hb0 & Ht).
  rewrite Hc at 1. rewrite !sapp_assoc.
  apply TrimSpace_padded; [done| | |done].
  - by rewrite all_bytes_app, Hb0, Hb.
  - rewrite Hc in Hc0. by apply all_isASCII_app_r, all_isASCII_app_l in Hc0.
Qed.

Lemma text_effect_start w n a :
  text_effect w (mkElement n [] EmptyString a) = mkElement n [] (TrimSpace w) a.
Proof.
  unfold text_effect. case_bool_decide as H; [done|].
  destruct (TrimSpace w); [done|simpl in H; lia].
Qed.

Lemma Body_toks_trimmed node d w r :
  parses_back_trimmed node ->
  Body (toks d w node) r (AddChild (text_effect (w +:+ indent d) r) (trim_contents node)).
Proof.
  intros Hp. rewrite toks_body. apply Body_emit_text.
  change (StartElement (Name node) (Attributes node) ::
            body_toks d node ++ [EndElement (Name node)])
    with (StartElement (Name node) (Attributes node) ::
            body_toks d node ++ EndElement (Name node) :: []).
  econstructor; [apply Hp|constructor].
Qed.

Lemma Body_toks_each_trimmed cs d :
  Forall parses_back_trimmed cs ->
  forall w r,
    Body (toks_each (toks d) w cs) r
         (match cs with
          | [] => r
          | _ => fold_left AddChild (map trim_contents cs)
                   (text_effect (w +:+ indent d) r)
          end).
Proof.
  induction 1 as [|c cs Hc _ IH]; intros w r; [constructor|].
  cbn [toks_each]. eapply Body_app; [by apply Body_toks_trimmed|].
  specialize (IH nl (AddChild (text_effect (w +:+ indent d) r) (trim_contents c))).
  destruct cs as [|c' cs]; [exact IH|].
  rewrite (text_effect_blank (nl +:+ indent d)) in IH by apply blank_nl_indent.
  exact IH.
Qed.

Lemma plain_ascii_parses_back node : plain_ascii node = true -> parses_back_trimmed node.
Proof.
  induction node as [n cs c a IH] using Element_ind'.
  rewrite plain_ascii_eq. cbn [Name Attributes Content children].
  intros [[_ Hc%all_isXMLChar_isASCII]%andb_true_iff Hcs]%andb_true_iff d.
  assert (Hback : Forall parses_back_trimmed cs).
  { apply Forall_forall. intros x Hx. rewrite Forall_forall in IH.
    apply IH; [done|]. rewrite forallb_forall in Hcs. apply Hcs.
    by apply list_elem_of_In. }
  rewrite trim_contents_eq.
  unfold body_toks, CreateElement. cbn [Name Attributes Content children make replicate].
  rewrite fold_AddAttr. rewrite app_nil_l.
  case_bool_decide as Hempty.
  - destruct Hempty as [Hl Hs]. destruct cs; [|done]. destruct c; [|done]. constructor.
  - case_bool_decide as Hkids.
    + eapply Body_app; [apply (Body_toks_each_trimmed _ (S d) Hback)|].
      destruct cs as [|c0 cs]; [simpl in Hkids; lia|].
      constructor. rewrite (TrimSpace_blank _ (blank_nl_indent d)).
      rewrite bool_decide_false by (simpl; lia).
      rewrite text_effect_start, sapp_assoc.
      rewrite (TrimSpace_app_blank c) by (done || apply blank_nl_indent).
      rewrite fold_AddChild. rewrite app_nil_l. constructor.
    + destruct cs as [|c0 cs]; [|simpl in Hkids; lia].
      destruct c as [|x c]; [exfalso; apply Hempty; done|].
      unfold emit_text. rewrite decide_False by done. constructor.
      fold (text_effect (String x c) (mkElement n [] EmptyString a)).
      rewrite text_effect_start. constructor.
Qed.

Lemma plain_ascii_plain_names node : plain_ascii node = true -> plain_names node = true.
Proof.
  induction node as [n cs c a IH] using Element_ind'.
  rewrite plain_ascii_eq, plain_names_eq. cbn [Name Attributes Content children].
  intros [[[[Hn _]%andb_true_iff Ha]%andb_true_iff _]%andb_true_iff
           Hcs]%andb_true_iff.
  rewrite Hn. cbn [andb]. apply andb_true_iff. split.
  - apply forallb_forall. intros x Hx. rewrite forallb_forall in Ha.
    specialize (Ha x Hx). unfold attr_ok in Ha.
    by apply andb_true_iff in Ha as [[[? _]%andb_true_iff _]%andb_true_iff _].
  - apply forallb_forall. intros x Hx. rewrite forallb_forall in Hcs.
    rewrite Forall_forall in IH. apply IH; [by apply list_elem_of_In|by apply Hcs].
Qed.

Lemma Bytes_parse_trimmed ord node :
  valid_order ord -> plain_ascii node = true ->
  exists s, Bytes ord node = Some s /\
            ParseElementsBytes s = Some ([trim_contents node], None).
Proof.
  intros Hv Hr. eexists. split.
  - apply Bytes_plain; [done|by apply plain_ascii_plain_names].
  - unfold ParseElementsBytes, NewDecoder.
    rewrite (plain_ascii_lexes node Hr 0 EmptyString [] []).
    unfold finish. cbn [mode emitted open_tags].
    rewrite app_nil_l, toks_body. rewrite sapp_nil_l. cbn [indent].
    change (emit_text EmptyString []) with (@nil Token).
    rewrite emit_text_app. change (emit_text nl []) with [CharData nl].
    cbn [mbind option_bind].
    rewrite app_nil_l. rewrite <- app_comm_cons, <- app_assoc.
    apply ParseElements_single. by apply plain_ascii_parses_back.
Qed.

Lemma all_bytes_TrimSpace p c : all_bytes p c = true -> all_bytes p (TrimSpace c) = true.
Proof.
  intros H. destruct (TrimSpace_part c) as (a & b & Hc).
  rewrite Hc, !all_bytes_app in H.
  by apply andb_true_iff in H as [_ [H _]%andb_true_iff].
Qed.

Lemma plain_ascii_trim_contents node :
  plain_ascii node = true -> plain_ascii (trim_contents node) = true.
Proof.
  induction node as [n cs c a IH] using Element_ind'.
  rewrite trim_contents_eq, !plain_ascii_eq.
  cbn [Name Attributes Content children].
  intros [[[[Hn Hl]%andb_true_iff Ha]%andb_true_iff Hc]%andb_true_iff
           Hcs]%andb_true_iff.
  rewrite Hn, Hl, Ha, (all_bytes_TrimSpace _ _ Hc). cbn [andb].
  apply forallb_forall. intros x [y [<- Hy]]%in_map_iff.
  rewrite Forall_forall in IH. apply IH; [by apply list_elem_of_In|].
  rewrite forallb_forall in Hcs. by apply Hcs.
Qed.

(** Trimming the contents twice is trimming them once. *)
Lemma trim_contents_idem node : trim_contents (trim_contents node) = trim_contents node.
Proof.
  induction node as [n cs c a IH] using Element_ind'.
  rewrite (trim_contents_eq (mkElement n cs c a)), trim_contents_eq.
  cbn [Name Attributes Content children]. rewrite TrimSpace_idem. f_equal.
  rewrite map_map. apply map_ext_in. intros x Hx.
  rewrite Forall_forall in IH. apply IH. by apply list_elem_of_In.
Qed.

(** X19. For every element that uses no namespace, whose names are ASCII XML
    names and whose attribute values and contents are ASCII characters of
    XML (the values without double quote, [<], [&] and carriage return),
    [Bytes] returns a text and [ParseElements] on that text returns exactly
    one element: the one that was serialized with the white space around
    every content removed.  That element is a fixed point: serializing and
    parsing it gives it back. *)
Theorem parse_of_Bytes_trims_contents ord node :
  valid_order ord -> plain_ascii node = true ->
  (exists s, Bytes ord node = Some s /\
             ParseElementsBytes s = Some ([trim_contents node], None)) /\
  (exists s, Bytes ord (trim_contents node) = Some s /\
             ParseElementsBytes s = Some ([trim_contents node], None)).
Proof.
  intros Hv Hp. split; [by apply Bytes_parse_trimmed|].
  pose proof (plain_ascii_trim_contents node Hp) as Hr.
  destruct (Bytes_parse_trimmed ord (trim_contents node) Hv Hr) as (s & Hs & Hq).
  exists s. split; [done|]. by rewrite trim_contents_idem in Hq.
Qed.

Lemma parse_of_Bytes_trims_contents_witness :
  (exists s, Bytes forwards blank_content = Some s /\
             ParseElementsBytes s = Some ([trim_contents blank_content], None)) /\
  (exists s, Bytes forwards (trim_contents blank_content) = Some s /\
             ParseElementsBytes s = Some ([trim_contents blank_content], None)).
Proof.
  exact (parse_of_Bytes_trims_contents forwards blank_content valid_order_forwards eq_refl).
Defined.

End RoundTripMore.

(** ** Attribute values *)

Section Unescaped.

Lemma run_failed s : forall toks stk msg,
  run (mkLexer toks stk (Failed msg)) s = mkLexer toks stk (Failed msg).
Proof.
  induction s as [|c s IH]; intros toks stk msg; [done|].
  rewrite run_cons.
  change (step (mkLexer toks stk (Failed msg)) c) with (mkLexer toks stk (Failed msg)).
  apply IH.
Qed.

Lemma run_attr_open toks stk n attrs an v :
  isXMLName an = true -> an <> "xmlns" -> all_bytes isValueByte v = true ->
  run (mkLexer toks stk (InTag n attrs)) (" " +:+ an +:+ "=" +:+ dquote +:+ v)
  = mkLexer toks stk (InAttrValue n attrs an "034" v).
Proof.
  intros Han Hx Hv. destruct an as [|x an]; [done|].
  simpl in Han. apply andb_true_iff in Han as [Hx1 Han].
  rewrite sapp_cons, run_cons.
  change (step (mkLexer toks stk (InTag n attrs)) " ")
    with (mkLexer toks stk (InTag n attrs)).
  rewrite sapp_nil_l. rewrite sapp_cons. rewrite run_cons.
  rewrite step_attr_start by done.
  rewrite run_app, run_attr_name by done. rewrite (sapp_cons x), sapp_nil_l.
  rewrite sapp_cons, run_cons.
  assert (Heq : step (mkLexer toks stk (InAttrName n attrs (String x an))) "="
          = mkLexer toks stk (AfterEq n attrs (String x an))).
  { unfold step. simpl. unfold after_attr_name. simpl. by rewrite decide_False. }
  rewrite Heq, sapp_nil_l. unfold dquote at 1. rewrite sapp_cons, run_cons.
  change (step (mkLexer toks stk (AfterEq n attrs (String x an))) "034")
    with (mkLexer toks stk (InAttrValue n attrs (String x an) "034" EmptyString)).
  rewrite sapp_nil_l, run_value by done. by rewrite sapp_nil_l.
Qed.

Lemma regroup5 (a b c d e r : string) :
  a +:+ b +:+ c +:+ d +:+ e +:+ r = (a +:+ b +:+ c +:+ d +:+ e) +:+ r.
Proof. by rewrite !sapp_assoc. Qed.

(** X20. [Encode] writes attribute values as they are, without escaping: for
    an element without namespaces that has an attribute whose value
    contains [<], [Bytes] returns a text that [ParseElements] rejects with
    the decoder's syntax error, returning no element. *)
Theorem attribute_values_are_not_escaped ord node pre k v1 v2 rest :
  valid_order ord -> plain_names node = true ->
  isXMLName (xml.Local (Name node)) = true ->
  forallb attr_ok pre = true ->
  isXMLName k = true -> k <> "xmlns" -> all_bytes isValueByte v1 = true ->
  Attributes node = pre ++ xml.mkAttr (plain k) (v1 +:+ "<" +:+ v2) :: rest ->
  exists s, Bytes ord node = Some s /\
            ParseElementsBytes s
            = Some ([], Some (SyntaxError "unescaped < inside quoted string")).
Proof.
  intros Hv Hp Hn Hpre Hk Hx Hv1 Ha.
  eexists. split; [by apply Bytes_plain|].
  destruct node as [[sp lo] cs c a].
  rewrite plain_names_eq in Hp. cbn [Name Attributes children Content xml.Space xml.Local] in *.
  apply andb_true_iff in Hp as [[Hsp%bool_decide_eq_true _]%andb_true_iff _].
  subst sp a.
  unfold ParseElementsBytes, NewDecoder, opening. cbn [Name Attributes ind indent].
  change (qname ∅ (xml.mkName EmptyString lo)) with lo.
  unfold attrsText. rewrite map_app, concat_strings_app. cbn [map concat_strings].
  fold (attrsText ∅ pre). fold (attrsText ∅ rest).
  assert (Hbad : attrText ∅ (xml.mkAttr (plain k) (v1 +:+ "<" +:+ v2))
                 = (" " +:+ k +:+ "=" +:+ dquote +:+ v1) +:+ "<" +:+ v2 +:+ dquote)
    by (unfold attrText; cbn; by rewrite !sapp_assoc).
  rewrite Hbad, sapp_nil_l, !sapp_assoc.
  rewrite <- (sapp_assoc "<" lo). rewrite run_app, run_open_name by done.
  change (emit_text EmptyString []) with (@nil Token).
  rewrite run_after_name.
  2:{ apply tag_tail_app.
      - intros _. by rewrite <- !sapp_assoc.
      - destruct pre as [|x pre]; [done|]. intros _.
        simpl in Hpre. apply andb_true_iff in Hpre as [Hx0 _].
        unfold attrsText. cbn [map concat_strings].
        by rewrite (attrText_plain _ Hx0). }
  rewrite run_app, run_attrs by done. rewrite app_nil_l.
  rewrite (regroup5 " " k "=" dquote v1).
  rewrite run_app, run_attr_open by done.
  rewrite sapp_cons, run_cons.
  change (step (mkLexer [] [] (InAttrValue lo pre k "034" v1)) "<")
    with (mkLexer [] [] (Failed "unescaped < inside quoted string")).
  rewrite run_failed. reflexivity.
Qed.

Lemma attribute_values_are_not_escaped_witness :
  exists s, Bytes forwards (mkElement (plain "a") [] EmptyString
                              [xml.mkAttr (plain "k") ("x" +:+ "<" +:+ "y")]) = Some s /\
            ParseElementsBytes s
            = Some ([], Some (SyntaxError "unescaped < inside quoted string")).
Proof.
  assert (Hk : "k" <> "xmlns") by discriminate.
  exact (attribute_values_are_not_escaped forwards
           (mkElement (plain "a") [] EmptyString
              [xml.mkAttr (plain "k") ("x" +:+ "<" +:+ "y")])
           [] "k" "x" "y" [] valid_order_forwards eq_refl eq_refl eq_refl eq_refl Hk
           eq_refl eq_refl).
Defined.

End Unescaped.
